(** * Globe projection utilities ([src/geo/projection/globe_util.js])

    A shallow embedding of the numeric core of [globe_util.js] and the
    properties of its bounding-box, arc-extremum, normalization and
    transition code, and of the grid, pole and wireframe buffers that
    [GlobeSharedBuffers] builds.

    JavaScript numbers are modelled as the real numbers [R]: [Math.sin],
    [Math.cos], [Math.tan], [Math.atan], [Math.acos], [Math.sqrt],
    [Math.min], [Math.max] and [Math.abs] are the functions of the same name
    of the standard library of reals; rounding, infinities and [NaN] are
    not modelled, so a division is only meaningful where its divisor is
    not zero.  [null] and [undefined] are modelled with [option], failed
    assertions and type errors with [result]. *)

From Stdlib Require Import Reals Lra Lia ZArith List Bool String Zfloor RNsatz.
Import ListNotations.
Open Scope R_scope.

(** ** Small JavaScript helpers *)

(** The three indices [0], [1], [2] used to address a [Vec3]. *)
Inductive Dim : Type := DimX | DimY | DimZ.

Definition dim_index (d : Dim) : nat :=
  match d with DimX => 0%nat | DimY => 1%nat | DimZ => 2%nat end.

(** [v || d] on a number: zero is falsy. *)
Definition num_or (v d : R) : R := if Req_dec_T v 0 then d else v.

(** [v || d] on a nullable number: [null] and zero are falsy. *)
Definition opt_or (v : option R) (d : R) : R :=
  match v with
  | None => d
  | Some x => num_or x d
  end.

(** [Math.round]: the nearest integer, a tie going up. *)
Definition Math_round (x : R) : Z := Zfloor (x + 1 / 2).

(** [Number.MAX_VALUE], the largest finite double. *)
Definition MAX_VALUE : R := (2 - / 2 ^ 52) * 2 ^ 1023.

(** [1 << z] on 32-bit integers: the shift count is taken modulo 32 and the
    result is read back as a signed 32-bit integer. *)
Definition shl1 (z : Z) : Z :=
  let r := Z.shiftl 1 (z mod 32) in
  if (r <? 2 ^ 31)%Z then r else (r - 2 ^ 32)%Z.

(** ** Vectors and matrices of gl-matrix *)

Record Vec3 : Type := mkVec3 { v0 : R; v1 : R; v2 : R }.

Definition vget (v : Vec3) (d : Dim) : R :=
  match d with DimX => v0 v | DimY => v1 v | DimZ => v2 v end.

Notation "v .[ d ]" := (vget v d) (at level 1, format "v .[ d ]").

(** A 4x4 matrix in gl-matrix's column-major layout, [mi] being [m[i]]. *)
Record Mat4 : Type := mkMat4 {
  m0 : R; m1 : R; m2 : R; m3 : R;
  m4 : R; m5 : R; m6 : R; m7 : R;
  m8 : R; m9 : R; m10 : R; m11 : R;
  m12 : R; m13 : R; m14 : R; m15 : R }.

Module vec3.

Definition add (a b : Vec3) : Vec3 :=
  mkVec3 (v0 a + v0 b) (v1 a + v1 b) (v2 a + v2 b).

Definition sub (a b : Vec3) : Vec3 :=
  mkVec3 (v0 a - v0 b) (v1 a - v1 b) (v2 a - v2 b).

Definition subtract := sub.

Definition scale (a : Vec3) (s : R) : Vec3 :=
  mkVec3 (v0 a * s) (v1 a * s) (v2 a * s).

Definition scaleAndAdd (a b : Vec3) (s : R) : Vec3 :=
  mkVec3 (v0 a + v0 b * s) (v1 a + v1 b * s) (v2 a + v2 b * s).

Definition negate (a : Vec3) : Vec3 := mkVec3 (- v0 a) (- v1 a) (- v2 a).

Definition min (a b : Vec3) : Vec3 :=
  mkVec3 (Rmin (v0 a) (v0 b)) (Rmin (v1 a) (v1 b)) (Rmin (v2 a) (v2 b)).

Definition max (a b : Vec3) : Vec3 :=
  mkVec3 (Rmax (v0 a) (v0 b)) (Rmax (v1 a) (v1 b)) (Rmax (v2 a) (v2 b)).

Definition dot (a b : Vec3) : R := v0 a * v0 b + v1 a * v1 b + v2 a * v2 b.

Definition cross (a b : Vec3) : Vec3 :=
  mkVec3 (v1 a * v2 b - v2 a * v1 b)
         (v2 a * v0 b - v0 a * v2 b)
         (v0 a * v1 b - v1 a * v0 b).

(** [len = x*x + y*y + z*z; if (len > 0) len = 1 / Math.sqrt(len)]. *)
Definition normalize (a : Vec3) : Vec3 :=
  let len := v0 a * v0 a + v1 a * v1 a + v2 a * v2 a in
  let len' := if Rgt_dec len 0 then 1 / sqrt len else len in
  mkVec3 (v0 a * len') (v1 a * len') (v2 a * len').

(** The fourth coordinate [w] falls back to [1] when it is zero. *)
Definition transformMat4 (a : Vec3) (m : Mat4) : Vec3 :=
  let x := v0 a in let y := v1 a in let z := v2 a in
  let w := num_or (m3 m * x + m7 m * y + m11 m * z + m15 m) 1 in
  mkVec3 ((m0 m * x + m4 m * y + m8 m * z + m12 m) / w)
         ((m1 m * x + m5 m * y + m9 m * z + m13 m) / w)
         ((m2 m * x + m6 m * y + m10 m * z + m14 m) / w).

(** [cosine = mag && dot(a, b) / mag], clamped to [-1, 1] before [acos]. *)
Definition angle (a b : Vec3) : R :=
  let mag1 := sqrt (v0 a * v0 a + v1 a * v1 a + v2 a * v2 a) in
  let mag2 := sqrt (v0 b * v0 b + v1 b * v1 b + v2 b * v2 b) in
  let mag := mag1 * mag2 in
  let cosine := if Req_dec_T mag 0 then mag else dot a b / mag in
  acos (Rmin (Rmax cosine (-1)) 1).

Definition fromValues (x y z : R) : Vec3 := mkVec3 x y z.

End vec3.

Module mat4.

Definition identity : Mat4 :=
  mkMat4 1 0 0 0  0 1 0 0  0 0 1 0  0 0 0 1.

Definition fromScaling (v : Vec3) : Mat4 :=
  mkMat4 (v0 v) 0 0 0  0 (v1 v) 0 0  0 0 (v2 v) 0  0 0 0 1.

Definition fromTranslation (v : Vec3) : Mat4 :=
  mkMat4 1 0 0 0  0 1 0 0  0 0 1 0  (v0 v) (v1 v) (v2 v) 1.

Definition translate (a : Mat4) (v : Vec3) : Mat4 :=
  let x := v0 v in let y := v1 v in let z := v2 v in
  mkMat4 (m0 a) (m1 a) (m2 a) (m3 a)
         (m4 a) (m5 a) (m6 a) (m7 a)
         (m8 a) (m9 a) (m10 a) (m11 a)
         (m0 a * x + m4 a * y + m8 a * z + m12 a)
         (m1 a * x + m5 a * y + m9 a * z + m13 a)
         (m2 a * x + m6 a * y + m10 a * z + m14 a)
         (m3 a * x + m7 a * y + m11 a * z + m15 a).

Definition scale (a : Mat4) (v : Vec3) : Mat4 :=
  let x := v0 v in let y := v1 v in let z := v2 v in
  mkMat4 (m0 a * x) (m1 a * x) (m2 a * x) (m3 a * x)
         (m4 a * y) (m5 a * y) (m6 a * y) (m7 a * y)
         (m8 a * z) (m9 a * z) (m10 a * z) (m11 a * z)
         (m12 a) (m13 a) (m14 a) (m15 a).

Definition rotateX (a : Mat4) (rad : R) : Mat4 :=
  let s := sin rad in let c := cos rad in
  mkMat4 (m0 a) (m1 a) (m2 a) (m3 a)
         (m4 a * c + m8 a * s) (m5 a * c + m9 a * s)
         (m6 a * c + m10 a * s) (m7 a * c + m11 a * s)
         (m8 a * c - m4 a * s) (m9 a * c - m5 a * s)
         (m10 a * c - m6 a * s) (m11 a * c - m7 a * s)
         (m12 a) (m13 a) (m14 a) (m15 a).

Definition rotateY (a : Mat4) (rad : R) : Mat4 :=
  let s := sin rad in let c := cos rad in
  mkMat4 (m0 a * c - m8 a * s) (m1 a * c - m9 a * s)
         (m2 a * c - m10 a * s) (m3 a * c - m11 a * s)
         (m4 a) (m5 a) (m6 a) (m7 a)
         (m0 a * s + m8 a * c) (m1 a * s + m9 a * c)
         (m2 a * s + m10 a * c) (m3 a * s + m11 a * c)
         (m12 a) (m13 a) (m14 a) (m15 a).

Definition EPSILON : R := (1 / 1000000).

(** Rotation by [rad] about [axis]; [null] when the axis is shorter than
    [EPSILON]. *)
Definition fromRotation (rad : R) (axis : Vec3) : option Mat4 :=
  let len := sqrt (v0 axis * v0 axis + v1 axis * v1 axis + v2 axis * v2 axis) in
  if Rlt_dec len EPSILON then None
  else
    let len' := 1 / len in
    let x := v0 axis * len' in
    let y := v1 axis * len' in
    let z := v2 axis * len' in
    let s := sin rad in let c := cos rad in let t := 1 - c in
    Some (mkMat4 (x * x * t + c) (y * x * t + z * s) (z * x * t - y * s) 0
                 (x * y * t - z * s) (y * y * t + c) (z * y * t + x * s) 0
                 (x * z * t + y * s) (y * z * t - x * s) (z * z * t + c) 0
                 0 0 0 1).

(** [mat4.multiply(out, a, b)] (also [mat4.mul]): the product [a * b]. *)
Definition multiply (a b : Mat4) : Mat4 :=
  mkMat4
    (m0 b * m0 a + m1 b * m4 a + m2 b * m8 a + m3 b * m12 a)
    (m0 b * m1 a + m1 b * m5 a + m2 b * m9 a + m3 b * m13 a)
    (m0 b * m2 a + m1 b * m6 a + m2 b * m10 a + m3 b * m14 a)
    (m0 b * m3 a + m1 b * m7 a + m2 b * m11 a + m3 b * m15 a)
    (m4 b * m0 a + m5 b * m4 a + m6 b * m8 a + m7 b * m12 a)
    (m4 b * m1 a + m5 b * m5 a + m6 b * m9 a + m7 b * m13 a)
    (m4 b * m2 a + m5 b * m6 a + m6 b * m10 a + m7 b * m14 a)
    (m4 b * m3 a + m5 b * m7 a + m6 b * m11 a + m7 b * m15 a)
    (m8 b * m0 a + m9 b * m4 a + m10 b * m8 a + m11 b * m12 a)
    (m8 b * m1 a + m9 b * m5 a + m10 b * m9 a + m11 b * m13 a)
    (m8 b * m2 a + m9 b * m6 a + m10 b * m10 a + m11 b * m14 a)
    (m8 b * m3 a + m9 b * m7 a + m10 b * m11 a + m11 b * m15 a)
    (m12 b * m0 a + m13 b * m4 a + m14 b * m8 a + m15 b * m12 a)
    (m12 b * m1 a + m13 b * m5 a + m14 b * m9 a + m15 b * m13 a)
    (m12 b * m2 a + m13 b * m6 a + m14 b * m10 a + m15 b * m14 a)
    (m12 b * m3 a + m13 b * m7 a + m14 b * m11 a + m15 b * m15 a).

Definition mul := multiply.

End mat4.

(** ** Helpers of [util/util.js] and [style-spec/util/interpolate.js] *)

(** Modelled from the spec: [degToRad] of [util/util.js] (imported by this file); degrees to radians. *)
Definition degToRad (a : R) : R := a * PI / 180.

(** Modelled from the spec: [clamp] of [util/util.js] (imported by this file); [n] limited to the range from [lo] to [hi]. *)
Definition clamp (n lo hi : R) : R := Rmin hi (Rmax lo n).

(** Modelled from the spec: [smoothstep] of [util/util.js] (imported by this
    file); the cubic Hermite ramp from [0] at [e0] to [1] at [e1]. *)
Definition smoothstep (e0 e1 x : R) : R :=
  let t := clamp ((x - e0) / (e1 - e0)) 0 1 in
  t * t * (3 - 2 * t).

(** Modelled from the spec: [number] of [style-spec/util/interpolate.js] (imported
    by this file); linear interpolation by the factor [t]. *)
Definition interpolate (a b t : R) : R := a * (1 - t) + b * t.

(** Modelled from the spec: [array] of [style-spec/util/interpolate.js] (imported
    by this file); [interpolate] on every component, into a
    fresh array. *)
Definition interpolateArray (from to : Vec3) (t : R) : Vec3 :=
  mkVec3 (interpolate (v0 from) (v0 to) t)
         (interpolate (v1 from) (v1 to) t)
         (interpolate (v2 from) (v2 to) t).

(** ** Value types of the collaborators *)

Module LngLat.
Record t : Type := mk { lng : R; lat : R }.
End LngLat.

Module LngLatBounds.
Record t : Type := mk { _sw : LngLat.t; _ne : LngLat.t }.

Definition getWest (b : t) : R := LngLat.lng (_sw b).
Definition getSouth (b : t) : R := LngLat.lat (_sw b).
Definition getEast (b : t) : R := LngLat.lng (_ne b).
Definition getNorth (b : t) : R := LngLat.lat (_ne b).

Definition getCenter (b : t) : LngLat.t :=
  LngLat.mk ((LngLat.lng (_sw b) + LngLat.lng (_ne b)) / 2)
            ((LngLat.lat (_sw b) + LngLat.lat (_ne b)) / 2).

(** Modelled from the spec: [contains] of [geo/lng_lat_bounds.js] (imported
    by this file); whether the geographic rectangle contains a point. *)
Definition contains (b : t) (p : LngLat.t) : bool :=
  (if Rle_dec (getSouth b) (LngLat.lat p) then true else false) &&
  (if Rle_dec (LngLat.lat p) (getNorth b) then true else false) &&
  (if Rle_dec (getWest b) (LngLat.lng p) then true else false) &&
  (if Rle_dec (LngLat.lng p) (getEast b) then true else false).
End LngLatBounds.

Module Point.
Record t : Type := mk { x : R; y : R }.
End Point.

Module CanonicalTileID.
Record t : Type := mk { z : Z; x : Z; y : Z }.
End CanonicalTileID.

Module Aabb.
Record t : Type := mk { min : Vec3; max : Vec3 }.

(** Modelled from the spec: [getCorners] of [util/primitives.js] (imported
    by this file); the eight corners of the box. *)
Definition getCorners (b : t) : list Vec3 :=
  let mn := min b in
  let mx := max b in
  [ mkVec3 (v0 mn) (v1 mn) (v2 mn); mkVec3 (v0 mx) (v1 mn) (v2 mn);
    mkVec3 (v0 mx) (v1 mx) (v2 mn); mkVec3 (v0 mn) (v1 mx) (v2 mn);
    mkVec3 (v0 mn) (v1 mn) (v2 mx); mkVec3 (v0 mx) (v1 mn) (v2 mx);
    mkVec3 (v0 mx) (v1 mx) (v2 mx); mkVec3 (v0 mn) (v1 mx) (v2 mx) ].

(** The point [p] lies in the box, bounds included. *)
Definition contains (b : t) (p : Vec3) : Prop :=
  forall d : Dim, (min b).[d] <= p.[d] <= (max b).[d].
End Aabb.

(** The camera and view state.  Only the members read by this file are
    kept; [center] is the getter of [_center]. *)
Module Transform.
Record t : Type := mk {
  worldSize : R;
  zoom : R;
  _center : LngLat.t;
  point : Point.t;
  globeMatrix : Mat4;
  _pixelsPerMercatorPixel : R;
  angle : R;
  _pitch : R;
  cameraToCenterDistance : R;
  pixelsPerMeter : R }.

Definition center (tr : t) : LngLat.t := _center tr.
End Transform.

(** What [globe_util.js] imports from [geo/mercator_coordinate.js] and
    [data/extent.js].  Neither file belongs to the verified source: the constants and the
    planar-coordinate functions are parameters of the development. *)
Class Imports : Type := {
  EXTENT : R;
  MAX_MERCATOR_LATITUDE : R;
  lngFromMercatorX : R -> R;
  latFromMercatorY : R -> R;
  mercatorXfromLng : R -> R;
  mercatorYfromLat : R -> R;
  mercatorZfromAltitude : R -> R -> R }.

(** ** Arcs and their extrema *)

Module Arc.
Record t : Type := mk { a : Vec3; b : Vec3; center : Vec3; angle : R }.

(** The constructor [new Arc(p0, p1, center)]. *)
Definition new (p0 p1 center : Vec3) : t :=
  let a := vec3.sub p0 center in
  let b := vec3.sub p1 center in
  let an := vec3.normalize a in
  let bn := vec3.normalize b in
  mk a b center (acos (vec3.dot an bn)).
End Arc.

Definition slerp (a b angle t : R) : R :=
  let sina := sin angle in
  a * (sin ((1 - t) * angle) / sina) + b * (sin (t * angle) / sina).

(** The parameter [t] that [localExtremum] computes for an arc of nonzero
    angle. *)
Definition localExtremum_t (arc : Arc.t) (dim : Dim) : R :=
  if Req_dec_T (Arc.a arc).[dim] 0 then
    (1 / Arc.angle arc) * (1 / 2) * PI
  else
    1 / Arc.angle arc *
    atan ((Arc.b arc).[dim] / (Arc.a arc).[dim] / sin (Arc.angle arc)
          - 1 / tan (Arc.angle arc)).

Definition localExtremum (arc : Arc.t) (dim : Dim) : option R :=
  if Req_dec_T (Arc.angle arc) 0 then None
  else
    let t := localExtremum_t arc dim in
    if Rlt_dec t 0 then None
    else if Rgt_dec t 1 then None
    else Some (slerp (Arc.a arc).[dim] (Arc.b arc).[dim] (Arc.angle arc)
                     (clamp t 0 1)
               + (Arc.center arc).[dim]).

(** ** Exceptions *)

Inductive error : Type :=
| AssertionError (message : string)
| TypeError.

Inductive result (A : Type) : Type :=
| Ok (value : A)
| Throw (e : error).
Arguments Ok {A} value.
Arguments Throw {A} e.

Definition bind {A B : Type} (r : result A) (k : A -> result B) : result B :=
  match r with
  | Ok v => k v
  | Throw e => Throw e
  end.

Notation "'let*' x ':=' r 'in' k" := (bind r (fun x => k))
  (at level 10, x pattern, r at level 100, k at level 200).

(** [assert(cond, message)]. *)
Definition assert (cond : bool) (message : string) : result unit :=
  if cond then Ok tt else Throw (AssertionError message).

Definition Rleb (a b : R) : bool := if Rle_dec a b then true else false.
Definition Rgeb (a b : R) : bool := if Rge_dec a b then true else false.


(** The local variables of [aabbForTileOnGlobe] on the path of a tile with
    [z > 1] that does not contain the map center. *)
Module Frame.
Record t : Type := mk {
  corners : list Vec3;
  cornerMin : Vec3;
  cornerMax : Vec3;
  camX : R;
  camY : R;
  closestArcIdx : nat;
  arcA : Vec3;
  arcB : Vec3;
  closestArc : Arc.t;
  arcBounds : Vec3 }.
End Frame.


(** ** Loops, struct arrays and buffers *)

(** The values of the counter in [for (let i = 0; i < n; i++)]. *)
Definition countBelow (n : R) : list Z :=
  map Z.of_nat (seq 0 (Z.to_nat (Zceil n))).

(** The values of the counter in [for (let i = 0; i <= n; i++)]. *)
Definition countThrough (n : R) : list Z :=
  map Z.of_nat (seq 0 (Z.to_nat (Zfloor n + 1))).

(** A struct array ([PosArray], [TriangleIndexArray], [LineIndexArray],
    [GlobeVertexArray]) holds the tuples that were appended to it, in
    their order. *)
Definition StructArray : Type := list (list R).

Definition emplaceBack (arr : StructArray) (v : list R) : StructArray :=
  arr ++ [v].

(** A vertex or index buffer is modelled by the struct array that it was
    created from. *)
Definition VertexBuffer : Type := StructArray.
Definition IndexBuffer : Type := StructArray.

Module SegmentVector.

(** Modelled from the spec: the draw range of [data/segment.js] (imported by
    this file), a record of the four arguments of [simpleSegment]: where
    the vertices and the primitives of the range start and how many of
    each there are. *)
Record t : Type := simpleSegment {
  vertexOffset : R;
  primitiveOffset : R;
  vertexLength : R;
  primitiveLength : R }.

End SegmentVector.

Module UnwrappedTileID.

Record t : Type := mk { wrap : R; canonical : CanonicalTileID.t }.

End UnwrappedTileID.

(** The fields of the class [GlobeSharedBuffers]; the two wireframe fields
    are [undefined] until [getWirefameBuffers] is first called. *)
Module GlobeSharedBuffers.

Record t : Type := mk {
  _poleNorthVertexBuffer : VertexBuffer;
  _poleSouthVertexBuffer : VertexBuffer;
  _poleIndexBuffer : IndexBuffer;
  _poleSegments : list SegmentVector.t;
  _gridBuffer : VertexBuffer;
  _gridIndexBuffer : IndexBuffer;
  _gridSegments : list SegmentVector.t;
  _wireframeIndexBuffer : option IndexBuffer;
  _wireframeSegments : option (list SegmentVector.t) }.

End GlobeSharedBuffers.
Section GlobeUtil.

Context `{Imports}.

(** ** Constants *)

Definition GLOBE_ZOOM_THRESHOLD_MIN : R := 5.
Definition GLOBE_ZOOM_THRESHOLD_MAX : R := 6.

Definition GLOBE_RADIUS : R := EXTENT / PI / 2.
Definition GLOBE_METERS_TO_ECEF : R :=
  mercatorZfromAltitude 1 0 * 2 * GLOBE_RADIUS * PI.
Definition GLOBE_NORMALIZATION_BIT_RANGE : Z := 15.
Definition GLOBE_NORMALIZATION_MASK : Z :=
  (shl1 (GLOBE_NORMALIZATION_BIT_RANGE - 1) - 1)%Z.
Definition TILE_SIZE : R := 512.

Definition GLOBE_MIN : R := - GLOBE_RADIUS.
Definition GLOBE_MAX : R := GLOBE_RADIUS.

Definition GLOBE_LOW_ZOOM_TILE_AABBS : list Aabb.t :=
  [ (* z == 0 *)
    Aabb.mk (mkVec3 GLOBE_MIN GLOBE_MIN GLOBE_MIN) (mkVec3 GLOBE_MAX GLOBE_MAX GLOBE_MAX);
    (* z == 1 *)
    Aabb.mk (mkVec3 GLOBE_MIN GLOBE_MIN GLOBE_MIN) (mkVec3 0 0 GLOBE_MAX);
    Aabb.mk (mkVec3 0 GLOBE_MIN GLOBE_MIN) (mkVec3 GLOBE_MAX 0 GLOBE_MAX);
    Aabb.mk (mkVec3 GLOBE_MIN 0 GLOBE_MIN) (mkVec3 0 GLOBE_MAX GLOBE_MAX);
    Aabb.mk (mkVec3 0 0 GLOBE_MIN) (mkVec3 GLOBE_MAX GLOBE_MAX GLOBE_MAX) ].

(** ** Geographic coordinates to ECEF *)

(** [radius] defaults to [GLOBE_RADIUS] when it is left out. *)
Definition csLatLngToECEF (cosLat sinLat lng : R) (radius : option R) : Vec3 :=
  let radius := match radius with Some r => r | None => GLOBE_RADIUS end in
  let lng := degToRad lng in
  let sx := cosLat * sin lng * radius in
  let sy := - sinLat * radius in
  let sz := cosLat * cos lng * radius in
  mkVec3 sx sy sz.

Definition latLngToECEF (lat lng : R) (radius : option R) : result Vec3 :=
  let* _ := assert (Rleb lat 90 && Rgeb lat (-90))
                   "Lattitude must be between -90 and 90" in
  Ok (csLatLngToECEF (cos (degToRad lat)) (sin (degToRad lat)) lng radius).

Definition tileCornersToBounds (id : CanonicalTileID.t) : LngLatBounds.t :=
  let x := IZR (CanonicalTileID.x id) in
  let y := IZR (CanonicalTileID.y id) in
  let s := 1 / IZR (shl1 (CanonicalTileID.z id)) in
  let sw := LngLat.mk (lngFromMercatorX (x * s)) (latFromMercatorY ((y + 1) * s)) in
  let ne := LngLat.mk (lngFromMercatorX ((x + 1) * s)) (latFromMercatorY (y * s)) in
  LngLatBounds.mk sw ne.

Definition boundsToECEF (bounds : LngLatBounds.t) : list Vec3 :=
  let ny := degToRad (LngLatBounds.getNorth bounds) in
  let sy := degToRad (LngLatBounds.getSouth bounds) in
  let cosN := cos ny in
  let cosS := cos sy in
  let sinN := sin ny in
  let sinS := sin sy in
  let w := LngLatBounds.getWest bounds in
  let e := LngLatBounds.getEast bounds in
  [ csLatLngToECEF cosS sinS w None;
    csLatLngToECEF cosS sinS e None;
    csLatLngToECEF cosN sinN e None;
    csLatLngToECEF cosN sinN w None ].

(** ** Bounds of a tile in the globe's own frame *)

(** The loop of [globeTileBounds] over the corner points. *)
Fixpoint foldBounds (bMin bMax : Vec3) (corners : list Vec3) : Vec3 * Vec3 :=
  match corners with
  | [] => (bMin, bMax)
  | p :: rest =>
      foldBounds
        (mkVec3 (Rmin (v0 bMin) (v0 p)) (Rmin (v1 bMin) (v1 p)) (Rmin (v2 bMin) (v2 p)))
        (mkVec3 (Rmax (v0 bMax) (v0 p)) (Rmax (v1 bMax) (v1 p)) (Rmax (v2 bMax) (v2 p)))
        rest
  end.

(** An array read [arr[i]] at an integer index: [None] is [undefined]. *)
Definition lookupZ {A : Type} (arr : list A) (i : Z) : option A :=
  if (i <? 0)%Z then None else nth_error arr (Z.to_nat i).

(** [None] is the [undefined] read from the table of low-zoom boxes at an
    index outside it. *)
Definition globeTileBounds (id : CanonicalTileID.t) : option Aabb.t :=
  if (CanonicalTileID.z id <=? 1)%Z then
    lookupZ GLOBE_LOW_ZOOM_TILE_AABBS
      (CanonicalTileID.z id + CanonicalTileID.y id * 2 + CanonicalTileID.x id)
  else
    let bounds := tileCornersToBounds id in
    let corners := boundsToECEF bounds in
    let bMin := mkVec3 GLOBE_MAX GLOBE_MAX GLOBE_MAX in
    let bMax := mkVec3 GLOBE_MIN GLOBE_MIN GLOBE_MIN in
    let folded := foldBounds bMin bMax corners in
    Some (Aabb.mk (fst folded) (snd folded)).

(** ** Bounding box of a tile on the globe, in world space *)

(** [updateCorners] overwrites every corner with its transformed and scaled
    position and folds it into [cornerMin] and [cornerMax]; the three
    updated arrays are returned. *)
Fixpoint updateCorners (cornerMin cornerMax : Vec3) (corners : list Vec3)
    (globeMatrix : Mat4) (scale : R) : Vec3 * Vec3 * list Vec3 :=
  match corners with
  | [] => (cornerMin, cornerMax, [])
  | corner :: rest =>
      let corner := vec3.transformMat4 corner globeMatrix in
      let corner := vec3.scale corner scale in
      let cornerMin := vec3.min cornerMin corner in
      let cornerMax := vec3.max cornerMax corner in
      let updated := updateCorners cornerMin cornerMax rest globeMatrix scale in
      (fst (fst updated), snd (fst updated), corner :: snd updated)
  end.

Definition mercatorTileCornersInCameraSpace (id : CanonicalTileID.t)
    (numTiles mercatorScale camX camY : R) : list Vec3 :=
  let tileScale := 1 / IZR (shl1 (CanonicalTileID.z id)) in
  let w := IZR (CanonicalTileID.x id) * tileScale in
  let e := w + tileScale in
  let n := IZR (CanonicalTileID.y id) * tileScale in
  let s := n + tileScale in
  (* Ensure that the tile viewed is the nearest when across the antimeridian *)
  let tileCenterXFromCamera := (w + e) / 2 - camX in
  let wrap :=
    if Rgt_dec tileCenterXFromCamera (1 / 2) then -1
    else if Rlt_dec tileCenterXFromCamera (- (1 / 2)) then 1
    else 0 in
  let camX := camX * mercatorScale in
  let camY := camY * mercatorScale in
  let w := ((w + wrap) * numTiles - camX) * mercatorScale + camX in
  let e := ((e + wrap) * numTiles - camX) * mercatorScale + camX in
  let n := (n * numTiles - camY) * mercatorScale + camY in
  let s := (s * numTiles - camY) * mercatorScale + camY in
  [ mkVec3 w s 0; mkVec3 e s 0; mkVec3 w n 0; mkVec3 e n 0 ].

(** [arr[i]] on an array of vectors; every index used below is in range. *)
Definition at_index (arr : list Vec3) (i : nat) : Vec3 :=
  nth i arr (mkVec3 0 0 0).

(** The frame once [arcBounds] has been initialised. *)
Definition closestArcFrame (tr : Transform.t) (numTiles : R)
    (tileId : CanonicalTileID.t) : Frame.t :=
  let scale := numTiles / Transform.worldSize tr in
  let mx := MAX_VALUE in
  let cornerMax := mkVec3 (- mx) (- mx) (- mx) in
  let cornerMin := mkVec3 mx mx mx in
  let m := Transform.globeMatrix tr in
  let bounds := tileCornersToBounds tileId in
  let corners := boundsToECEF bounds in
  let updated := updateCorners cornerMin cornerMax corners m scale in
  let cornerMin := fst (fst updated) in
  let cornerMax := snd (fst updated) in
  let corners := snd updated in
  let arcCenter := mkVec3 (m12 m * scale) (m13 m * scale) (m14 m * scale) in
  let tileCenter := LngLatBounds.getCenter bounds in
  let centerLat := clamp (LngLat.lat (Transform.center tr))
                         (- MAX_MERCATOR_LATITUDE) MAX_MERCATOR_LATITUDE in
  let tileCenterLat := clamp (LngLat.lat tileCenter)
                             (- MAX_MERCATOR_LATITUDE) MAX_MERCATOR_LATITUDE in
  let camX := mercatorXfromLng (LngLat.lng (Transform.center tr)) in
  let camY := mercatorYfromLat centerLat in
  let dx := camX - mercatorXfromLng (LngLat.lng tileCenter) in
  let dy := camY - mercatorYfromLat tileCenterLat in
  (* Shortest distance might be across the antimeridian *)
  let dx :=
    if Rgt_dec dx (1 / 2) then dx - 1
    else if Rlt_dec dx (- (1 / 2)) then dx + 1
    else dx in
  let closestArcIdx :=
    if Rgt_dec (Rabs dx) (Rabs dy) then (if Rge_dec dx 0 then 1 else 3)%nat
    else (if Rge_dec dy 0 then 0 else 2)%nat in
  let arcCenter :=
    if Rgt_dec (Rabs dx) (Rabs dy) then arcCenter
    else
      let yAxis := mkVec3 (m4 m * scale) (m5 m * scale) (m6 m * scale) in
      let shift :=
        - sin (degToRad (if Rge_dec dy 0 then LngLatBounds.getSouth bounds
                         else LngLatBounds.getNorth bounds)) * GLOBE_RADIUS in
      vec3.scaleAndAdd arcCenter yAxis shift in
  let arcA := at_index corners closestArcIdx in
  let arcB := at_index corners ((closestArcIdx + 1) mod 4) in
  let closestArc := Arc.new arcA arcB arcCenter in
  let arcBounds :=
    mkVec3 (opt_or (localExtremum closestArc DimX) (v0 arcA))
           (opt_or (localExtremum closestArc DimY) (v1 arcA))
           (opt_or (localExtremum closestArc DimZ) (v2 arcA)) in
  Frame.mk corners cornerMin cornerMax camX camY closestArcIdx arcA arcB
             closestArc arcBounds.

(** [globeToMercatorTransition]. *)
Definition globeToMercatorTransition (zoom : R) : R :=
  smoothstep GLOBE_ZOOM_THRESHOLD_MIN GLOBE_ZOOM_THRESHOLD_MAX zoom.

(** The frame after the block that runs during the transition to Mercator:
    [corners] and [arcBounds] are replaced, nothing else is written. *)
Definition transitionFrame (tr : Transform.t) (numTiles : R)
    (tileId : CanonicalTileID.t) (f : Frame.t) : Frame.t :=
  let phase := globeToMercatorTransition (Transform.zoom tr) in
  if Rgt_dec phase 0 then
    if Rlt_dec phase 1 then
      let mercatorCorners :=
        mercatorTileCornersInCameraSpace tileId numTiles
          (Transform._pixelsPerMercatorPixel tr) (Frame.camX f) (Frame.camY f) in
      let corners' :=
        map (fun i => interpolateArray (at_index (Frame.corners f) i)
                                       (at_index mercatorCorners i) phase)
            (seq 0 (List.length (Frame.corners f))) in
      (* Interpolate arc extremum toward the edge midpoint in Mercator *)
      let mercatorExtremum :=
        interpolateArray (at_index mercatorCorners (Frame.closestArcIdx f))
                         (at_index mercatorCorners ((Frame.closestArcIdx f + 1) mod 4))
                         (1 / 2) in
      let arcBounds' := interpolateArray (Frame.arcBounds f) mercatorExtremum phase in
      Frame.mk corners' (Frame.cornerMin f) (Frame.cornerMax f) (Frame.camX f) (Frame.camY f)
                 (Frame.closestArcIdx f) (Frame.arcA f) (Frame.arcB f) (Frame.closestArc f) arcBounds'
    else f
  else f.

(** The last statements of [aabbForTileOnGlobe]: the height of the box is
    reduced to that of the closest arc and [arcBounds] is folded in. *)
Definition finishFrame (f : Frame.t) : Frame.t :=
  let cornerMin := mkVec3 (v0 (Frame.cornerMin f)) (v1 (Frame.cornerMin f))
                          (Rmin (v2 (Frame.arcA f)) (v2 (Frame.arcB f))) in
  let cornerMin := vec3.min cornerMin (Frame.arcBounds f) in
  let cornerMax := vec3.max (Frame.cornerMax f) (Frame.arcBounds f) in
  Frame.mk (Frame.corners f) cornerMin cornerMax (Frame.camX f) (Frame.camY f)
             (Frame.closestArcIdx f) (Frame.arcA f) (Frame.arcB f) (Frame.closestArc f) (Frame.arcBounds f).

(** The frame of [aabbForTileOnGlobe] at its last [return]. *)
Definition returnFrame (tr : Transform.t) (numTiles : R)
    (tileId : CanonicalTileID.t) : Frame.t :=
  finishFrame (transitionFrame tr numTiles tileId
                 (closestArcFrame tr numTiles tileId)).

Definition aabbForTileOnGlobe (tr : Transform.t) (numTiles : R)
    (tileId : CanonicalTileID.t) : result Aabb.t :=
  let scale := numTiles / Transform.worldSize tr in
  let mx := MAX_VALUE in
  let cornerMax := mkVec3 (- mx) (- mx) (- mx) in
  let cornerMin := mkVec3 mx mx mx in
  let m := Transform.globeMatrix tr in
  if (CanonicalTileID.z tileId <=? 1)%Z then
    (* Compute minimum bounding box that fully encapsulates
       transformed corners of the local aabb *)
    match globeTileBounds tileId with
    | None => Throw TypeError
    | Some aabb =>
        let updated :=
          updateCorners cornerMin cornerMax (Aabb.getCorners aabb) m scale in
        Ok (Aabb.mk (fst (fst updated)) (snd (fst updated)))
    end
  else
    let bounds := tileCornersToBounds tileId in
    let corners := boundsToECEF bounds in
    let updated := updateCorners cornerMin cornerMax corners m scale in
    let cornerMin := fst (fst updated) in
    let cornerMax := snd (fst updated) in
    let corners := snd updated in
    if LngLatBounds.contains bounds (Transform.center tr) then
      (* Extend the aabb by encapsulating the center point *)
      let cornerMax := mkVec3 (v0 cornerMax) (v1 cornerMax) 0 in
      let point := Transform.point tr in
      let center := mkVec3 (Point.x point * scale) (Point.y point * scale) 0 in
      let cornerMin := vec3.min cornerMin center in
      let cornerMax := vec3.max cornerMax center in
      Ok (Aabb.mk cornerMin cornerMax)
    else
      let f := returnFrame tr numTiles tileId in
      Ok (Aabb.mk (Frame.cornerMin f) (Frame.cornerMax f)).

(** ** Normalization of ECEF positions *)

Definition globeECEFNormalizationScale (bounds : Aabb.t) : R :=
  let min := Aabb.min bounds in
  let max := Aabb.max bounds in
  IZR GLOBE_NORMALIZATION_MASK /
  Rmax (Rmax (v0 max - v0 min) (v1 max - v1 min)) (v2 max - v2 min).

(** [tempMatrix] is one typed array shared by [globeNormalizeECEF] and
    [globeDenormalizeECEF]: each call overwrites it and returns a reference
    to it.  The store holds its sixteen numbers; [tempMatrix] is the only
    reference there is. *)
Definition Store : Type := Mat4.

Inductive Float64ArrayRef : Type := tempMatrix.

Definition deref (st : Store) (r : Float64ArrayRef) : Mat4 :=
  match r with tempMatrix => st end.

Definition globeNormalizeECEF (bounds : Aabb.t) (st : Store)
    : Float64ArrayRef * Store :=
  let scale := globeECEFNormalizationScale bounds in
  let m := mat4.fromScaling (mkVec3 scale scale scale) in
  (tempMatrix, mat4.translate m (vec3.negate (Aabb.min bounds))).

Definition globeDenormalizeECEF (bounds : Aabb.t) (st : Store)
    : Float64ArrayRef * Store :=
  let m := mat4.fromTranslation (Aabb.min bounds) in
  let scale := 1 / globeECEFNormalizationScale bounds in
  (tempMatrix, mat4.scale m (mkVec3 scale scale scale)).

(** ** The globe matrix *)

Definition globeECEFUnitsToPixelScale (worldSize : R) : R :=
  let localRadius := EXTENT / (2 * PI) in
  let wsRadius := worldSize / (2 * PI) in
  wsRadius / localRadius.

Definition calculateGlobePosMatrix (x y worldSize lng lat : R) : Mat4 :=
  (* transform the globe from reference coordinate space to world space *)
  let scale := globeECEFUnitsToPixelScale worldSize in
  let offset := mkVec3 x y (- worldSize / (2 * PI)) in
  let m := mat4.identity in
  let m := mat4.translate m offset in
  let m := mat4.scale m (mkVec3 scale scale scale) in
  let m := mat4.rotateX m (degToRad (- lat)) in
  let m := mat4.rotateY m (degToRad (- lng)) in
  m.

Definition calculateGlobeMatrix (tr : Transform.t) : Mat4 :=
  let x := Point.x (Transform.point tr) in
  let y := Point.y (Transform.point tr) in
  let lng := LngLat.lng (Transform._center tr) in
  let lat := LngLat.lat (Transform._center tr) in
  calculateGlobePosMatrix x y (Transform.worldSize tr) lng lat.

(** ** Tilt and occlusion *)

Definition cameraPositionInECEF (tr : Transform.t) : result Vec3 :=
  let* centerToPivot :=
    latLngToECEF (LngLat.lat (Transform._center tr))
                 (LngLat.lng (Transform._center tr)) None in
  (* Set axis to East-West line tangent to sphere at pivot *)
  let south := vec3.fromValues 0 1 0 in
  let axis := vec3.cross south centerToPivot in
  (* Rotate axis around pivot by bearing; a [null] rotation cannot be read *)
  match mat4.fromRotation (- Transform.angle tr) centerToPivot with
  | None => Throw TypeError
  | Some rotation =>
      let axis := vec3.transformMat4 axis rotation in
      (* Rotate camera around axis by pitch; [rotation] keeps its value
         when the axis is too short *)
      let rotation :=
        match mat4.fromRotation (- Transform._pitch tr) axis with
        | Some r => r
        | None => rotation
        end in
      let pivotToCamera := vec3.normalize centerToPivot in
      let pivotToCamera :=
        vec3.scale pivotToCamera
          (Transform.cameraToCenterDistance tr / Transform.pixelsPerMeter tr
           * GLOBE_METERS_TO_ECEF) in
      let pivotToCamera := vec3.transformMat4 pivotToCamera rotation in
      Ok (vec3.add centerToPivot pivotToCamera)
  end.

Definition globeTiltAtLngLat (tr : Transform.t) (lngLat : LngLat.t) : result R :=
  let* centerToPoint :=
    latLngToECEF (LngLat.lat lngLat) (LngLat.lng lngLat) None in
  let* centerToCamera := cameraPositionInECEF tr in
  let pointToCamera := vec3.subtract centerToCamera centerToPoint in
  Ok (vec3.angle pointToCamera centerToPoint).

Definition isLngLatBehindGlobe (tr : Transform.t) (lngLat : LngLat.t)
    : result bool :=
  let* tilt := globeTiltAtLngLat tr lngLat in
  Ok (if Rgt_dec tilt (PI / 2 * (101 / 100)) then true else false).

(** ** Tile-local coordinates, tile matrices and levels of detail *)

Definition GLOBE_VERTEX_GRID_SIZE : R := 64.
Definition GLOBE_LATITUDINAL_GRID_LOD_TABLE : list R :=
  [ GLOBE_VERTEX_GRID_SIZE; GLOBE_VERTEX_GRID_SIZE / 2; GLOBE_VERTEX_GRID_SIZE / 4 ].

Definition tileCoordToECEF (x y : R) (id : CanonicalTileID.t) (radius : option R)
    : result Vec3 :=
  let tileCount := IZR (shl1 (CanonicalTileID.z id)) in
  let mercatorX := (x / EXTENT + IZR (CanonicalTileID.x id)) / tileCount in
  let mercatorY := (y / EXTENT + IZR (CanonicalTileID.y id)) / tileCount in
  let lat := latFromMercatorY mercatorY in
  let lng := lngFromMercatorX mercatorX in
  let* pos := latLngToECEF lat lng radius in
  Ok pos.

(** Reading [min] of an [undefined] box throws. *)
Definition globeMatrixForTile (id : CanonicalTileID.t) (globeMatrix : Mat4)
    (st : Store) : result (Mat4 * Store) :=
  match globeTileBounds id with
  | None => Throw TypeError
  | Some bounds =>
      let (decode, st) := globeDenormalizeECEF bounds st in
      Ok (mat4.mul globeMatrix (deref st decode), st)
  end.

Definition globePixelsToTileUnits (zoom : R) (id : CanonicalTileID.t) : result R :=
  let ecefPerPixel := EXTENT / (TILE_SIZE * Rpower 2 zoom) in
  match globeTileBounds id with
  | None => Throw TypeError
  | Some bounds =>
      let normCoeff := globeECEFNormalizationScale bounds in
      Ok (ecefPerPixel * normCoeff)
  end.

Definition getLatitudinalLod (lat : R) : Z :=
  let UPPER_LATITUDE := MAX_MERCATOR_LATITUDE - 5 in
  let lat := clamp lat (- UPPER_LATITUDE) UPPER_LATITUDE / UPPER_LATITUDE * 90 in
  let t := Rabs (sin (degToRad lat)) ^ 3 in
  let lod :=
    Math_round (t * (INR (List.length GLOBE_LATITUDINAL_GRID_LOD_TABLE) - 1)) in
  lod.

(** ** The origin of a tile and the grid matrix *)

(** Reading [min] of an [undefined] box throws. *)
Definition globeECEFOrigin (tileMatrix : Mat4) (id : UnwrappedTileID.t)
    (st : Store) : result (Vec3 * Store) :=
  let origin := mkVec3 0 0 0 in
  match globeTileBounds (UnwrappedTileID.canonical id) with
  | None => Throw TypeError
  | Some bounds =>
      let (normalizationMatrix, st) := globeNormalizeECEF bounds st in
      let origin := vec3.transformMat4 origin (deref st normalizationMatrix) in
      let origin := vec3.transformMat4 origin tileMatrix in
      Ok (origin, st)
  end.

(** An entry [None] of the result is the [NaN] of a division by the
    [undefined] read from the table at an index outside it. *)
Definition getGridMatrix (id : CanonicalTileID.t) (bounds : LngLatBounds.t)
    (latitudinalLod : Z) : list (option R) :=
  let n := LngLatBounds.getNorth bounds in
  let s := LngLatBounds.getSouth bounds in
  let w := LngLatBounds.getWest bounds in
  let e := LngLatBounds.getEast bounds in
  let S := 1 / GLOBE_VERTEX_GRID_SIZE in
  let x := (e - w) * S in
  let latitudinalSubdivs := lookupZ GLOBE_LATITUDINAL_GRID_LOD_TABLE latitudinalLod in
  let y := match latitudinalSubdivs with
           | Some subdivs => Some ((s - n) / subdivs)
           | None => None
           end in
  let tileZoom := IZR (shl1 (CanonicalTileID.z id)) in
  [ Some 0; Some x; Some tileZoom; y; Some 0; Some (IZR (CanonicalTileID.y id));
    Some n; Some w; Some S ].

(** ** The shared buffers *)

Definition POLE_RAD : R := degToRad 85.
Definition POLE_COS : R := cos POLE_RAD.
Definition POLE_SIN : R := sin POLE_RAD.

(** The grid vertices, the grid indices and the grid segments that
    [_createGrid] stores. *)
Definition _createGrid : VertexBuffer * IndexBuffer * list SegmentVector.t :=
  let quadExt := GLOBE_VERTEX_GRID_SIZE in
  let vertexExt := quadExt + 1 in
  let gridVertices :=
    fold_left (fun gridVertices j =>
      fold_left (fun gridVertices i => emplaceBack gridVertices [IZR i; IZR j])
                (countBelow vertexExt) gridVertices)
      (countBelow vertexExt) [] in
  let loop :=
    fold_left (fun (state : StructArray * list SegmentVector.t * R) latitudinalLod =>
      let gridIndices := fst (fst state) in
      let _gridSegments := snd (fst state) in
      let primitiveOffset := snd state in
      let gridIndices :=
        fold_left (fun gridIndices j =>
          fold_left (fun gridIndices i =>
            let index := IZR j * vertexExt + IZR i in
            let gridIndices :=
              emplaceBack gridIndices [index + 1; index; index + vertexExt] in
            emplaceBack gridIndices
                        [index + vertexExt; index + vertexExt + 1; index + 1])
            (countBelow quadExt) gridIndices)
          (countBelow latitudinalLod) gridIndices in
      let numVertices := (latitudinalLod + 1) * vertexExt in
      let numPrimitives := latitudinalLod * quadExt * 2 in
      (gridIndices,
       _gridSegments
         ++ [SegmentVector.simpleSegment 0 primitiveOffset numVertices numPrimitives],
       primitiveOffset + numPrimitives))
      GLOBE_LATITUDINAL_GRID_LOD_TABLE ([], [], 0) in
  (gridVertices, fst (fst loop), snd (fst loop)).

(** The pole indices, the vertices of the northern and of the southern
    pole and the pole segments that [_createPoles] stores. *)
Definition _createPoles
    : IndexBuffer * VertexBuffer * VertexBuffer * list SegmentVector.t :=
  let poleIndices :=
    fold_left (fun poleIndices i =>
                 emplaceBack poleIndices [0; IZR i + 1; IZR i + 2])
              (countThrough GLOBE_VERTEX_GRID_SIZE) [] in
  let polePrimitives := GLOBE_VERTEX_GRID_SIZE in
  let poleVertices := GLOBE_VERTEX_GRID_SIZE + 2 in
  let loop :=
    fold_left (fun (state : StructArray * StructArray * list SegmentVector.t * R) zoom =>
      let northVertices := fst (fst (fst state)) in
      let southVertices := snd (fst (fst state)) in
      let _poleSegments := snd (fst state) in
      let offset := snd state in
      let tiles := IZR (shl1 zoom) in
      let radius := tiles * TILE_SIZE / PI / 2 in
      let endAngle := 360 / tiles in
      (* place the tip *)
      let northVertices := emplaceBack northVertices [0; - radius; 0; 0; 0; 1 / 2; 0] in
      let southVertices := emplaceBack southVertices [0; - radius; 0; 0; 0; 1 / 2; 1] in
      let ring :=
        fold_left (fun (vertices : StructArray * StructArray) i =>
          let uvX := IZR i / GLOBE_VERTEX_GRID_SIZE in
          let angle := interpolate 0 endAngle uvX in
          let g := csLatLngToECEF POLE_COS POLE_SIN angle (Some radius) in
          (emplaceBack (fst vertices) [v0 g; v1 g; v2 g; 0; 0; uvX; 0],
           emplaceBack (snd vertices) [v0 g; v1 g; v2 g; 0; 0; uvX; 1]))
          (countThrough GLOBE_VERTEX_GRID_SIZE) (northVertices, southVertices) in
      (fst ring, snd ring,
       _poleSegments
         ++ [SegmentVector.simpleSegment offset 0 poleVertices polePrimitives],
       offset + poleVertices))
      (countBelow GLOBE_ZOOM_THRESHOLD_MIN) ([], [], [], 0) in
  (poleIndices, fst (fst (fst loop)), snd (fst (fst loop)), snd (fst loop)).

(** [new GlobeSharedBuffers(context)]: the grid, then the poles. *)
Definition newGlobeSharedBuffers : GlobeSharedBuffers.t :=
  let grid := _createGrid in
  let poles := _createPoles in
  GlobeSharedBuffers.mk
    (snd (fst (fst poles))) (snd (fst poles)) (fst (fst (fst poles))) (snd poles)
    (fst (fst grid)) (snd (fst grid)) (snd grid)
    None None.

Definition getGridBuffers (this : GlobeSharedBuffers.t) (latitudinalLod : Z)
    : VertexBuffer * IndexBuffer * option SegmentVector.t :=
  (GlobeSharedBuffers._gridBuffer this,
   GlobeSharedBuffers._gridIndexBuffer this,
   lookupZ (GlobeSharedBuffers._gridSegments this) latitudinalLod).

Definition getPoleBuffers (this : GlobeSharedBuffers.t) (z : Z)
    : VertexBuffer * VertexBuffer * IndexBuffer * option SegmentVector.t :=
  (GlobeSharedBuffers._poleNorthVertexBuffer this,
   GlobeSharedBuffers._poleSouthVertexBuffer this,
   GlobeSharedBuffers._poleIndexBuffer this,
   lookupZ (GlobeSharedBuffers._poleSegments this) z).

(** The wireframe indices and segments that [getWirefameBuffers] builds on
    its first call. *)
Definition wireframe : IndexBuffer * list SegmentVector.t :=
  let quadExt := GLOBE_VERTEX_GRID_SIZE in
  let vertexExt := quadExt + 1 in
  let loop :=
    fold_left (fun (state : StructArray * list SegmentVector.t * R) latitudinalLod =>
      let wireframeIndices := fst (fst state) in
      let _wireframeSegments := snd (fst state) in
      let primitiveOffset := snd state in
      let wireframeIndices :=
        fold_left (fun wireframeIndices j =>
          fold_left (fun wireframeIndices i =>
            let index := IZR j * vertexExt + IZR i in
            let wireframeIndices := emplaceBack wireframeIndices [index; index + 1] in
            let wireframeIndices :=
              emplaceBack wireframeIndices [index; index + vertexExt] in
            emplaceBack wireframeIndices [index; index + vertexExt + 1])
            (countBelow quadExt) wireframeIndices)
          (countBelow latitudinalLod) wireframeIndices in
      let numVertices := (latitudinalLod + 1) * vertexExt in
      let numPrimitives := latitudinalLod * quadExt * 3 in
      (wireframeIndices,
       _wireframeSegments
         ++ [SegmentVector.simpleSegment 0 primitiveOffset numVertices numPrimitives],
       primitiveOffset + numPrimitives))
      GLOBE_LATITUDINAL_GRID_LOD_TABLE ([], [], 0) in
  (fst (fst loop), snd (fst loop)).

(** The buffers are handed back with the object, whose wireframe fields the
    first call sets. *)
Definition getWirefameBuffers (this : GlobeSharedBuffers.t) (lod : Z)
    : (VertexBuffer * option IndexBuffer * option SegmentVector.t)
      * GlobeSharedBuffers.t :=
  let this :=
    match GlobeSharedBuffers._wireframeSegments this with
    | Some _ => this
    | None =>
        GlobeSharedBuffers.mk
          (GlobeSharedBuffers._poleNorthVertexBuffer this)
          (GlobeSharedBuffers._poleSouthVertexBuffer this)
          (GlobeSharedBuffers._poleIndexBuffer this)
          (GlobeSharedBuffers._poleSegments this)
          (GlobeSharedBuffers._gridBuffer this)
          (GlobeSharedBuffers._gridIndexBuffer this)
          (GlobeSharedBuffers._gridSegments this)
          (Some (fst wireframe))
          (Some (snd wireframe))
    end in
  ((GlobeSharedBuffers._gridBuffer this,
    GlobeSharedBuffers._wireframeIndexBuffer this,
    match GlobeSharedBuffers._wireframeSegments this with
    | Some segments => lookupZ segments lod
    | None => None
    end),
   this).

End GlobeUtil.

(** * Concrete inputs *)

(** The arc from [(1, 0, 0)] to [(3, 4, 0)] around the origin. *)
Definition arc_3_4 : Arc.t :=
  Arc.new (mkVec3 1 0 0) (mkVec3 3 4 0) (mkVec3 0 0 0).

(** The arc from [(sqrt 3, 1, 0)] to [(sqrt 3, -1, 0)] around the origin:
    a sixth of a circle of radius 2 that bulges to [x = 2]. *)
Definition arc_60 : Arc.t :=
  Arc.new (mkVec3 (sqrt 3) 1 0) (mkVec3 (sqrt 3) (-1) 0) (mkVec3 0 0 0).

(** Modelled from the spec: the planar-coordinate functions of
    [geo/mercator_coordinate.js] and the tile extent of [data/extent.js]
    (both imported by this file).  The planar coordinate is the normalized
    Web-Mercator projection of geographic space onto the unit square, cut
    at the maximum latitude of about 85.05 degrees; the tile extent is the
    512 of the radius [R = 512 / (2 PI)]. *)
Module WebMercator.

Definition mercatorXfromLng (lng : R) : R := (180 + lng) / 360.

Definition mercatorYfromLat (lat : R) : R :=
  (180 - (180 / PI * ln (tan (PI / 4 + lat * PI / 360)))) / 360.

Definition lngFromMercatorX (x : R) : R := x * 360 - 180.

Definition latFromMercatorY (y : R) : R :=
  let y2 := 180 - y * 360 in
  360 / PI * atan (exp (y2 * PI / 180)) - 90.

Definition earthRadius : R := 63710088 / 10.

Definition mercatorZfromAltitude (altitude lat : R) : R :=
  altitude / (2 * PI * earthRadius * cos (lat * PI / 180)).

Definition imports : Imports :=
  Build_Imports 512 (85051129 / 1000000)
                lngFromMercatorX latFromMercatorY
                mercatorXfromLng mercatorYfromLat mercatorZfromAltitude.

End WebMercator.

(** A camera over longitude 0 on the equator, halfway through the
    transition (zoom 5.5, [worldSize = 512 * 2 ^ 5.5]), with the globe
    matrix that [calculateGlobeMatrix] builds for it. *)
Definition equatorTransform `{Imports} : Transform.t :=
  let worldSize := 512 * 32 * sqrt 2 in
  let tr :=
    Transform.mk worldSize (11 / 2) (LngLat.mk 0 0)
                 (Point.mk (worldSize / 2) (worldSize / 2))
                 mat4.identity 1 0 0 1 1 in
  Transform.mk worldSize (11 / 2) (LngLat.mk 0 0)
               (Point.mk (worldSize / 2) (worldSize / 2))
               (calculateGlobeMatrix tr) 1 0 0 1 1.

(** The tile [2/3/1]: longitudes 90 to 180 east, latitudes 0 to about
    66.5 north. *)
Definition tile_2_3_1 : CanonicalTileID.t := CanonicalTileID.mk 2 3 1.

(** The tile [2/2/1]: longitudes 0 to 90 east, north of the equator. *)
Definition tile_2_2_1 : CanonicalTileID.t := CanonicalTileID.mk 2 2 1.

(** What the evaluation at [tile_2_3_1] under [equatorTransform] uses of
    the planar-coordinate functions: their values on the tile grid of
    zoom 2 and at the center of the map. *)
Definition planarFacts `{Imports} : Prop :=
  0 < EXTENT /\
  0 <= MAX_MERCATOR_LATITUDE /\
  lngFromMercatorX (3 / 4) = 90 /\
  lngFromMercatorX 1 = 180 /\
  latFromMercatorY (1 / 2) = 0 /\
  0 < latFromMercatorY (1 / 4) < 90 /\
  mercatorXfromLng 0 = 1 / 2 /\
  mercatorXfromLng 135 = 7 / 8 /\
  mercatorYfromLat 0 = 1 / 2 /\
  Rabs (1 / 2 - mercatorYfromLat
                  (clamp (latFromMercatorY (1 / 4) / 2)
                         (- MAX_MERCATOR_LATITUDE) MAX_MERCATOR_LATITUDE))
  < 3 / 8.

(** The northern latitude of the tiles of row 1 at zoom 2, in degrees and
    in radians. *)
Definition northLat `{Imports} : R := latFromMercatorY (1 / 4).
Definition northRad `{Imports} : R := degToRad northLat.

(** The world-space position, in tile units at zoom 2, of the point of the
    sphere in the direction [(ux, uy, uz)], seen from [equatorTransform]. *)
Definition equatorWorld (ux uy uz : R) : Vec3 :=
  mkVec3 (2 / PI * ux + 2) (2 / PI * uy + 2) (2 / PI * uz - 2 / PI).

(** The four corners of [tile_2_3_1] in world space. *)
Definition cornerSW : Vec3 := equatorWorld 1 0 0.
Definition cornerSE : Vec3 := equatorWorld 0 0 (-1).
Definition cornerNE `{Imports} : Vec3 :=
  equatorWorld 0 (- sin northRad) (- cos northRad).
Definition cornerNW `{Imports} : Vec3 :=
  equatorWorld (cos northRad) (- sin northRad) 0.

(** A camera over longitude 10 east and latitude 20 north, pitched by one
    radian and turned by half a radian. *)
Definition pitchedTransform `{Imports} : Transform.t :=
  let worldSize := 512 * 4 in
  let tr :=
    Transform.mk worldSize 2 (LngLat.mk 10 20)
                 (Point.mk (worldSize / 2) (worldSize / 3))
                 mat4.identity 1 (1 / 2) 1 3 2 in
  Transform.mk worldSize 2 (LngLat.mk 10 20)
               (Point.mk (worldSize / 2) (worldSize / 3))
               (calculateGlobeMatrix tr) 1 (1 / 2) 1 3 2.

(** * Properties *)

(** ** Arithmetic and trigonometric facts *)

Lemma sqr_sin_cos (x : R) : sin x * sin x + cos x * cos x = 1.
Proof. generalize (sin2_cos2 x); unfold Rsqr; lra. Qed.

Lemma inv_tan (x : R) : 0 < sin x -> 1 / tan x = cos x / sin x.
Proof.
  intros Hs. unfold tan, Rdiv.
  rewrite Rinv_mult, Rinv_inv. rewrite Rmult_1_l. apply Rmult_comm.
Qed.

Lemma acos_lt_PI2 (x : R) : 0 < x <= 1 -> acos x < PI / 2.
Proof.
  intros Hx.
  assert (Hb := acos_bound x).
  assert (Hp := PI_RGT_0).
  apply cos_decreasing_0; try lra.
  rewrite cos_PI2, cos_acos; lra.
Qed.

Lemma acos_pos (x : R) : -1 <= x < 1 -> 0 < acos x.
Proof.
  intros Hx.
  assert (Hb := acos_bound x).
  destruct (Req_dec (acos x) 0) as [E|E]; [|lra].
  assert (Hc := cos_acos x ltac:(lra)).
  rewrite E, cos_0 in Hc. lra.
Qed.

Lemma clamp_id (t : R) : 0 <= t <= 1 -> clamp t 0 1 = t.
Proof.
  intros Ht. unfold clamp.
  rewrite (Rmax_right 0 t) by lra. apply Rmin_right; lra.
Qed.

Lemma sqrt_of_square (x : R) : 0 <= x -> sqrt (x * x) = x.
Proof. intros Hx. apply sqrt_square; exact Hx. Qed.

(** ** [localExtremum] *)

(** No extremum is reported when the stationary parameter falls before the
    start of the arc. *)
Lemma localExtremum_before_start (arc : Arc.t) (dim : Dim) :
  Arc.angle arc <> 0 -> localExtremum_t arc dim < 0 ->
  localExtremum arc dim = None.
Proof.
  intros Ha Ht. unfold localExtremum.
  destruct (Req_dec_T (Arc.angle arc) 0) as [E|_]; [contradiction|].
  destruct (Rlt_dec (localExtremum_t arc dim) 0) as [_|L]; [reflexivity|].
  contradiction.
Qed.

Lemma arc_3_4_angle : Arc.angle arc_3_4 = acos (3 / 5).
Proof.
  unfold arc_3_4, Arc.new, vec3.normalize, vec3.sub, vec3.dot; simpl.
  destruct (Rgt_dec _ 0) as [_|n1]; [|exfalso; apply n1; lra].
  destruct (Rgt_dec _ 0) as [_|n2]; [|exfalso; apply n2; lra].
  replace ((1 - 0) * (1 - 0) + (0 - 0) * (0 - 0) + (0 - 0) * (0 - 0)) with (1 * 1) by ring.
  replace ((3 - 0) * (3 - 0) + (4 - 0) * (4 - 0) + (0 - 0) * (0 - 0)) with (5 * 5) by ring.
  rewrite !sqrt_of_square by lra.
  f_equal. field.
Qed.

(** C2, counterexample: the arc from [(1, 0, 0)] to [(3, 4, 0)] around the
    origin has the nonzero angle [acos (3/5)], and [localExtremum] returns
    [null] on its third dimension, where [t = (PI / 2) / angle] exceeds 1. *)
Lemma localExtremum_null_nonzero_angle :
  Arc.angle arc_3_4 <> 0 /\ localExtremum arc_3_4 DimZ = None.
Proof.
  assert (Hpos : 0 < Arc.angle arc_3_4)
    by (rewrite arc_3_4_angle; apply acos_pos; lra).
  assert (Hlt : Arc.angle arc_3_4 < PI / 2)
    by (rewrite arc_3_4_angle; apply acos_lt_PI2; lra).
  split; [lra|].
  unfold localExtremum, localExtremum_t.
  destruct (Req_dec_T (Arc.angle arc_3_4) 0) as [E|_]; [lra|].
  replace ((Arc.a arc_3_4).[DimZ]) with 0
    by (unfold arc_3_4, Arc.new, vec3.sub; simpl; ring).
  destruct (Req_dec_T 0 0) as [_|n]; [|lra].
  set (t := 1 / Arc.angle arc_3_4 * (1 / 2) * PI).
  assert (Ht : 1 < t).
  { unfold t. apply Rmult_lt_reg_r with (Arc.angle arc_3_4); [exact Hpos|].
    field_simplify; lra. }
  destruct (Rlt_dec t 0) as [_|_]; [reflexivity|].
  destruct (Rgt_dec t 1) as [_|G]; [reflexivity|]. exfalso; apply G; lra.
Qed.

(** C2, as amended: [localExtremum] returns [null] exactly when the angle of
    the arc is 0 or the parameter [t] it computes lies outside [[0, 1]]; in
    every other case it returns a number. *)
Theorem localExtremum_null_iff (arc : Arc.t) (dim : Dim) :
  localExtremum arc dim = None <->
  (Arc.angle arc = 0 \/ localExtremum_t arc dim < 0 \/ localExtremum_t arc dim > 1).
Proof.
  unfold localExtremum.
  destruct (Req_dec_T (Arc.angle arc) 0) as [E|E].
  - split; [intros _; left; exact E | reflexivity].
  - destruct (Rlt_dec (localExtremum_t arc dim) 0) as [L|L].
    + split; [intros _; right; left; exact L | reflexivity].
    + destruct (Rgt_dec (localExtremum_t arc dim) 1) as [G|G].
      * split; [intros _; right; right; exact G | reflexivity].
      * split; [discriminate|].
        intros [H0|[H0|H0]]; contradiction.
Qed.

(** The value of [slerp] at the stationary parameter, for a nonzero first
    endpoint value: multiplied by the cosine of the stationary angle it is
    [a], and the second endpoint value is its multiple by a cosine. *)
Lemma slerp_stationary (a b theta : R) :
  a <> 0 -> 0 < sin theta -> theta <> 0 ->
  let phi := atan (b / a / sin theta - 1 / tan theta) in
  let V := slerp a b theta (1 / theta * phi) in
  V * cos phi = a /\ b = V * cos (theta - phi).
Proof.
  intros Ha Hs Ht phi V.
  set (X := b / a / sin theta - 1 / tan theta) in *.
  assert (HX : X * (a * sin theta) = b - a * cos theta).
  { unfold X. rewrite inv_tan by exact Hs. field. split; first [exact Ha | lra]. }
  assert (Hc : 0 < cos phi).
  { destruct (atan_bound X). apply cos_gt_0; unfold phi; lra. }
  assert (Hsp : sin phi = X * cos phi).
  { generalize (tan_atan X). fold phi. unfold tan. intros E.
    rewrite <- E. field. lra. }
  assert (Hu : cos phi * cos phi + X * cos phi * (X * cos phi) = 1).
  { rewrite <- Hsp. generalize (sqr_sin_cos phi). lra. }
  assert (HV : V = (a * (sin theta * cos phi - cos theta * sin phi)
                    + b * sin phi) / sin theta).
  { unfold V, slerp.
    replace ((1 - 1 / theta * phi) * theta) with (theta - phi) by (field; exact Ht).
    replace (1 / theta * phi * theta) with phi by (field; exact Ht).
    rewrite sin_minus. field. lra. }
  assert (Hb : b = a * cos theta + X * (a * sin theta)) by lra.
  assert (E1 : V * cos phi = a).
  { apply Rmult_eq_reg_r with (sin theta); [|lra].
    rewrite HV, Hsp, Hb.
    transitivity (a * sin theta *
                  (cos phi * cos phi + X * cos phi * (X * cos phi))).
    - field. lra.
    - rewrite Hu. ring. }
  split; [exact E1|].
  rewrite cos_minus, Hsp.
  transitivity (V * cos phi * (cos theta + X * sin theta)); [|ring].
  rewrite E1. lra.
Qed.

(** C3, as amended: on an arc whose angle lies strictly between 0 and [PI],
    a value returned by [localExtremum] is an extremum of the arc on that
    dimension: it is at least both endpoint values, or at most both. *)
Theorem localExtremum_bounds_endpoints (arc : Arc.t) (dim : Dim) (v : R) :
  0 < Arc.angle arc < PI ->
  localExtremum arc dim = Some v ->
  let pa := (Arc.a arc).[dim] + (Arc.center arc).[dim] in
  let pb := (Arc.b arc).[dim] + (Arc.center arc).[dim] in
  (pa <= v /\ pb <= v) \/ (v <= pa /\ v <= pb).
Proof.
  intros Hang Hv pa pb. unfold pa, pb. clear pa pb.
  assert (Hs : 0 < sin (Arc.angle arc)) by (apply sin_gt_0; lra).
  assert (Hs1 := SIN_bound (Arc.angle arc)).
  unfold localExtremum in Hv.
  destruct (Req_dec_T (Arc.angle arc) 0) as [E|E]; [discriminate|].
  destruct (Rlt_dec (localExtremum_t arc dim) 0) as [L|L]; [discriminate|].
  destruct (Rgt_dec (localExtremum_t arc dim) 1) as [G|G]; [discriminate|].
  rewrite clamp_id in Hv by lra.
  injection Hv as Hv. subst v.
  set (c := (Arc.center arc).[dim]).
  set (a := (Arc.a arc).[dim]).
  set (b := (Arc.b arc).[dim]).
  set (theta := Arc.angle arc) in *.
  unfold localExtremum_t. fold a b theta.
  destruct (Req_dec_T a 0) as [Ha|Ha].
  - (* the extremum is at a right angle from the first endpoint *)
    assert (EV : slerp a b theta (1 / theta * (1 / 2) * PI) = b / sin theta).
    { unfold slerp. rewrite Ha.
      replace (1 / theta * (1 / 2) * PI * theta) with (PI / 2) by (field; exact E).
      rewrite sin_PI2. field. lra. }
    rewrite EV, Ha.
    assert (Hi : 1 <= / sin theta).
    { rewrite <- Rinv_1 at 1. apply Rinv_le_contravar; lra. }
    unfold Rdiv.
    destruct (Rle_dec 0 b) as [Hb|Hb].
    + left. split; nra.
    + right. split; nra.
  - destruct (slerp_stationary a b theta Ha Hs E) as [E1 E2].
    set (phi := atan (b / a / sin theta - 1 / tan theta)) in *.
    set (V := slerp a b theta (1 / theta * phi)) in *.
    assert (Hc : 0 < cos phi).
    { destruct (atan_bound (b / a / sin theta - 1 / tan theta)).
      apply cos_gt_0; unfold phi; lra. }
    assert (Hc1 := COS_bound phi).
    assert (Hk := COS_bound (theta - phi)).
    set (K := cos (theta - phi)) in *.
    destruct (Rlt_dec 0 a) as [Hp|Hp].
    + left. assert (0 < V) by nra. split; nra.
    + right. assert (V < 0) by nra. split; nra.
Qed.

Lemma sqrt3_sqr : sqrt 3 * sqrt 3 = 3.
Proof. apply sqrt_sqrt; lra. Qed.

Lemma sqrt3_pos : 0 < sqrt 3.
Proof. apply sqrt_lt_R0; lra. Qed.

Lemma sqrt3_lt_2 : sqrt 3 < 2.
Proof. generalize sqrt3_sqr sqrt3_pos; nra. Qed.

Lemma acos_half : acos (1 / 2) = PI / 3.
Proof.
  rewrite <- cos_PI3. apply acos_cos.
  generalize PI_RGT_0; lra.
Qed.

Lemma atan_inv_sqrt3 : atan (1 / sqrt 3) = PI / 6.
Proof.
  rewrite <- tan_PI6. apply atan_tan.
  generalize PI_RGT_0; lra.
Qed.

Lemma arc_60_angle : Arc.angle arc_60 = PI / 3.
Proof.
  unfold arc_60, Arc.new, vec3.normalize, vec3.sub, vec3.dot; simpl.
  replace ((sqrt 3 - 0) * (sqrt 3 - 0) + (1 - 0) * (1 - 0) + (0 - 0) * (0 - 0))
    with (2 * 2) by (generalize sqrt3_sqr; lra).
  replace ((sqrt 3 - 0) * (sqrt 3 - 0) + (-1 - 0) * (-1 - 0) + (0 - 0) * (0 - 0))
    with (2 * 2) by (generalize sqrt3_sqr; lra).
  destruct (Rgt_dec (2 * 2) 0) as [_|n1]; [|exfalso; apply n1; lra].
  rewrite sqrt_of_square by lra.
  rewrite <- acos_half. f_equal.
  generalize sqrt3_sqr; lra.
Qed.

Lemma arc_60_t : localExtremum_t arc_60 DimX = 1 / 2.
Proof.
  unfold localExtremum_t. rewrite arc_60_angle.
  assert (Hp := PI_RGT_0). assert (H3 := sqrt3_pos).
  replace ((Arc.a arc_60).[DimX]) with (sqrt 3)
    by (unfold arc_60, Arc.new, vec3.sub; simpl; ring).
  replace ((Arc.b arc_60).[DimX]) with (sqrt 3)
    by (unfold arc_60, Arc.new, vec3.sub; simpl; ring).
  destruct (Req_dec_T (sqrt 3) 0) as [E|_]; [lra|].
  rewrite sin_PI3, tan_PI3.
  replace (sqrt 3 / sqrt 3 / (sqrt 3 / 2) - 1 / sqrt 3) with (1 / sqrt 3).
  - rewrite atan_inv_sqrt3. field. lra.
  - apply Rmult_eq_reg_r with (sqrt 3); [|lra].
    field_simplify; [|lra|lra]. generalize sqrt3_sqr; lra.
Qed.

Lemma arc_60_extremum : localExtremum arc_60 DimX = Some 2.
Proof.
  unfold localExtremum. rewrite arc_60_t, arc_60_angle.
  assert (Hp := PI_RGT_0). assert (H3 := sqrt3_pos).
  destruct (Req_dec_T (PI / 3) 0) as [E|_]; [lra|].
  destruct (Rlt_dec (1 / 2) 0) as [L|_]; [lra|].
  destruct (Rgt_dec (1 / 2) 1) as [G|_]; [lra|].
  rewrite clamp_id by lra.
  replace ((Arc.a arc_60).[DimX]) with (sqrt 3)
    by (unfold arc_60, Arc.new, vec3.sub; simpl; ring).
  replace ((Arc.b arc_60).[DimX]) with (sqrt 3)
    by (unfold arc_60, Arc.new, vec3.sub; simpl; ring).
  replace ((Arc.center arc_60).[DimX]) with 0 by reflexivity.
  unfold slerp.
  replace ((1 - 1 / 2) * (PI / 3)) with (PI / 6) by field.
  replace (1 / 2 * (PI / 3)) with (PI / 6) by field.
  rewrite sin_PI6, sin_PI3.
  f_equal. field. lra.
Qed.

(** C3, counterexample: on the arc from [(sqrt 3, 1, 0)] to
    [(sqrt 3, -1, 0)] around the origin, whose angle [PI / 3] is not 0,
    [localExtremum] finds [t = 1/2] on the first dimension and returns 2,
    which is above both endpoint values [sqrt 3]. *)
Lemma localExtremum_not_between_endpoints :
  Arc.angle arc_60 <> 0 /\
  0 <= localExtremum_t arc_60 DimX <= 1 /\
  localExtremum arc_60 DimX = Some 2 /\
  (Arc.a arc_60).[DimX] + (Arc.center arc_60).[DimX] < 2 /\
  (Arc.b arc_60).[DimX] + (Arc.center arc_60).[DimX] < 2.
Proof.
  assert (Hp := PI_RGT_0). assert (H3 := sqrt3_lt_2).
  rewrite arc_60_angle, arc_60_t, arc_60_extremum.
  repeat split; try lra.
  - unfold arc_60, Arc.new, vec3.sub; simpl; lra.
  - unfold arc_60, Arc.new, vec3.sub; simpl; lra.
Qed.

Lemma localExtremum_bounds_endpoints_witness :
  let pa := (Arc.a arc_60).[DimX] + (Arc.center arc_60).[DimX] in
  let pb := (Arc.b arc_60).[DimX] + (Arc.center arc_60).[DimX] in
  (pa <= 2 /\ pb <= 2) \/ (2 <= pa /\ 2 <= pb).
Proof.
  apply (localExtremum_bounds_endpoints arc_60 DimX 2).
  - rewrite arc_60_angle. generalize PI_RGT_0; lra.
  - exact arc_60_extremum.
Defined.

(** ** The transition from globe to Mercator *)

Lemma globeToMercatorTransition_cases (zoom : R) :
  (zoom <= 5 /\ globeToMercatorTransition zoom = 0) \/
  (5 <= zoom <= 6 /\
   globeToMercatorTransition zoom = (zoom - 5) * (zoom - 5) * (3 - 2 * (zoom - 5))) \/
  (6 <= zoom /\ globeToMercatorTransition zoom = 1).
Proof.
  unfold globeToMercatorTransition, smoothstep, clamp,
    GLOBE_ZOOM_THRESHOLD_MIN, GLOBE_ZOOM_THRESHOLD_MAX.
  replace ((zoom - 5) / (6 - 5)) with (zoom - 5) by field.
  destruct (Rle_dec zoom 5) as [H5|H5].
  - left. split; [exact H5|].
    rewrite (Rmax_left 0 (zoom - 5)) by lra.
    rewrite (Rmin_right 1 0) by lra. ring.
  - rewrite (Rmax_right 0 (zoom - 5)) by lra.
    destruct (Rle_dec zoom 6) as [H6|H6].
    + right; left. split; [lra|].
      rewrite (Rmin_right 1 (zoom - 5)) by lra. reflexivity.
    + right; right. split; [lra|].
      rewrite (Rmin_left 1 (zoom - 5)) by lra. ring.
Qed.

(** The transition factor moves by at most three times the zoom distance
    from a threshold. *)
Lemma globeToMercatorTransition_inside (zoom : R) :
  5 <= zoom <= 6 ->
  globeToMercatorTransition zoom = (zoom - 5) * (zoom - 5) * (3 - 2 * (zoom - 5)).
Proof.
  intros Hz.
  destruct (globeToMercatorTransition_cases zoom) as [[Hr E]|[[Hr E]|[Hr E]]];
    rewrite E.
  - replace zoom with 5 by lra. ring.
  - reflexivity.
  - replace zoom with 6 by lra. ring.
Qed.

Lemma cubic_ramp_bounds (t : R) :
  0 <= t <= 1 ->
  0 <= t * t * (3 - 2 * t) <= 3 * t /\
  0 <= 1 - t * t * (3 - 2 * t) <= 3 * (1 - t).
Proof.
  intros Ht.
  assert (H1 : 0 <= t * t <= t) by nra.
  assert (H2 : 0 <= (1 - t) * (1 - t) <= 1 - t) by nra.
  replace (1 - t * t * (3 - 2 * t)) with ((1 - t) * (1 - t) * (1 + 2 * t)) by ring.
  repeat split.
  - apply Rmult_le_pos; lra.
  - apply Rle_trans with (t * 3); [|lra].
    apply Rmult_le_compat; lra.
  - apply Rmult_le_pos; lra.
  - apply Rle_trans with ((1 - t) * 3); [|lra].
    apply Rmult_le_compat; lra.
Qed.

Lemma globeToMercatorTransition_near_min (zoom : R) :
  Rabs (globeToMercatorTransition zoom - globeToMercatorTransition 5)
  <= 3 * Rabs (zoom - 5).
Proof.
  replace (globeToMercatorTransition 5) with 0.
  2:{ destruct (globeToMercatorTransition_cases 5) as [[_ E]|[[_ E]|[H _]]];
      [| |lra]; rewrite E; ring. }
  destruct (globeToMercatorTransition_cases zoom) as [[Hz E]|[[Hz E]|[Hz E]]];
    rewrite E; clear E.
  - rewrite Rminus_0_r, Rabs_R0. generalize (Rabs_pos (zoom - 5)); lra.
  - destruct (cubic_ramp_bounds (zoom - 5)) as [[B1 B2] _]; [lra|].
    rewrite (Rabs_right (zoom - 5)) by lra.
    apply Rabs_le; lra.
  - rewrite (Rabs_right (zoom - 5)) by lra.
    apply Rabs_le; lra.
Qed.

Lemma globeToMercatorTransition_near_max (zoom : R) :
  Rabs (globeToMercatorTransition zoom - globeToMercatorTransition 6)
  <= 3 * Rabs (zoom - 6).
Proof.
  replace (globeToMercatorTransition 6) with 1.
  2:{ destruct (globeToMercatorTransition_cases 6) as [[H _]|[[_ E]|[_ E]]];
      [lra| |]; rewrite E; ring. }
  destruct (globeToMercatorTransition_cases zoom) as [[Hz E]|[[Hz E]|[Hz E]]];
    rewrite E; clear E.
  - rewrite (Rabs_left1 (zoom - 6)) by lra.
    apply Rabs_le; lra.
  - destruct (cubic_ramp_bounds (zoom - 5)) as [_ [B1 B2]]; [lra|].
    rewrite (Rabs_left1 (zoom - 6)) by lra.
    apply Rabs_le; lra.
  - replace (1 - 1) with 0 by ring. rewrite Rabs_R0.
    generalize (Rabs_pos (zoom - 6)); lra.
Qed.

Lemma continuity_pt_of_lipschitz (f : R -> R) (x0 k : R) :
  0 < k ->
  (forall x, Rabs (f x - f x0) <= k * Rabs (x - x0)) ->
  continuity_pt f x0.
Proof.
  intros Hk Hl eps Heps.
  exists (eps / k). split.
  - apply Rdiv_lt_0_compat; lra.
  - intros x [_ Hd]. simpl in *. unfold R_dist in *.
    apply Rle_lt_trans with (k * Rabs (x - x0)); [apply Hl|].
    apply Rmult_lt_reg_r with (/ k); [apply Rinv_0_lt_compat; exact Hk|].
    replace (k * Rabs (x - x0) * / k) with (Rabs (x - x0)) by (field; lra).
    exact Hd.
Qed.

(** C5: the transition factor is 0 at and below zoom 5, 1 at and above
    zoom 6 (one level above), non-decreasing in between, and continuous at
    both thresholds. *)
Theorem globeToMercatorTransition_ramp :
  GLOBE_ZOOM_THRESHOLD_MIN = 5 /\
  GLOBE_ZOOM_THRESHOLD_MAX = GLOBE_ZOOM_THRESHOLD_MIN + 1 /\
  (forall zoom, zoom <= GLOBE_ZOOM_THRESHOLD_MIN ->
                globeToMercatorTransition zoom = 0) /\
  (forall zoom, GLOBE_ZOOM_THRESHOLD_MAX <= zoom ->
                globeToMercatorTransition zoom = 1) /\
  (forall z1 z2, GLOBE_ZOOM_THRESHOLD_MIN <= z1 -> z1 <= z2 ->
                 z2 <= GLOBE_ZOOM_THRESHOLD_MAX ->
                 globeToMercatorTransition z1 <= globeToMercatorTransition z2) /\
  continuity_pt globeToMercatorTransition GLOBE_ZOOM_THRESHOLD_MIN /\
  continuity_pt globeToMercatorTransition GLOBE_ZOOM_THRESHOLD_MAX.
Proof.
  unfold GLOBE_ZOOM_THRESHOLD_MIN, GLOBE_ZOOM_THRESHOLD_MAX.
  split; [reflexivity|]. split; [ring|].
  split; [|split; [|split; [|split]]].
  - intros zoom Hz.
    destruct (globeToMercatorTransition_cases zoom) as [[_ E]|[[Hr E]|[Hr E]]];
      rewrite E; try lra.
    replace zoom with 5 by lra. ring.
  - intros zoom Hz.
    destruct (globeToMercatorTransition_cases zoom) as [[Hr E]|[[Hr E]|[_ E]]];
      rewrite E; try lra.
    replace zoom with 6 by lra. ring.
  - intros z1 z2 H1 H12 H2.
    rewrite !globeToMercatorTransition_inside by lra.
    set (a := z1 - 5). set (b := z2 - 5).
    assert (Ha : 0 <= a <= 1) by (unfold a; lra).
    assert (Hb : 0 <= b <= 1) by (unfold b; lra).
    assert (Hab : a <= b) by (unfold a, b; lra).
    assert (Hs : 0 <= 3 * (a + b) - 2 * (a * a + a * b + b * b)) by nra.
    assert (Hp : 0 <= (b - a) * (3 * (a + b) - 2 * (a * a + a * b + b * b)))
      by (apply Rmult_le_pos; lra).
    lra.
  - apply continuity_pt_of_lipschitz with 3; [lra|].
    exact globeToMercatorTransition_near_min.
  - apply continuity_pt_of_lipschitz with 3; [lra|].
    exact globeToMercatorTransition_near_max.
Qed.

(** ** Normalization and denormalization *)

Lemma GLOBE_NORMALIZATION_MASK_value : GLOBE_NORMALIZATION_MASK = 16383%Z.
Proof. reflexivity. Qed.

Lemma transformMat4_affine (a : Vec3) (m : Mat4) :
  m3 m = 0 -> m7 m = 0 -> m11 m = 0 -> m15 m = 1 ->
  vec3.transformMat4 a m
  = mkVec3 (m0 m * v0 a + m4 m * v1 a + m8 m * v2 a + m12 m)
           (m1 m * v0 a + m5 m * v1 a + m9 m * v2 a + m13 m)
           (m2 m * v0 a + m6 m * v1 a + m10 m * v2 a + m14 m).
Proof.
  intros E3 E7 E11 E15. unfold vec3.transformMat4.
  rewrite E3, E7, E11, E15.
  replace (0 * v0 a + 0 * v1 a + 0 * v2 a + 1) with 1 by ring.
  unfold num_or. destruct (Req_dec_T 1 0) as [E|_]; [lra|].
  f_equal; field.
Qed.

Lemma normalizationScale_pos (bounds : Aabb.t) :
  (exists d, (Aabb.min bounds).[d] < (Aabb.max bounds).[d]) ->
  0 < globeECEFNormalizationScale bounds.
Proof.
  intros [d Hd]. unfold globeECEFNormalizationScale.
  rewrite GLOBE_NORMALIZATION_MASK_value.
  apply Rdiv_lt_0_compat; [lra|].
  set (e0 := v0 (Aabb.max bounds) - v0 (Aabb.min bounds)).
  set (e1 := v1 (Aabb.max bounds) - v1 (Aabb.min bounds)).
  set (e2 := v2 (Aabb.max bounds) - v2 (Aabb.min bounds)).
  assert (H01 := Rmax_l e0 e1). assert (H11 := Rmax_r e0 e1).
  assert (H2 := Rmax_l (Rmax e0 e1) e2). assert (H3 := Rmax_r (Rmax e0 e1) e2).
  destruct d; simpl in Hd; unfold e0, e1, e2 in *; lra.
Qed.

(** C4: for a box with [min <= max] on every axis and a positive extent on
    one of them, the matrix of [globeDenormalizeECEF] undoes that of
    [globeNormalizeECEF] on every point, and the other way round; each
    matrix is read from the shared array right after the call that wrote
    it. *)
Theorem globeNormalizeECEF_inverse (bounds : Aabb.t) (P : Vec3) (st : Store) :
  (forall d, (Aabb.min bounds).[d] <= (Aabb.max bounds).[d]) ->
  (exists d, (Aabb.min bounds).[d] < (Aabb.max bounds).[d]) ->
  (let (n, st1) := globeNormalizeECEF bounds st in
   let Q := vec3.transformMat4 P (deref st1 n) in
   let (d, st2) := globeDenormalizeECEF bounds st1 in
   vec3.transformMat4 Q (deref st2 d) = P) /\
  (let (d, st1) := globeDenormalizeECEF bounds st in
   let Q := vec3.transformMat4 P (deref st1 d) in
   let (n, st2) := globeNormalizeECEF bounds st1 in
   vec3.transformMat4 Q (deref st2 n) = P).
Proof.
  intros _ Hext.
  assert (Hs := normalizationScale_pos bounds Hext).
  unfold globeNormalizeECEF, globeDenormalizeECEF, deref.
  set (s := globeECEFNormalizationScale bounds) in *.
  destruct P as [x y z]. destruct (Aabb.min bounds) as [a b c].
  split.
  - rewrite (transformMat4_affine (mkVec3 x y z)) by (simpl; ring).
    rewrite transformMat4_affine by (simpl; ring).
    simpl. f_equal; field; lra.
  - rewrite (transformMat4_affine (mkVec3 x y z)) by (simpl; ring).
    rewrite transformMat4_affine by (simpl; ring).
    simpl. f_equal; field; lra.
Qed.

(** Both functions return the same array: a matrix kept from the first call
    reads as the second one after the second call. *)
Lemma globeNormalizeECEF_aliases (bounds : Aabb.t) (st : Store) :
  let (n, st1) := globeNormalizeECEF bounds st in
  let (d, st2) := globeDenormalizeECEF bounds st1 in
  n = d /\ deref st2 n = deref st2 d.
Proof. simpl. split; reflexivity. Qed.

Lemma globeNormalizeECEF_inverse_witness :
  let bounds := Aabb.mk (mkVec3 0 0 0) (mkVec3 1 2 3) in
  let P := mkVec3 5 6 7 in
  (let (n, st1) := globeNormalizeECEF bounds mat4.identity in
   let Q := vec3.transformMat4 P (deref st1 n) in
   let (d, st2) := globeDenormalizeECEF bounds st1 in
   vec3.transformMat4 Q (deref st2 d) = P) /\
  (let (d, st1) := globeDenormalizeECEF bounds mat4.identity in
   let Q := vec3.transformMat4 P (deref st1 d) in
   let (n, st2) := globeNormalizeECEF bounds st1 in
   vec3.transformMat4 Q (deref st2 n) = P).
Proof.
  apply (globeNormalizeECEF_inverse
           (Aabb.mk (mkVec3 0 0 0) (mkVec3 1 2 3)) (mkVec3 5 6 7) mat4.identity).
  - intros d; destruct d; simpl; lra.
  - exists DimX; simpl; lra.
Defined.

Section Properties.

Context `{Imports}.

(** ** The low-zoom boxes *)

(** C6: with a tile extent of 512, the bounds of tile [0/0/0] are the box of
    the full sphere of radius [R = 512 / (2 PI)]. *)
Theorem globeTileBounds_zoom0 :
  EXTENT = 512 ->
  globeTileBounds (CanonicalTileID.mk 0 0 0)
  = Some (Aabb.mk (mkVec3 (- (512 / (2 * PI))) (- (512 / (2 * PI))) (- (512 / (2 * PI))))
                  (mkVec3 (512 / (2 * PI)) (512 / (2 * PI)) (512 / (2 * PI)))).
Proof.
  intros HE.
  assert (HR : GLOBE_RADIUS = 512 / (2 * PI)).
  { unfold GLOBE_RADIUS. rewrite HE. field. apply PI_neq0. }
  unfold globeTileBounds; simpl. unfold lookupZ; simpl.
  unfold GLOBE_MIN, GLOBE_MAX. rewrite HR. reflexivity.
Qed.

(** ** Geographic coordinates to ECEF *)

(** C9: [latLngToECEF] fails its assertion for a latitude outside
    [[-90, 90]]; for a latitude inside, and any longitude, it returns the
    point [(cos lat * sin lng, - sin lat, cos lat * cos lng)] scaled by the
    radius, [GLOBE_RADIUS] when none is given. *)
Theorem latLngToECEF_spec (lat lng : R) (radius : option R) :
  (lat < -90 \/ 90 < lat ->
   latLngToECEF lat lng radius
   = Throw (AssertionError "Lattitude must be between -90 and 90")) /\
  (-90 <= lat <= 90 ->
   let r := match radius with Some r => r | None => GLOBE_RADIUS end in
   latLngToECEF lat lng radius
   = Ok (mkVec3 (cos (degToRad lat) * sin (degToRad lng) * r)
                (- sin (degToRad lat) * r)
                (cos (degToRad lat) * cos (degToRad lng) * r))).
Proof.
  unfold latLngToECEF, assert, Rleb, Rgeb.
  split.
  - intros Hout.
    destruct (Rle_dec lat 90) as [L|L]; destruct (Rge_dec lat (-90)) as [G|G];
      simpl; try reflexivity.
    exfalso; lra.
  - intros Hin.
    destruct (Rle_dec lat 90) as [L|L]; [|exfalso; lra].
    destruct (Rge_dec lat (-90)) as [G|G]; [|exfalso; lra].
    reflexivity.
Qed.

(** ** Occlusion by the globe *)

(** C8: [isLngLatBehindGlobe] returns [true] exactly when the tilt at the
    point, the angle between the vector from the point to the camera and
    the outward normal at the point, both in ECEF, exceeds [PI / 2 * 1.01]:
    it returns [true] if and only if both positions can be computed and
    that angle exceeds the threshold.  Whenever both positions can be
    computed, [globeTiltAtLngLat] returns that angle and
    [isLngLatBehindGlobe] the outcome of the comparison, [false] included. *)
Theorem isLngLatBehindGlobe_iff (tr : Transform.t) (lngLat : LngLat.t) :
  (isLngLatBehindGlobe tr lngLat = Ok true <->
   exists centerToPoint centerToCamera : Vec3,
     latLngToECEF (LngLat.lat lngLat) (LngLat.lng lngLat) None = Ok centerToPoint /\
     cameraPositionInECEF tr = Ok centerToCamera /\
     vec3.angle (vec3.subtract centerToCamera centerToPoint) centerToPoint
     > PI / 2 * (101 / 100)) /\
  (forall centerToPoint centerToCamera : Vec3,
     latLngToECEF (LngLat.lat lngLat) (LngLat.lng lngLat) None = Ok centerToPoint ->
     cameraPositionInECEF tr = Ok centerToCamera ->
     let tilt :=
       vec3.angle (vec3.subtract centerToCamera centerToPoint) centerToPoint in
     globeTiltAtLngLat tr lngLat = Ok tilt /\
     (isLngLatBehindGlobe tr lngLat = Ok true <-> tilt > PI / 2 * (101 / 100)) /\
     (isLngLatBehindGlobe tr lngLat = Ok false <-> tilt <= PI / 2 * (101 / 100))).
Proof.
  split.
  - unfold isLngLatBehindGlobe, globeTiltAtLngLat.
    destruct (latLngToECEF (LngLat.lat lngLat) (LngLat.lng lngLat) None)
      as [p|e]; cbn [bind].
    + destruct (cameraPositionInECEF tr) as [c|e]; cbn [bind].
      * destruct (Rgt_dec (vec3.angle (vec3.subtract c p) p) (PI / 2 * (101 / 100)))
          as [G|G].
        -- split; [intros _; exists p, c; auto | reflexivity].
        -- split; [discriminate|].
           intros (p' & c' & Hp & Hc & Hg).
           injection Hp as <-. injection Hc as <-. contradiction.
      * split; [discriminate|]. intros (p' & c' & _ & Hc & _). discriminate.
    + split; [discriminate|]. intros (p' & c' & Hp & _). discriminate.
  - intros p c Hp Hc tilt.
    unfold isLngLatBehindGlobe, globeTiltAtLngLat.
    rewrite Hp, Hc. cbn [bind]. fold tilt.
    split; [reflexivity|].
    destruct (Rgt_dec tilt (PI / 2 * (101 / 100))) as [G|G].
    + split; [split; [intros _; exact G | reflexivity]|].
      split; [discriminate | intros L; exfalso; lra].
    + split; [split; [discriminate | intros L; contradiction]|].
      split; [intros _; lra | reflexivity].
Qed.

(** ** The fallback for a missing arc extremum *)

(** C10: on each dimension, [aabbForTileOnGlobe] takes the coordinate of the
    first endpoint of the closest edge as bound of the arc when
    [localExtremum] returns [null], and also when it returns exactly 0. *)
Theorem arcBounds_fallback (tr : Transform.t) (numTiles : R)
    (tileId : CanonicalTileID.t) (dim : Dim) :
  let f := closestArcFrame tr numTiles tileId in
  localExtremum (Frame.closestArc f) dim = None \/
  localExtremum (Frame.closestArc f) dim = Some 0 ->
  (Frame.arcBounds f).[dim] = (Frame.arcA f).[dim].
Proof.
  intros f Hl.
  assert (E : Frame.arcBounds f
              = mkVec3 (opt_or (localExtremum (Frame.closestArc f) DimX) (v0 (Frame.arcA f)))
                       (opt_or (localExtremum (Frame.closestArc f) DimY) (v1 (Frame.arcA f)))
                       (opt_or (localExtremum (Frame.closestArc f) DimZ) (v2 (Frame.arcA f))))
    by reflexivity.
  rewrite E. clear E.
  assert (Ho : forall d, opt_or (localExtremum (Frame.closestArc f) dim) d = d).
  { intros d. destruct Hl as [-> | ->]; [reflexivity|].
    unfold opt_or, num_or. destruct (Req_dec_T 0 0) as [_|n]; [reflexivity|lra]. }
  destruct dim; simpl; apply Ho.
Qed.

(** ** The globe matrix and the corners of a tile *)

Lemma unit_dot_le (r1 r2 r3 p1 p2 p3 g : R) :
  r1 * r1 + r2 * r2 + r3 * r3 = 1 ->
  p1 * p1 + p2 * p2 + p3 * p3 = g * g ->
  0 <= g ->
  r1 * p1 + r2 * p2 + r3 * p3 <= g.
Proof.
  intros Hr Hp Hg.
  set (d := r1 * p1 + r2 * p2 + r3 * p3).
  assert (HL : g * g - d * d
               = (r1 * p2 - r2 * p1) * (r1 * p2 - r2 * p1)
                 + (r1 * p3 - r3 * p1) * (r1 * p3 - r3 * p1)
                 + (r2 * p3 - r3 * p2) * (r2 * p3 - r3 * p2)).
  { rewrite <- Hp. rewrite <- (Rmult_1_l (p1 * p1 + p2 * p2 + p3 * p3)).
    rewrite <- Hr. unfold d. ring. }
  assert (H1 := Rle_0_sqr (r1 * p2 - r2 * p1)).
  assert (H2 := Rle_0_sqr (r1 * p3 - r3 * p1)).
  assert (H3 := Rle_0_sqr (r2 * p3 - r3 * p2)).
  unfold Rsqr in *.
  destruct (Rle_dec d g) as [L|L]; [exact L|]. exfalso. nra.
Qed.

(** The third row of the globe matrix is a unit vector scaled by the ratio
    of world size to tile extent, and the matrix is affine. *)
Lemma calculateGlobePosMatrix_rows (x y worldSize lng lat : R) :
  let m := calculateGlobePosMatrix x y worldSize lng lat in
  let S := globeECEFUnitsToPixelScale worldSize in
  exists r1 r2 r3 : R,
    r1 * r1 + r2 * r2 + r3 * r3 = 1 /\
    m2 m = S * r1 /\ m6 m = S * r2 /\ m10 m = S * r3 /\
    m14 m = - worldSize / (2 * PI) /\
    m3 m = 0 /\ m7 m = 0 /\ m11 m = 0 /\ m15 m = 1.
Proof.
  intros m S.
  exists (- (cos (degToRad (- lat)) * sin (degToRad (- lng)))),
         (sin (degToRad (- lat))),
         (cos (degToRad (- lat)) * cos (degToRad (- lng))).
  split.
  - generalize (sqr_sin_cos (degToRad (- lat))) (sqr_sin_cos (degToRad (- lng))).
    intros Ha Hb.
    transitivity (cos (degToRad (- lat)) * cos (degToRad (- lat))
                  * (sin (degToRad (- lng)) * sin (degToRad (- lng))
                     + cos (degToRad (- lng)) * cos (degToRad (- lng)))
                  + sin (degToRad (- lat)) * sin (degToRad (- lat))); [ring|].
    rewrite Hb. lra.
  - unfold m, S, calculateGlobePosMatrix; simpl.
    repeat split; ring.
Qed.

Lemma csLatLngToECEF_norm (theta lng : R) :
  let p := csLatLngToECEF (cos theta) (sin theta) lng None in
  v0 p * v0 p + v1 p * v1 p + v2 p * v2 p = GLOBE_RADIUS * GLOBE_RADIUS.
Proof.
  simpl.
  generalize (sqr_sin_cos theta) (sqr_sin_cos (degToRad lng)). intros Ha Hb.
  transitivity (GLOBE_RADIUS * GLOBE_RADIUS
                * (cos theta * cos theta
                   * (sin (degToRad lng) * sin (degToRad lng)
                      + cos (degToRad lng) * cos (degToRad lng))
                   + sin theta * sin theta)); [ring|].
  rewrite Hb. replace (cos theta * cos theta * 1 + sin theta * sin theta) with 1 by lra.
  ring.
Qed.

Lemma globeScale_radius (worldSize : R) :
  0 < EXTENT ->
  globeECEFUnitsToPixelScale worldSize * GLOBE_RADIUS = worldSize / (2 * PI).
Proof.
  intros HE. unfold globeECEFUnitsToPixelScale, GLOBE_RADIUS.
  assert (Hpi := PI_RGT_0). field. split; lra.
Qed.

(** No point of the sphere lies above [z = 0] in world space. *)
Lemma globe_point_below_zero (x y worldSize lng lat scale : R) (p : Vec3) :
  0 < EXTENT -> 0 < worldSize -> 0 <= scale ->
  v0 p * v0 p + v1 p * v1 p + v2 p * v2 p = GLOBE_RADIUS * GLOBE_RADIUS ->
  v2 (vec3.scale
        (vec3.transformMat4 p (calculateGlobePosMatrix x y worldSize lng lat))
        scale) <= 0.
Proof.
  intros HE Hw Hs Hp.
  destruct (calculateGlobePosMatrix_rows x y worldSize lng lat)
    as (r1 & r2 & r3 & Hr & E2 & E6 & E10 & E14 & E3 & E7 & E11 & E15).
  rewrite transformMat4_affine by assumption.
  unfold vec3.scale. cbn [v0 v1 v2]. rewrite E2, E6, E10, E14.
  assert (Hpi := PI_RGT_0).
  assert (HG : 0 < GLOBE_RADIUS).
  { unfold GLOBE_RADIUS. apply Rdiv_lt_0_compat; [|lra].
    apply Rdiv_lt_0_compat; lra. }
  assert (HS : 0 < globeECEFUnitsToPixelScale worldSize).
  { unfold globeECEFUnitsToPixelScale.
    apply Rdiv_lt_0_compat; apply Rdiv_lt_0_compat; lra. }
  assert (Hd := unit_dot_le r1 r2 r3 (v0 p) (v1 p) (v2 p) GLOBE_RADIUS Hr Hp
                            (Rlt_le _ _ HG)).
  replace (- worldSize / (2 * PI))
    with (- (globeECEFUnitsToPixelScale worldSize * GLOBE_RADIUS))
    by (rewrite globeScale_radius by exact HE; field; lra).
  set (S := globeECEFUnitsToPixelScale worldSize) in *.
  replace (S * r1 * v0 p + S * r2 * v1 p + S * r3 * v2 p + - (S * GLOBE_RADIUS))
    with (S * (r1 * v0 p + r2 * v1 p + r3 * v2 p - GLOBE_RADIUS)) by ring.
  assert (S * (r1 * v0 p + r2 * v1 p + r3 * v2 p - GLOBE_RADIUS) <= 0) by nra.
  nra.
Qed.

Lemma boundsToECEF_norm (bounds : LngLatBounds.t) (p : Vec3) :
  In p (boundsToECEF bounds) ->
  v0 p * v0 p + v1 p * v1 p + v2 p * v2 p = GLOBE_RADIUS * GLOBE_RADIUS.
Proof.
  unfold boundsToECEF. intros [E|[E|[E|[E|[]]]]]; subst p;
    apply csLatLngToECEF_norm.
Qed.

(** [updateCorners] leaves [cornerMin] below and [cornerMax] above their
    starting values and every transformed corner. *)
Lemma updateCorners_bounds (corners : list Vec3) (m : Mat4) (scale : R) :
  forall (cornerMin cornerMax : Vec3) (d : Dim),
    let updated := updateCorners cornerMin cornerMax corners m scale in
    (fst (fst updated)).[d] <= cornerMin.[d] /\
    cornerMax.[d] <= (snd (fst updated)).[d] /\
    forall corner, In corner corners ->
      (fst (fst updated)).[d]
      <= (vec3.scale (vec3.transformMat4 corner m) scale).[d]
      <= (snd (fst updated)).[d].
Proof.
  induction corners as [|c rest IH]; intros mn mx d; simpl.
  - split; [lra|]. split; [lra|]. intros corner [].
  - set (c' := vec3.scale (vec3.transformMat4 c m) scale).
    destruct (IH (vec3.min mn c') (vec3.max mx c') d) as (Hmn & Hmx & Hin).
    assert (Hl : (vec3.min mn c').[d] <= mn.[d] /\ (vec3.min mn c').[d] <= c'.[d])
      by (destruct d; simpl; split; first [apply Rmin_l | apply Rmin_r]).
    assert (Hu : mx.[d] <= (vec3.max mx c').[d] /\ c'.[d] <= (vec3.max mx c').[d])
      by (destruct d; simpl; split; first [apply Rmax_l | apply Rmax_r]).
    split; [lra|]. split; [lra|].
    intros corner [<-|Hr]; [fold c'; lra | apply Hin; exact Hr].
Qed.

(** ** A tile that contains the map center *)

(** C7: for a tile with [z > 1] whose rectangle contains the center of the
    map, the box of [aabbForTileOnGlobe] contains the four transformed and
    scaled corners of the tile and the projection of the center at height
    0.  The transform carries the globe matrix that [calculateGlobeMatrix]
    builds for it and a positive world size; the tile count and the tile
    extent are positive. *)
Theorem aabbForTileOnGlobe_center_tile (tr : Transform.t) (numTiles : R)
    (tileId : CanonicalTileID.t) :
  (1 < CanonicalTileID.z tileId)%Z ->
  LngLatBounds.contains (tileCornersToBounds tileId) (Transform.center tr) = true ->
  Transform.globeMatrix tr = calculateGlobeMatrix tr ->
  0 < Transform.worldSize tr -> 0 < numTiles -> 0 < EXTENT ->
  let scale := numTiles / Transform.worldSize tr in
  exists box : Aabb.t,
    aabbForTileOnGlobe tr numTiles tileId = Ok box /\
    (forall corner, In corner (boundsToECEF (tileCornersToBounds tileId)) ->
       Aabb.contains box
         (vec3.scale (vec3.transformMat4 corner (Transform.globeMatrix tr)) scale)) /\
    Aabb.contains box
      (mkVec3 (Point.x (Transform.point tr) * scale)
              (Point.y (Transform.point tr) * scale) 0).
Proof.
  intros Hz Hc Hm Hw Hn HE scale.
  assert (Hs : 0 < scale) by (apply Rdiv_lt_0_compat; assumption).
  unfold aabbForTileOnGlobe.
  destruct (CanonicalTileID.z tileId <=? 1)%Z eqn:Ez;
    [apply Z.leb_le in Ez; lia|].
  rewrite Hc. fold scale.
  set (updated := updateCorners (mkVec3 MAX_VALUE MAX_VALUE MAX_VALUE)
                    (mkVec3 (- MAX_VALUE) (- MAX_VALUE) (- MAX_VALUE))
                    (boundsToECEF (tileCornersToBounds tileId))
                    (Transform.globeMatrix tr) scale).
  set (center := mkVec3 (Point.x (Transform.point tr) * scale)
                        (Point.y (Transform.point tr) * scale) 0).
  eexists. split; [reflexivity|]. split.
  - intros corner Hin d.
    destruct (updateCorners_bounds (boundsToECEF (tileCornersToBounds tileId))
                (Transform.globeMatrix tr) scale
                (mkVec3 MAX_VALUE MAX_VALUE MAX_VALUE)
                (mkVec3 (- MAX_VALUE) (- MAX_VALUE) (- MAX_VALUE)) d)
      as (_ & _ & Hb).
    specialize (Hb corner Hin). fold updated in Hb.
    assert (Hzc : v2 (vec3.scale
                        (vec3.transformMat4 corner (Transform.globeMatrix tr))
                        scale) <= 0).
    { rewrite Hm. unfold calculateGlobeMatrix.
      apply globe_point_below_zero; try assumption; [lra|].
      apply (boundsToECEF_norm (tileCornersToBounds tileId)); exact Hin. }
    set (c' := vec3.scale (vec3.transformMat4 corner (Transform.globeMatrix tr))
                          scale) in *.
    destruct d; cbn [Aabb.min Aabb.max vec3.min vec3.max vget v0 v1 v2] in *.
    + split; [eapply Rle_trans; [apply Rmin_l | apply Hb]
             | eapply Rle_trans; [apply Hb | apply Rmax_l]].
    + split; [eapply Rle_trans; [apply Rmin_l | apply Hb]
             | eapply Rle_trans; [apply Hb | apply Rmax_l]].
    + split; [eapply Rle_trans; [apply Rmin_l | apply Hb]
             | eapply Rle_trans; [exact Hzc | apply Rmax_l]].
  - intros d.
    destruct d; cbn [Aabb.min Aabb.max vec3.min vec3.max vget v0 v1 v2 center];
      split; first [apply Rmin_r | apply Rmax_r].
Qed.

(** ** Tile 2/3/1 seen from the equator during the transition *)

Lemma updateCorners_corners (corners : list Vec3) (m : Mat4) (scale : R) :
  forall cornerMin cornerMax : Vec3,
    snd (updateCorners cornerMin cornerMax corners m scale)
    = map (fun c => vec3.scale (vec3.transformMat4 c m) scale) corners.
Proof.
  induction corners as [|c rest IH]; intros mn mx; simpl.
  - reflexivity.
  - rewrite IH. reflexivity.
Qed.

Lemma updateCorners_min_above (corners : list Vec3) (m : Mat4) (scale : R)
    (d : Dim) (v : R) :
  forall cornerMin cornerMax : Vec3,
    v < cornerMin.[d] ->
    (forall c, In c corners -> v < (vec3.scale (vec3.transformMat4 c m) scale).[d]) ->
    v < (fst (fst (updateCorners cornerMin cornerMax corners m scale))).[d].
Proof.
  induction corners as [|c rest IH]; intros mn mx Hmn Hall; simpl.
  - exact Hmn.
  - apply IH.
    + assert (Hc := Hall c (or_introl eq_refl)).
      destruct d; simpl in *; apply Rmin_glb_lt; assumption.
    + intros c0 Hin. apply Hall. right. exact Hin.
Qed.

Lemma closestArcFrame_arcA (tr : Transform.t) (numTiles : R) (tileId : CanonicalTileID.t) :
  let f := closestArcFrame tr numTiles tileId in
  Frame.arcA f = at_index (Frame.corners f) (Frame.closestArcIdx f).
Proof. reflexivity. Qed.

Lemma closestArcFrame_arcB (tr : Transform.t) (numTiles : R) (tileId : CanonicalTileID.t) :
  let f := closestArcFrame tr numTiles tileId in
  Frame.arcB f = at_index (Frame.corners f) ((Frame.closestArcIdx f + 1) mod 4).
Proof. reflexivity. Qed.

Lemma closestArcFrame_closestArc (tr : Transform.t) (numTiles : R)
    (tileId : CanonicalTileID.t) :
  let f := closestArcFrame tr numTiles tileId in
  Frame.closestArc f
  = Arc.new (Frame.arcA f) (Frame.arcB f) (Arc.center (Frame.closestArc f)).
Proof. reflexivity. Qed.

Lemma closestArcFrame_arcBounds (tr : Transform.t) (numTiles : R)
    (tileId : CanonicalTileID.t) :
  let f := closestArcFrame tr numTiles tileId in
  Frame.arcBounds f
  = mkVec3 (opt_or (localExtremum (Frame.closestArc f) DimX) (v0 (Frame.arcA f)))
           (opt_or (localExtremum (Frame.closestArc f) DimY) (v1 (Frame.arcA f)))
           (opt_or (localExtremum (Frame.closestArc f) DimZ) (v2 (Frame.arcA f))).
Proof. reflexivity. Qed.

Lemma normalize_scaled (k ux uy uz : R) :
  0 < k -> ux * ux + uy * uy + uz * uz = 1 ->
  vec3.normalize (mkVec3 (k * ux) (k * uy) (k * uz)) = mkVec3 ux uy uz.
Proof.
  intros Hk Hu. unfold vec3.normalize. cbn [v0 v1 v2].
  replace (k * ux * (k * ux) + k * uy * (k * uy) + k * uz * (k * uz))
    with (k * k) by (transitivity (k * k * (ux * ux + uy * uy + uz * uz));
                     [rewrite Hu|]; ring).
  destruct (Rgt_dec (k * k) 0) as [_|G]; [|exfalso; apply G; nra].
  rewrite sqrt_of_square by lra.
  f_equal; field; lra.
Qed.

Section EquatorExample.

Hypothesis facts : planarFacts.

Lemma tile_2_3_1_bounds :
  tileCornersToBounds tile_2_3_1
  = LngLatBounds.mk (LngLat.mk 90 0) (LngLat.mk 180 northLat).
Proof.
  destruct facts as (_ & _ & E1 & E2 & E3 & _).
  unfold tileCornersToBounds, tile_2_3_1.
  cbn [CanonicalTileID.x CanonicalTileID.y CanonicalTileID.z].
  change (shl1 2) with 4%Z.
  replace (3 * (1 / 4)) with (3 / 4) by field.
  replace ((1 + 1) * (1 / 4)) with (1 / 2) by field.
  replace ((3 + 1) * (1 / 4)) with 1 by field.
  replace (1 * (1 / 4)) with (1 / 4) by field.
  rewrite E1, E2, E3. reflexivity.
Qed.

Lemma equator_worldSize_pos : 0 < Transform.worldSize equatorTransform.
Proof.
  unfold equatorTransform. cbn [Transform.worldSize].
  assert (0 < sqrt 2) by (apply sqrt_lt_R0; lra). lra.
Qed.

Lemma mkMat4_eq (a0 a1 a2 a3 a4 a5 a6 a7 a8 a9 a10 a11 a12 a13 a14 a15
                 b0 b1 b2 b3 b4 b5 b6 b7 b8 b9 b10 b11 b12 b13 b14 b15 : R) :
  a0 = b0 -> a1 = b1 -> a2 = b2 -> a3 = b3 ->
  a4 = b4 -> a5 = b5 -> a6 = b6 -> a7 = b7 ->
  a8 = b8 -> a9 = b9 -> a10 = b10 -> a11 = b11 ->
  a12 = b12 -> a13 = b13 -> a14 = b14 -> a15 = b15 ->
  mkMat4 a0 a1 a2 a3 a4 a5 a6 a7 a8 a9 a10 a11 a12 a13 a14 a15
  = mkMat4 b0 b1 b2 b3 b4 b5 b6 b7 b8 b9 b10 b11 b12 b13 b14 b15.
Proof. intros; subst; reflexivity. Qed.

Lemma calculateGlobePosMatrix_equator (x y worldSize : R) :
  calculateGlobePosMatrix x y worldSize 0 0
  = mkMat4 (globeECEFUnitsToPixelScale worldSize) 0 0 0
           0 (globeECEFUnitsToPixelScale worldSize) 0 0
           0 0 (globeECEFUnitsToPixelScale worldSize) 0
           x y (- worldSize / (2 * PI)) 1.
Proof.
  unfold calculateGlobePosMatrix.
  replace (degToRad (- 0)) with 0 by (unfold degToRad; field).
  set (S := globeECEFUnitsToPixelScale worldSize).
  unfold mat4.rotateY, mat4.rotateX, mat4.scale, mat4.translate, mat4.identity.
  cbn [m0 m1 m2 m3 m4 m5 m6 m7 m8 m9 m10 m11 m12 m13 m14 m15 v0 v1 v2].
  rewrite sin_0, cos_0.
  apply mkMat4_eq; ring.
Qed.

Lemma equator_globeMatrix :
  let ws := Transform.worldSize equatorTransform in
  let S := globeECEFUnitsToPixelScale ws in
  Transform.globeMatrix equatorTransform
  = mkMat4 S 0 0 0  0 S 0 0  0 0 S 0  (ws / 2) (ws / 2) (- ws / (2 * PI)) 1.
Proof.
  intros ws S. unfold S, ws, equatorTransform, calculateGlobeMatrix.
  cbn [Transform.globeMatrix Transform.point Transform._center
       Transform.worldSize Point.x Point.y LngLat.lng LngLat.lat].
  apply calculateGlobePosMatrix_equator.
Qed.

(** A point of the sphere, transformed to world space and scaled to the
    tile units of zoom 2. *)
Lemma equator_world_point (ux uy uz : R) :
  vec3.scale
    (vec3.transformMat4
       (mkVec3 (ux * GLOBE_RADIUS) (uy * GLOBE_RADIUS) (uz * GLOBE_RADIUS))
       (Transform.globeMatrix equatorTransform))
    (4 / Transform.worldSize equatorTransform)
  = equatorWorld ux uy uz.
Proof.
  destruct facts as (HE & _).
  assert (Hw := equator_worldSize_pos). assert (Hpi := PI_RGT_0).
  rewrite equator_globeMatrix.
  rewrite transformMat4_affine by reflexivity.
  unfold vec3.scale, equatorWorld.
  cbn [v0 v1 v2 m0 m1 m2 m4 m5 m6 m8 m9 m10 m12 m13 m14].
  set (ws := Transform.worldSize equatorTransform) in *.
  assert (HS := globeScale_radius ws HE).
  set (S := globeECEFUnitsToPixelScale ws) in *.
  f_equal.
  - transitivity (ux * (S * GLOBE_RADIUS) * (4 / ws) + ws / 2 * (4 / ws)); [ring|].
    rewrite HS. field. lra.
  - transitivity (uy * (S * GLOBE_RADIUS) * (4 / ws) + ws / 2 * (4 / ws)); [ring|].
    rewrite HS. field. lra.
  - transitivity (uz * (S * GLOBE_RADIUS) * (4 / ws) + - ws / (2 * PI) * (4 / ws)); [ring|].
    rewrite HS. field. lra.
Qed.

Lemma tile_2_3_1_world_corners :
  map (fun c => vec3.scale
                  (vec3.transformMat4 c (Transform.globeMatrix equatorTransform))
                  (4 / Transform.worldSize equatorTransform))
      (boundsToECEF (tileCornersToBounds tile_2_3_1))
  = [cornerSW; cornerSE; cornerNE; cornerNW].
Proof.
  rewrite tile_2_3_1_bounds. unfold boundsToECEF, csLatLngToECEF.
  cbn [LngLatBounds.getNorth LngLatBounds.getSouth LngLatBounds.getWest
       LngLatBounds.getEast LngLatBounds._sw LngLatBounds._ne
       LngLat.lng LngLat.lat map].
  fold northRad.
  replace (degToRad 0) with 0 by (unfold degToRad; field).
  replace (degToRad 90) with (PI / 2) by (unfold degToRad; field).
  replace (degToRad 180) with PI by (unfold degToRad; field).
  rewrite sin_0, cos_0, sin_PI2, cos_PI2, sin_PI, cos_PI.
  unfold cornerSW, cornerSE, cornerNE, cornerNW.
  rewrite <- !equator_world_point.
  repeat (f_equal; try ring).
Qed.

Lemma equator_frame_corners :
  Frame.corners (closestArcFrame equatorTransform 4 tile_2_3_1)
  = [cornerSW; cornerSE; cornerNE; cornerNW].
Proof.
  unfold closestArcFrame. cbn [Frame.corners].
  rewrite updateCorners_corners. exact tile_2_3_1_world_corners.
Qed.

Lemma equator_frame_cam :
  Frame.camX (closestArcFrame equatorTransform 4 tile_2_3_1) = 1 / 2 /\
  Frame.camY (closestArcFrame equatorTransform 4 tile_2_3_1) = 1 / 2.
Proof.
  destruct facts as (_ & HM & _ & _ & _ & _ & EX & _ & EY & _).
  unfold closestArcFrame. cbn [Frame.camX Frame.camY].
  unfold equatorTransform, Transform.center.
  cbn [Transform._center LngLat.lng LngLat.lat].
  unfold clamp. rewrite (Rmax_right (- MAX_MERCATOR_LATITUDE) 0) by lra.
  rewrite (Rmin_right MAX_MERCATOR_LATITUDE 0) by lra.
  split; assumption.
Qed.

Lemma equator_frame_idx :
  Frame.closestArcIdx (closestArcFrame equatorTransform 4 tile_2_3_1) = 3%nat.
Proof.
  destruct facts as (_ & HM & _ & _ & _ & _ & EX & EX' & EY & HY).
  unfold closestArcFrame. cbn [Frame.closestArcIdx].
  rewrite tile_2_3_1_bounds.
  unfold equatorTransform, Transform.center, LngLatBounds.getCenter.
  cbn [Transform._center LngLat.lng LngLat.lat LngLatBounds._sw LngLatBounds._ne].
  replace ((90 + 180) / 2) with 135 by field.
  replace ((0 + northLat) / 2) with (latFromMercatorY (1 / 4) / 2)
    by (unfold northLat; field).
  replace (clamp 0 (- MAX_MERCATOR_LATITUDE) MAX_MERCATOR_LATITUDE) with 0.
  2:{ unfold clamp. rewrite (Rmax_right (- MAX_MERCATOR_LATITUDE) 0) by lra.
      rewrite (Rmin_right MAX_MERCATOR_LATITUDE 0) by lra. reflexivity. }
  rewrite EX, EX', EY.
  set (dy := 1 / 2 - mercatorYfromLat _) in *.
  destruct (Rgt_dec (1 / 2 - 7 / 8) (1 / 2)) as [G|_]; [lra|].
  destruct (Rlt_dec (1 / 2 - 7 / 8) (- (1 / 2))) as [L|_]; [lra|].
  destruct (Rgt_dec (Rabs (1 / 2 - 7 / 8)) (Rabs dy)) as [_|G].
  - destruct (Rge_dec (1 / 2 - 7 / 8) 0) as [G|_]; [lra|reflexivity].
  - exfalso. apply G. rewrite (Rabs_left (1 / 2 - 7 / 8)) by lra. lra.
Qed.

Lemma northRad_range : 0 < northRad < PI / 2.
Proof.
  destruct facts as (_ & _ & _ & _ & _ & HN & _).
  unfold northRad, degToRad. fold northLat in HN.
  assert (Hpi := PI_RGT_0). split; nra.
Qed.

Lemma equator_frame_arcCenter :
  Arc.center (Frame.closestArc (closestArcFrame equatorTransform 4 tile_2_3_1))
  = mkVec3 2 2 (- (2 / PI)).
Proof.
  destruct facts as (_ & HM & _ & _ & _ & _ & EX & EX' & EY & HY).
  assert (Hw := equator_worldSize_pos). assert (Hpi := PI_RGT_0).
  unfold closestArcFrame. cbn [Frame.closestArc Arc.new Arc.center].
  rewrite tile_2_3_1_bounds, equator_globeMatrix.
  cbn [m4 m5 m6 m12 m13 m14].
  set (ws := Transform.worldSize equatorTransform) in *.
  unfold equatorTransform, Transform.center, LngLatBounds.getCenter.
  cbn [Transform._center LngLat.lng LngLat.lat LngLatBounds._sw LngLatBounds._ne].
  replace ((90 + 180) / 2) with 135 by field.
  replace ((0 + northLat) / 2) with (latFromMercatorY (1 / 4) / 2)
    by (unfold northLat; field).
  replace (clamp 0 (- MAX_MERCATOR_LATITUDE) MAX_MERCATOR_LATITUDE) with 0.
  2:{ unfold clamp. rewrite (Rmax_right (- MAX_MERCATOR_LATITUDE) 0) by lra.
      rewrite (Rmin_right MAX_MERCATOR_LATITUDE 0) by lra. reflexivity. }
  rewrite EX, EX', EY.
  set (dy := 1 / 2 - mercatorYfromLat _) in *.
  destruct (Rgt_dec (1 / 2 - 7 / 8) (1 / 2)) as [G|_]; [lra|].
  destruct (Rlt_dec (1 / 2 - 7 / 8) (- (1 / 2))) as [L|_]; [lra|].
  destruct (Rgt_dec (Rabs (1 / 2 - 7 / 8)) (Rabs dy)) as [_|G].
  - f_equal; field; lra.
  - exfalso. apply G. rewrite (Rabs_left (1 / 2 - 7 / 8)) by lra. lra.
Qed.

Lemma equator_frame_arc :
  let f := closestArcFrame equatorTransform 4 tile_2_3_1 in
  Frame.arcA f = cornerNW /\ Frame.arcB f = cornerSW /\
  Frame.closestArc f = Arc.new cornerNW cornerSW (mkVec3 2 2 (- (2 / PI))).
Proof.
  intros f.
  assert (EA : Frame.arcA f = cornerNW).
  { unfold f. rewrite closestArcFrame_arcA, equator_frame_corners, equator_frame_idx.
    reflexivity. }
  assert (EB : Frame.arcB f = cornerSW).
  { unfold f. rewrite closestArcFrame_arcB, equator_frame_corners, equator_frame_idx.
    reflexivity. }
  split; [exact EA|]. split; [exact EB|].
  unfold f. rewrite closestArcFrame_closestArc. fold f.
  rewrite EA, EB. unfold f. rewrite equator_frame_arcCenter. reflexivity.
Qed.

(** The closest edge of the tile is the western one, an arc of the
    meridian at 90 degrees east whose angle is the northern latitude. *)
Lemma equator_arc_parts :
  let arc := Arc.new cornerNW cornerSW (mkVec3 2 2 (- (2 / PI))) in
  Arc.angle arc = northRad /\
  (Arc.a arc).[DimY] = - (2 / PI * sin northRad) /\
  (Arc.b arc).[DimY] = 0.
Proof.
  intros arc. assert (Hpi := PI_RGT_0). assert (HN := northRad_range).
  assert (Hk : 0 < 2 / PI) by (apply Rdiv_lt_0_compat; lra).
  split; [|split].
  - unfold arc, Arc.new. cbn [Arc.angle].
    replace (vec3.sub cornerNW (mkVec3 2 2 (- (2 / PI))))
      with (mkVec3 (2 / PI * cos northRad) (2 / PI * (- sin northRad)) (2 / PI * 0))
      by (unfold cornerNW, equatorWorld, vec3.sub; cbn [v0 v1 v2]; f_equal; ring).
    replace (vec3.sub cornerSW (mkVec3 2 2 (- (2 / PI))))
      with (mkVec3 (2 / PI * 1) (2 / PI * 0) (2 / PI * 0))
      by (unfold cornerSW, equatorWorld, vec3.sub; cbn [v0 v1 v2]; f_equal; ring).
    rewrite !normalize_scaled; try exact Hk; try ring.
    + unfold vec3.dot. cbn [v0 v1 v2].
      replace (cos northRad * 1 + - sin northRad * 0 + 0 * 0) with (cos northRad) by ring.
      apply acos_cos. lra.
    + generalize (sqr_sin_cos northRad). lra.
  - unfold arc, Arc.new, cornerNW, equatorWorld, vec3.sub; simpl. ring.
  - unfold arc, Arc.new, cornerSW, equatorWorld, vec3.sub; simpl. ring.
Qed.

Lemma equator_arc_no_extremum_y :
  localExtremum (Arc.new cornerNW cornerSW (mkVec3 2 2 (- (2 / PI)))) DimY = None.
Proof.
  destruct equator_arc_parts as (Eang & Ea & Eb).
  assert (Hpi := PI_RGT_0). assert (HN := northRad_range).
  assert (Hs : 0 < sin northRad) by (apply sin_gt_0; lra).
  assert (Hc : 0 < cos northRad) by (apply cos_gt_0; lra).
  assert (Hk : 0 < 2 / PI) by (apply Rdiv_lt_0_compat; lra).
  apply localExtremum_before_start; [lra|].
  unfold localExtremum_t. rewrite Eang, Ea, Eb.
  destruct (Req_dec_T (- (2 / PI * sin northRad)) 0) as [E|_]; [nra|].
  rewrite inv_tan by exact Hs.
  replace (0 / - (2 / PI * sin northRad) / sin northRad) with 0
    by (unfold Rdiv; ring).
  assert (Hq : 0 < cos northRad / sin northRad) by (apply Rdiv_lt_0_compat; lra).
  assert (Hat : atan (0 - cos northRad / sin northRad) < 0).
  { apply Rlt_le_trans with (atan 0);
      [apply atan_increasing; lra | rewrite atan_0; lra]. }
  assert (Hi : 0 < 1 / northRad) by (apply Rdiv_lt_0_compat; lra).
  nra.
Qed.

Lemma equator_phase :
  globeToMercatorTransition (Transform.zoom equatorTransform) = 1 / 2.
Proof.
  unfold equatorTransform. cbn [Transform.zoom].
  rewrite globeToMercatorTransition_inside by lra. field.
Qed.

Lemma tile_2_3_1_mercatorCorners :
  mercatorTileCornersInCameraSpace tile_2_3_1 4 1 (1 / 2) (1 / 2)
  = [mkVec3 3 2 0; mkVec3 4 2 0; mkVec3 3 1 0; mkVec3 4 1 0].
Proof.
  unfold mercatorTileCornersInCameraSpace, tile_2_3_1.
  cbn [CanonicalTileID.x CanonicalTileID.y CanonicalTileID.z].
  change (shl1 2) with 4%Z.
  destruct (Rgt_dec ((3 * (1 / 4) + (3 * (1 / 4) + 1 / 4)) / 2 - 1 / 2) (1 / 2))
    as [G|_]; [lra|].
  destruct (Rlt_dec ((3 * (1 / 4) + (3 * (1 / 4) + 1 / 4)) / 2 - 1 / 2) (- (1 / 2)))
    as [L|_]; [lra|].
  repeat (f_equal; try field).
Qed.

Lemma equator_transition_frame :
  let f0 := closestArcFrame equatorTransform 4 tile_2_3_1 in
  let f1 := transitionFrame equatorTransform 4 tile_2_3_1 f0 in
  Frame.corners f1
  = [interpolateArray cornerSW (mkVec3 3 2 0) (1 / 2);
     interpolateArray cornerSE (mkVec3 4 2 0) (1 / 2);
     interpolateArray cornerNE (mkVec3 3 1 0) (1 / 2);
     interpolateArray cornerNW (mkVec3 4 1 0) (1 / 2)] /\
  Frame.arcBounds f1
  = interpolateArray (Frame.arcBounds f0)
      (interpolateArray (mkVec3 4 1 0) (mkVec3 3 2 0) (1 / 2)) (1 / 2) /\
  Frame.cornerMin f1 = Frame.cornerMin f0 /\
  Frame.cornerMax f1 = Frame.cornerMax f0 /\
  Frame.arcA f1 = Frame.arcA f0 /\
  Frame.arcB f1 = Frame.arcB f0.
Proof.
  intros f0 f1. unfold f1, transitionFrame.
  rewrite equator_phase.
  destruct (Rgt_dec (1 / 2) 0) as [_|G]; [|exfalso; apply G; lra].
  destruct (Rlt_dec (1 / 2) 1) as [_|L]; [|exfalso; apply L; lra].
  cbn [Frame.corners Frame.arcBounds Frame.cornerMin Frame.cornerMax
       Frame.arcA Frame.arcB].
  destruct equator_frame_cam as [EX EY]. fold f0 in EX, EY.
  rewrite EX, EY.
  replace (Transform._pixelsPerMercatorPixel equatorTransform) with 1 by reflexivity.
  rewrite tile_2_3_1_mercatorCorners.
  assert (EC := equator_frame_corners). fold f0 in EC. rewrite EC.
  assert (EI := equator_frame_idx). fold f0 in EI. rewrite EI.
  repeat split; reflexivity.
Qed.

Lemma equator_cornerMin_above (v : R) :
  v < MAX_VALUE ->
  v < v1 cornerSW -> v < v1 cornerSE -> v < v1 cornerNE -> v < v1 cornerNW ->
  v < v1 (Frame.cornerMin (closestArcFrame equatorTransform 4 tile_2_3_1)).
Proof.
  intros HM H0 H1 H2 H3.
  unfold closestArcFrame. cbn [Frame.cornerMin].
  apply (updateCorners_min_above _ _ _ DimY); [exact HM|].
  intros c Hin.
  apply (in_map (fun c => vec3.scale
                   (vec3.transformMat4 c (Transform.globeMatrix equatorTransform))
                   (4 / Transform.worldSize equatorTransform))) in Hin.
  rewrite tile_2_3_1_world_corners in Hin.
  destruct Hin as [<-|[<-|[<-|[<-|[]]]]]; assumption.
Qed.

Lemma tile_2_3_1_off_center :
  LngLatBounds.contains (tileCornersToBounds tile_2_3_1)
                        (Transform.center equatorTransform) = false.
Proof.
  rewrite tile_2_3_1_bounds.
  unfold LngLatBounds.contains, equatorTransform, Transform.center.
  cbn [Transform._center LngLat.lng LngLat.lat LngLatBounds.getWest
       LngLatBounds._sw].
  destruct (Rle_dec 90 0) as [L|_]; [lra|].
  rewrite andb_false_r. reflexivity.
Qed.

End EquatorExample.

Lemma MAX_VALUE_large : 2 < MAX_VALUE.
Proof.
  unfold MAX_VALUE.
  assert (H52 : 1 <= 2 ^ 52) by (apply pow_R1_Rle; lra).
  assert (Hi : / 2 ^ 52 <= 1).
  { rewrite <- Rinv_1. apply Rinv_le_contravar; lra. }
  assert (Hp : 2 ^ 2 <= 2 ^ 1023) by (apply Rle_pow; [lra | lia]).
  simpl in Hp. nra.
Qed.

(** C1, at the failing input: for the camera over [(0, 0)] at zoom 5.5 and
    tile 2/3/1 the transition factor is 1/2, and the north-eastern corner,
    once interpolated toward its Mercator position, is left of no use: its
    second coordinate is below the minimum of the returned box, which
    therefore does not contain it. *)
Theorem aabbForTileOnGlobe_drops_interpolated_corner :
  planarFacts ->
  let tr := equatorTransform in
  let phase := globeToMercatorTransition (Transform.zoom tr) in
  let f := returnFrame tr 4 tile_2_3_1 in
  let box := Aabb.mk (Frame.cornerMin f) (Frame.cornerMax f) in
  let corner := interpolateArray cornerNE (mkVec3 3 1 0) phase in
  0 < phase < 1 /\
  aabbForTileOnGlobe tr 4 tile_2_3_1 = Ok box /\
  at_index (Frame.corners f) 2 = corner /\
  v1 corner < v1 (Aabb.min box) /\
  ~ Aabb.contains box corner.
Proof.
  intros facts tr phase f box corner.
  assert (Hph : phase = 1 / 2) by (apply equator_phase).
  assert (Hpi := PI_RGT_0).
  assert (HN := northRad_range facts).
  assert (Hs : 0 < sin northRad <= 1).
  { split; [apply sin_gt_0; lra | apply SIN_bound]. }
  assert (Hk : 0 < 2 / PI < 1).
  { split; [apply Rdiv_lt_0_compat; lra|].
    apply Rmult_lt_reg_r with PI; [lra|]. unfold Rdiv.
    rewrite Rmult_assoc, Rinv_l by lra. generalize PI2_1; intros; lra. }
  destruct (equator_transition_frame facts) as (EC & EB & EMin & EMax & EA & EBb).
  destruct (equator_frame_arc facts) as (EarcA & EarcB & Earc).
  set (f0 := closestArcFrame equatorTransform 4 tile_2_3_1) in *.
  set (f1 := transitionFrame equatorTransform 4 tile_2_3_1 f0) in *.
  assert (Ef : f = finishFrame f1) by reflexivity.
  assert (Ecorner : at_index (Frame.corners f) 2 = corner).
  { rewrite Ef. unfold finishFrame. cbn [Frame.corners]. rewrite EC.
    unfold corner. rewrite Hph. reflexivity. }
  assert (Ey : v1 corner = 3 / 2 - 2 / PI * sin northRad / 2).
  { unfold corner. rewrite Hph.
    unfold interpolateArray, interpolate, cornerNE, equatorWorld.
    cbn [v0 v1 v2]. field. lra. }
  assert (Hbounds : v1 (Frame.arcBounds f0) = v1 cornerNW).
  { unfold f0. rewrite closestArcFrame_arcBounds. fold f0. cbn [v1].
    rewrite Earc, (equator_arc_no_extremum_y facts), EarcA. reflexivity. }
  assert (HyNW : v1 cornerNW = 2 - 2 / PI * sin northRad).
  { unfold cornerNW, equatorWorld. cbn [v1]. ring. }
  assert (Hlt : v1 corner < v1 (Aabb.min box)).
  { unfold box. cbn [Aabb.min]. rewrite Ef. unfold finishFrame.
    cbn [Frame.cornerMin vec3.min v0 v1 v2].
    apply Rmin_glb_lt.
    - rewrite EMin. apply (equator_cornerMin_above facts).
      + generalize MAX_VALUE_large. nra.
      + unfold cornerSW, equatorWorld; cbn [v1]. nra.
      + unfold cornerSE, equatorWorld; cbn [v1]. nra.
      + unfold cornerNE, equatorWorld; cbn [v1]. nra.
      + rewrite HyNW. nra.
    - rewrite EB. unfold interpolateArray at 1. cbn [v1].
      rewrite Hbounds, HyNW. unfold interpolateArray, interpolate. cbn [v1].
      nra. }
  split; [rewrite Hph; lra|].
  split.
  - unfold aabbForTileOnGlobe, tr.
    change (CanonicalTileID.z tile_2_3_1 <=? 1)%Z with false.
    cbv zeta. rewrite (tile_2_3_1_off_center facts). reflexivity.
  - split; [exact Ecorner|]. split; [exact Hlt|].
    intros Hc. specialize (Hc DimY). cbn [vget] in Hc. lra.
Qed.

End Properties.

(** * The Web-Mercator instance *)

Lemma webMercator_north_atan :
  PI / 4 < atan (exp (PI / 2)) < PI / 2.
Proof.
  assert (Hpi := PI_RGT_0).
  split.
  - rewrite <- atan_1. apply atan_increasing.
    rewrite <- exp_0. apply exp_increasing. lra.
  - destruct (atan_bound (exp (PI / 2))) as [_ Hu]. exact Hu.
Qed.

Lemma webMercator_northLat :
  @northLat WebMercator.imports = 360 / PI * atan (exp (PI / 2)) - 90.
Proof.
  unfold northLat. cbn [latFromMercatorY WebMercator.imports].
  unfold WebMercator.latFromMercatorY.
  replace ((180 - 1 / 4 * 360) * PI / 180) with (PI / 2) by field.
  reflexivity.
Qed.

Lemma webMercator_northLat_range : 0 < @northLat WebMercator.imports < 90.
Proof.
  rewrite webMercator_northLat.
  assert (Hpi := PI_RGT_0). destruct webMercator_north_atan as [Hl Hu].
  assert (Hi : 0 < 360 / PI) by (apply Rdiv_lt_0_compat; lra).
  assert (E1 : 360 / PI * (PI / 4) = 90) by (field; lra).
  assert (E2 : 360 / PI * (PI / 2) = 180) by (field; lra).
  assert (L1 := Rmult_lt_compat_l _ _ _ Hi Hl).
  assert (L2 := Rmult_lt_compat_l _ _ _ Hi Hu).
  lra.
Qed.

(** The planar latitude coordinate decreases from the equator up to the
    northern edge of the tile row. *)
Lemma webMercator_mercatorY_between (lat : R) :
  0 < lat < @northLat WebMercator.imports ->
  1 / 4 < WebMercator.mercatorYfromLat lat < 1 / 2.
Proof.
  intros Hl. assert (Hpi := PI_RGT_0).
  assert (HN := webMercator_northLat_range).
  assert (EN := webMercator_northLat).
  destruct webMercator_north_atan as [Ha1 Ha2].
  unfold WebMercator.mercatorYfromLat.
  set (x := PI / 4 + lat * PI / 360).
  assert (Hx : PI / 4 < x < atan (exp (PI / 2))).
  { unfold x. split; [nra|].
    replace (atan (exp (PI / 2)))
      with (PI / 4 + @northLat WebMercator.imports * PI / 360)
      by (rewrite EN; field; lra).
    nra. }
  assert (Ht1 : 1 < tan x).
  { rewrite <- tan_PI4. apply tan_increasing; lra. }
  assert (Ht2 : tan x < exp (PI / 2)).
  { rewrite <- (tan_atan (exp (PI / 2))). apply tan_increasing; lra. }
  assert (Hl1 : 0 < ln (tan x)).
  { rewrite <- ln_1. apply ln_increasing; lra. }
  assert (Hl2 : ln (tan x) < PI / 2).
  { rewrite <- (ln_exp (PI / 2)). apply ln_increasing; lra. }
  assert (Hi : 0 < 180 / PI) by (apply Rdiv_lt_0_compat; lra).
  assert (Hb : 180 / PI * ln (tan x) < 90).
  { replace 90 with (180 / PI * (PI / 2)) by (field; lra). nra. }
  assert (Hc : 0 < 180 / PI * ln (tan x)) by nra.
  split; lra.
Qed.

Lemma webMercator_planarFacts : @planarFacts WebMercator.imports.
Proof.
  assert (Hpi := PI_RGT_0). assert (HN := webMercator_northLat_range).
  unfold planarFacts.
  cbn [EXTENT MAX_MERCATOR_LATITUDE lngFromMercatorX latFromMercatorY
       mercatorXfromLng mercatorYfromLat WebMercator.imports].
  fold (@northLat WebMercator.imports).
  split; [lra|]. split; [lra|].
  split; [unfold WebMercator.lngFromMercatorX; field|].
  split; [unfold WebMercator.lngFromMercatorX; field|].
  split.
  { unfold WebMercator.latFromMercatorY.
    replace ((180 - 1 / 2 * 360) * PI / 180) with 0 by field.
    rewrite exp_0, atan_1. field. lra. }
  split; [exact HN|].
  split; [unfold WebMercator.mercatorXfromLng; field|].
  split; [unfold WebMercator.mercatorXfromLng; field|].
  split.
  { unfold WebMercator.mercatorYfromLat.
    replace (PI / 4 + 0 * PI / 360) with (PI / 4) by field.
    rewrite tan_PI4, ln_1. field. lra. }
  change (Rabs (1 / 2 - WebMercator.mercatorYfromLat
                          (clamp (@northLat WebMercator.imports / 2)
                                 (- (85051129 / 1000000)) (85051129 / 1000000)))
          < 3 / 8).
  assert (Ec : clamp (@northLat WebMercator.imports / 2)
                     (- (85051129 / 1000000)) (85051129 / 1000000)
               = @northLat WebMercator.imports / 2).
  { unfold clamp. rewrite Rmax_right by lra. rewrite Rmin_right by lra.
    reflexivity. }
  rewrite Ec.
  destruct (webMercator_mercatorY_between (@northLat WebMercator.imports / 2))
    as [H1 H2]; [lra|].
  apply Rabs_def1; lra.
Qed.

(** * Witnesses *)

Lemma aabbForTileOnGlobe_drops_interpolated_corner_witness :
  let tr := @equatorTransform WebMercator.imports in
  let phase := globeToMercatorTransition (Transform.zoom tr) in
  let f := @returnFrame WebMercator.imports tr 4 tile_2_3_1 in
  let box := Aabb.mk (Frame.cornerMin f) (Frame.cornerMax f) in
  let corner := interpolateArray (@cornerNE WebMercator.imports) (mkVec3 3 1 0) phase in
  0 < phase < 1 /\
  @aabbForTileOnGlobe WebMercator.imports tr 4 tile_2_3_1 = Ok box /\
  at_index (Frame.corners f) 2 = corner /\
  v1 corner < v1 (Aabb.min box) /\
  ~ Aabb.contains box corner.
Proof.
  exact (@aabbForTileOnGlobe_drops_interpolated_corner WebMercator.imports
           webMercator_planarFacts).
Defined.

Lemma globeTileBounds_zoom0_witness :
  @globeTileBounds WebMercator.imports (CanonicalTileID.mk 0 0 0)
  = Some (Aabb.mk (mkVec3 (- (512 / (2 * PI))) (- (512 / (2 * PI))) (- (512 / (2 * PI))))
                  (mkVec3 (512 / (2 * PI)) (512 / (2 * PI)) (512 / (2 * PI)))).
Proof.
  exact (@globeTileBounds_zoom0 WebMercator.imports eq_refl).
Defined.

Lemma latLngToECEF_spec_witness :
  @latLngToECEF WebMercator.imports 91 0 None
  = Throw (AssertionError "Lattitude must be between -90 and 90") /\
  @latLngToECEF WebMercator.imports 0 0 (Some 1)
  = Ok (mkVec3 (cos (degToRad 0) * sin (degToRad 0) * 1)
               (- sin (degToRad 0) * 1)
               (cos (degToRad 0) * cos (degToRad 0) * 1)).
Proof.
  split.
  - apply (proj1 (@latLngToECEF_spec WebMercator.imports 91 0 None)). lra.
  - apply (proj2 (@latLngToECEF_spec WebMercator.imports 0 0 (Some 1))). lra.
Defined.

Lemma arcBounds_fallback_witness :
  let f := @closestArcFrame WebMercator.imports
             (@equatorTransform WebMercator.imports) 4 tile_2_3_1 in
  (Frame.arcBounds f).[DimY] = (Frame.arcA f).[DimY].
Proof.
  apply (@arcBounds_fallback WebMercator.imports).
  left.
  destruct (@equator_frame_arc WebMercator.imports webMercator_planarFacts)
    as (_ & _ & E).
  rewrite E.
  exact (@equator_arc_no_extremum_y WebMercator.imports webMercator_planarFacts).
Defined.

Lemma tile_2_2_1_has_center :
  LngLatBounds.contains (@tileCornersToBounds WebMercator.imports tile_2_2_1)
    (Transform.center (@equatorTransform WebMercator.imports)) = true.
Proof.
  assert (HN := webMercator_northLat_range).
  destruct webMercator_planarFacts as (_ & _ & E1 & _ & E3 & _).
  cbn [lngFromMercatorX latFromMercatorY WebMercator.imports] in E1, E3.
  unfold tileCornersToBounds, tile_2_2_1.
  cbn [CanonicalTileID.x CanonicalTileID.y CanonicalTileID.z
       lngFromMercatorX latFromMercatorY WebMercator.imports].
  change (shl1 2) with 4%Z.
  replace (2 * (1 / 4)) with (1 / 2) by field.
  replace ((1 + 1) * (1 / 4)) with (1 / 2) by field.
  replace ((2 + 1) * (1 / 4)) with (3 / 4) by field.
  replace (1 * (1 / 4)) with (1 / 4) by field.
  rewrite E1, E3.
  replace (WebMercator.lngFromMercatorX (1 / 2)) with 0
    by (unfold WebMercator.lngFromMercatorX; field).
  change (WebMercator.latFromMercatorY (1 / 4)) with (@northLat WebMercator.imports).
  unfold LngLatBounds.contains, equatorTransform, Transform.center.
  cbn [Transform._center LngLat.lng LngLat.lat LngLatBounds.getWest
       LngLatBounds.getEast LngLatBounds.getNorth LngLatBounds.getSouth
       LngLatBounds._sw LngLatBounds._ne].
  destruct (Rle_dec 0 0) as [_|n]; [|exfalso; apply n; lra].
  destruct (Rle_dec 0 (@northLat WebMercator.imports)) as [_|n];
    [|exfalso; apply n; lra].
  destruct (Rle_dec 0 90) as [_|n]; [|exfalso; apply n; lra].
  reflexivity.
Qed.

Lemma aabbForTileOnGlobe_center_tile_witness :
  let tr := @equatorTransform WebMercator.imports in
  let scale := 4 / Transform.worldSize tr in
  exists box : Aabb.t,
    @aabbForTileOnGlobe WebMercator.imports tr 4 tile_2_2_1 = Ok box /\
    (forall corner,
       In corner (@boundsToECEF WebMercator.imports
                    (@tileCornersToBounds WebMercator.imports tile_2_2_1)) ->
       Aabb.contains box
         (vec3.scale (vec3.transformMat4 corner (Transform.globeMatrix tr)) scale)) /\
    Aabb.contains box
      (mkVec3 (Point.x (Transform.point tr) * scale)
              (Point.y (Transform.point tr) * scale) 0).
Proof.
  apply (@aabbForTileOnGlobe_center_tile WebMercator.imports
           (@equatorTransform WebMercator.imports) 4 tile_2_2_1).
  - reflexivity.
  - exact tile_2_2_1_has_center.
  - reflexivity.
  - exact (@equator_worldSize_pos WebMercator.imports).
  - lra.
  - cbn [EXTENT WebMercator.imports]. lra.
Defined.

(** * Further properties of the arc code *)

(** X1: [slerp] starts at the first value and ends at the second, whenever the
    sine of the angle is not zero. *)
Theorem slerp_endpoints (a b angle : R) :
  sin angle <> 0 ->
  slerp a b angle 0 = a /\ slerp a b angle 1 = b.
Proof.
  intros Hs. unfold slerp.
  replace ((1 - 0) * angle) with angle by ring.
  replace (0 * angle) with 0 by ring.
  replace ((1 - 1) * angle) with 0 by ring.
  replace (1 * angle) with angle by ring.
  rewrite sin_0. split; field; exact Hs.
Qed.

Lemma slerp_endpoints_witness :
  slerp 3 5 (PI / 2) 0 = 3 /\ slerp 3 5 (PI / 2) 1 = 5.
Proof.
  apply (slerp_endpoints 3 5 (PI / 2)).
  rewrite sin_PI2. lra.
Defined.

Lemma derivable_pt_lim_ext (f g : R -> R) (x l : R) :
  (forall t, f t = g t) -> derivable_pt_lim f x l -> derivable_pt_lim g x l.
Proof.
  intros E Hf eps Heps. destruct (Hf eps Heps) as [delta Hd].
  exists delta. intros h Hh Hlt. rewrite <- !E. apply Hd; assumption.
Qed.

Lemma derivable_pt_lim_affine (k c x : R) :
  derivable_pt_lim (fun t => k * t + c) x k.
Proof.
  intros eps Heps. exists (mkposreal 1 Rlt_0_1). intros h Hh _.
  replace ((k * (x + h) + c - (k * x + c)) / h - k) with 0 by (field; exact Hh).
  rewrite Rabs_R0. exact Heps.
Qed.

Lemma derivable_pt_lim_sin_affine (k c x : R) :
  derivable_pt_lim (fun t => sin (k * t + c)) x (cos (k * x + c) * k).
Proof.
  apply (derivable_pt_lim_comp (fun t => k * t + c) sin).
  - apply derivable_pt_lim_affine.
  - apply derivable_pt_lim_sin.
Qed.

(** The derivative of [slerp] in its parameter. *)
Lemma derivable_pt_lim_slerp (a b angle t : R) :
  derivable_pt_lim (fun t => slerp a b angle t) t
    (a / sin angle * (cos ((1 - t) * angle) * - angle)
     + b / sin angle * (cos (t * angle) * angle)).
Proof.
  apply derivable_pt_lim_ext
    with (f := plus_fct
                 (mult_real_fct (a / sin angle)
                    (fun t => sin (- angle * t + angle)))
                 (mult_real_fct (b / sin angle)
                    (fun t => sin (angle * t + 0)))).
  - intros u. unfold plus_fct, mult_real_fct, slerp.
    replace (- angle * u + angle) with ((1 - u) * angle) by ring.
    replace (angle * u + 0) with (u * angle) by ring.
    unfold Rdiv. ring.
  - replace ((1 - t) * angle) with (- angle * t + angle) by ring.
    replace (t * angle) with (angle * t + 0) by ring.
    apply derivable_pt_lim_plus; apply derivable_pt_lim_scal;
      apply derivable_pt_lim_sin_affine.
Qed.

(** X2: the parameter that [localExtremum] computes is a stationary point of
    [slerp] on that dimension: the derivative in [t] is zero there, for
    every arc whose angle lies strictly between 0 and [PI]. *)
Theorem localExtremum_t_stationary (arc : Arc.t) (dim : Dim) :
  0 < Arc.angle arc < PI ->
  derivable_pt_lim
    (fun t => slerp (Arc.a arc).[dim] (Arc.b arc).[dim] (Arc.angle arc) t)
    (localExtremum_t arc dim) 0.
Proof.
  intros Hang.
  assert (Hs : 0 < sin (Arc.angle arc)) by (apply sin_gt_0; lra).
  set (a := (Arc.a arc).[dim]). set (b := (Arc.b arc).[dim]).
  set (theta := Arc.angle arc) in *.
  assert (Ht : theta <> 0) by lra.
  assert (D := derivable_pt_lim_slerp a b theta (localExtremum_t arc dim)).
  replace 0 with
    (a / sin theta * (cos ((1 - localExtremum_t arc dim) * theta) * - theta)
     + b / sin theta * (cos (localExtremum_t arc dim * theta) * theta));
    [exact D|].
  clear D. unfold localExtremum_t. fold a b theta.
  destruct (Req_dec_T a 0) as [Ha|Ha].
  - rewrite Ha.
    replace (1 / theta * (1 / 2) * PI * theta) with (PI / 2) by (field; exact Ht).
    rewrite cos_PI2. unfold Rdiv. ring.
  - destruct (slerp_stationary a b theta Ha Hs Ht) as [E1 E2].
    set (phi := atan (b / a / sin theta - 1 / tan theta)) in *.
    set (V := slerp a b theta (1 / theta * phi)) in *.
    replace ((1 - 1 / theta * phi) * theta) with (theta - phi) by (field; exact Ht).
    replace (1 / theta * phi * theta) with phi by (field; exact Ht).
    transitivity
      (V * cos phi / sin theta * (cos (theta - phi) * - theta)
       + V * cos (theta - phi) / sin theta * (cos phi * theta)).
    + rewrite E1, <- E2. reflexivity.
    + field. lra.
Qed.

Lemma localExtremum_t_stationary_witness :
  derivable_pt_lim
    (fun t => slerp (Arc.a arc_60).[DimX] (Arc.b arc_60).[DimX] (Arc.angle arc_60) t)
    (localExtremum_t arc_60 DimX) 0.
Proof.
  apply (localExtremum_t_stationary arc_60 DimX).
  rewrite arc_60_angle. generalize PI_RGT_0; lra.
Defined.

(** * Further properties of the coordinate and tile-bounds code *)

Section MoreProperties.

Context `{Imports}.

Lemma latLngToECEF_in_range (lat lng : R) (radius : option R) :
  -90 <= lat <= 90 ->
  latLngToECEF lat lng radius
  = Ok (csLatLngToECEF (cos (degToRad lat)) (sin (degToRad lat)) lng radius).
Proof.
  intros Hlat. unfold latLngToECEF, assert, Rleb, Rgeb.
  destruct (Rle_dec lat 90) as [_|L]; [|exfalso; lra].
  destruct (Rge_dec lat (-90)) as [_|G]; [|exfalso; lra].
  reflexivity.
Qed.

(** X4: a latitude within range gives a point at the distance of the radius
    from the center of the globe. *)
Theorem latLngToECEF_on_sphere (lat lng : R) (radius : option R) :
  -90 <= lat <= 90 ->
  let r := match radius with Some r => r | None => GLOBE_RADIUS end in
  exists p : Vec3,
    latLngToECEF lat lng radius = Ok p /\
    v0 p * v0 p + v1 p * v1 p + v2 p * v2 p = r * r.
Proof.
  intros Hlat r.
  unfold latLngToECEF, assert, Rleb, Rgeb.
  destruct (Rle_dec lat 90) as [_|L]; [|exfalso; lra].
  destruct (Rge_dec lat (-90)) as [_|G]; [|exfalso; lra].
  cbn [andb bind]. eexists. split; [reflexivity|].
  unfold csLatLngToECEF. cbn [v0 v1 v2]. fold r.
  generalize (sqr_sin_cos (degToRad lat)) (sqr_sin_cos (degToRad lng)).
  intros Ha Hb.
  transitivity (r * r
                * (cos (degToRad lat) * cos (degToRad lat)
                   * (sin (degToRad lng) * sin (degToRad lng)
                      + cos (degToRad lng) * cos (degToRad lng))
                   + sin (degToRad lat) * sin (degToRad lat))); [ring|].
  rewrite Hb.
  replace (cos (degToRad lat) * cos (degToRad lat) * 1
           + sin (degToRad lat) * sin (degToRad lat)) with 1 by lra.
  ring.
Qed.

(** X5: [latLngToECEF] needs no wrapping of the longitude: a full turn more
    gives the same result.  The poles are sent to [(0, -r, 0)] and
    [(0, r, 0)] whatever the longitude. *)
Theorem latLngToECEF_longitude (lat lng r : R) :
  latLngToECEF lat (lng + 360) (Some r) = latLngToECEF lat lng (Some r) /\
  latLngToECEF 90 lng (Some r) = Ok (mkVec3 0 (- r) 0) /\
  latLngToECEF (-90) lng (Some r) = Ok (mkVec3 0 r 0).
Proof.
  assert (Hpi := PI_RGT_0).
  split; [|split].
  - unfold latLngToECEF. destruct (assert _ _) as [[]|e]; cbn [bind]; [|reflexivity].
    unfold csLatLngToECEF.
    replace (degToRad (lng + 360)) with (degToRad lng + 2 * PI)
      by (unfold degToRad; field).
    rewrite sin_plus, cos_plus, sin_2PI, cos_2PI.
    do 2 f_equal; ring.
  - unfold latLngToECEF, assert, Rleb, Rgeb.
    destruct (Rle_dec 90 90) as [_|L]; [|exfalso; lra].
    destruct (Rge_dec 90 (-90)) as [_|G]; [|exfalso; lra].
    cbn [andb bind]. unfold csLatLngToECEF.
    replace (degToRad 90) with (PI / 2) by (unfold degToRad; field).
    rewrite sin_PI2, cos_PI2. do 2 f_equal; ring.
  - unfold latLngToECEF, assert, Rleb, Rgeb.
    destruct (Rle_dec (-90) 90) as [_|L]; [|exfalso; lra].
    destruct (Rge_dec (-90) (-90)) as [_|G]; [|exfalso; lra].
    cbn [andb bind]. unfold csLatLngToECEF.
    replace (degToRad (-90)) with (- (PI / 2)) by (unfold degToRad; field).
    rewrite sin_neg, cos_neg, sin_PI2, cos_PI2. do 2 f_equal; ring.
Qed.

(** X6: neighbouring tiles share their edge: the east side of a tile is the
    west side of the next tile of the row, and its south side is the north
    side of the tile below. *)
Theorem tileCornersToBounds_adjacent (z x y : Z) :
  LngLatBounds.getEast (tileCornersToBounds (CanonicalTileID.mk z x y))
  = LngLatBounds.getWest (tileCornersToBounds (CanonicalTileID.mk z (x + 1) y)) /\
  LngLatBounds.getSouth (tileCornersToBounds (CanonicalTileID.mk z x y))
  = LngLatBounds.getNorth (tileCornersToBounds (CanonicalTileID.mk z x (y + 1))).
Proof.
  unfold tileCornersToBounds, LngLatBounds.getEast, LngLatBounds.getWest,
    LngLatBounds.getSouth, LngLatBounds.getNorth.
  cbn [CanonicalTileID.x CanonicalTileID.y CanonicalTileID.z
       LngLatBounds._sw LngLatBounds._ne LngLat.lng LngLat.lat].
  rewrite !plus_IZR. split; reflexivity.
Qed.

Lemma foldBounds_bounds (corners : list Vec3) (lo hi : R) (d : Dim) :
  (forall p, In p corners -> lo <= p.[d] <= hi) ->
  forall bMin bMax : Vec3,
    lo <= bMin.[d] -> bMax.[d] <= hi ->
    let folded := foldBounds bMin bMax corners in
    lo <= (fst folded).[d] <= bMin.[d] /\
    bMax.[d] <= (snd folded).[d] <= hi /\
    forall p, In p corners -> (fst folded).[d] <= p.[d] <= (snd folded).[d].
Proof.
  induction corners as [|c rest IH]; intros Hall bMin bMax Hlo Hhi; simpl.
  - split; [lra|]. split; [lra|]. intros p [].
  - assert (Hc := Hall c (or_introl eq_refl)).
    set (mn := mkVec3 (Rmin (v0 bMin) (v0 c)) (Rmin (v1 bMin) (v1 c))
                      (Rmin (v2 bMin) (v2 c))).
    set (mx := mkVec3 (Rmax (v0 bMax) (v0 c)) (Rmax (v1 bMax) (v1 c))
                      (Rmax (v2 bMax) (v2 c))).
    assert (Hmn : mn.[d] = Rmin bMin.[d] c.[d]) by (destruct d; reflexivity).
    assert (Hmx : mx.[d] = Rmax bMax.[d] c.[d]) by (destruct d; reflexivity).
    assert (L1 := Rmin_l bMin.[d] c.[d]). assert (L2 := Rmin_r bMin.[d] c.[d]).
    assert (U1 := Rmax_l bMax.[d] c.[d]). assert (U2 := Rmax_r bMax.[d] c.[d]).
    assert (Hlo' : lo <= mn.[d]) by (rewrite Hmn; apply Rmin_glb; lra).
    assert (Hhi' : mx.[d] <= hi) by (rewrite Hmx; apply Rmax_lub; lra).
    destruct (IH (fun p Hp => Hall p (or_intror Hp)) mn mx Hlo' Hhi')
      as ((A1 & A2) & (B1 & B2) & Hin).
    split; [lra|]. split; [lra|].
    intros p [<-|Hp]; [lra | apply Hin; exact Hp].
Qed.

Lemma sphere_coordinate_bound (p : Vec3) (r : R) (d : Dim) :
  0 <= r -> v0 p * v0 p + v1 p * v1 p + v2 p * v2 p = r * r ->
  - r <= p.[d] <= r.
Proof.
  intros Hr Hp.
  assert (S0 := Rle_0_sqr (v0 p)). assert (S1 := Rle_0_sqr (v1 p)).
  assert (S2 := Rle_0_sqr (v2 p)). unfold Rsqr in *.
  destruct d; cbn [vget]; split; nra.
Qed.

(** X7: for a tile with [z > 1], [globeTileBounds] returns a box that contains
    the four corners of the tile on the sphere, lies inside the box of the
    whole sphere and has [min <= max] on every axis. *)
Theorem globeTileBounds_above_zoom1 (id : CanonicalTileID.t) :
  (1 < CanonicalTileID.z id)%Z -> 0 <= EXTENT ->
  exists box : Aabb.t,
    globeTileBounds id = Some box /\
    (forall corner, In corner (boundsToECEF (tileCornersToBounds id)) ->
                    Aabb.contains box corner) /\
    (forall d, - GLOBE_RADIUS <= (Aabb.min box).[d]
               /\ (Aabb.min box).[d] <= (Aabb.max box).[d]
               /\ (Aabb.max box).[d] <= GLOBE_RADIUS).
Proof.
  intros Hz HE.
  assert (Hpi := PI_RGT_0).
  assert (HR : 0 <= GLOBE_RADIUS).
  { unfold GLOBE_RADIUS. apply Rmult_le_pos; [|lra].
    apply Rmult_le_pos; [lra|]. apply Rlt_le, Rinv_0_lt_compat; lra. }
  unfold globeTileBounds.
  destruct (CanonicalTileID.z id <=? 1)%Z eqn:Ez; [apply Z.leb_le in Ez; lia|].
  eexists. split; [reflexivity|].
  set (corners := boundsToECEF (tileCornersToBounds id)).
  assert (Hall : forall d p, In p corners -> - GLOBE_RADIUS <= p.[d] <= GLOBE_RADIUS).
  { intros d p Hp. apply sphere_coordinate_bound; [exact HR|].
    apply (boundsToECEF_norm (tileCornersToBounds id)); exact Hp. }
  assert (Hf : forall d,
             let folded := foldBounds (mkVec3 GLOBE_MAX GLOBE_MAX GLOBE_MAX)
                             (mkVec3 GLOBE_MIN GLOBE_MIN GLOBE_MIN) corners in
             - GLOBE_RADIUS <= (fst folded).[d] /\
             (snd folded).[d] <= GLOBE_RADIUS /\
             forall p, In p corners -> (fst folded).[d] <= p.[d] <= (snd folded).[d]).
  { intros d.
    destruct (foldBounds_bounds corners (- GLOBE_RADIUS) GLOBE_RADIUS d (Hall d)
                (mkVec3 GLOBE_MAX GLOBE_MAX GLOBE_MAX)
                (mkVec3 GLOBE_MIN GLOBE_MIN GLOBE_MIN))
      as ((A1 & _) & (_ & B2) & Hin).
    - destruct d; cbn [vget v0 v1 v2]; unfold GLOBE_MAX; lra.
    - destruct d; cbn [vget v0 v1 v2]; unfold GLOBE_MIN; lra.
    - split; [exact A1|]. split; [exact B2|]. exact Hin. }
  cbn [Aabb.min Aabb.max]. split.
  - intros corner Hin d. apply (Hf d). exact Hin.
  - intros d. destruct (Hf d) as (A & B & Hin).
    assert (Hc := Hin (csLatLngToECEF
                         (cos (degToRad (LngLatBounds.getSouth (tileCornersToBounds id))))
                         (sin (degToRad (LngLatBounds.getSouth (tileCornersToBounds id))))
                         (LngLatBounds.getWest (tileCornersToBounds id)) None)
                      (or_introl eq_refl)).
    repeat split; lra.
Qed.

(** X8: the four boxes of zoom 1 cover the box of zoom 0 and nothing more: a
    point lies in the box of tile [0/0/0] exactly when it lies in the box
    of one of the tiles [1/x/y]. *)
Theorem globeTileBounds_zoom1_cover (p : Vec3) :
  0 <= EXTENT ->
  ((exists box0, globeTileBounds (CanonicalTileID.mk 0 0 0) = Some box0 /\
                 Aabb.contains box0 p)
   <->
   (exists x y box1, (x = 0 \/ x = 1)%Z /\ (y = 0 \/ y = 1)%Z /\
                     globeTileBounds (CanonicalTileID.mk 1 x y) = Some box1 /\
                     Aabb.contains box1 p)).
Proof.
  intros HE.
  assert (Hpi := PI_RGT_0).
  assert (HR : 0 <= GLOBE_RADIUS).
  { unfold GLOBE_RADIUS. apply Rmult_le_pos; [|lra].
    apply Rmult_le_pos; [lra|]. apply Rlt_le, Rinv_0_lt_compat; lra. }
  split.
  - intros (box0 & E0 & Hc).
    unfold globeTileBounds, lookupZ in E0. cbn in E0. injection E0 as <-.
    assert (Hx := Hc DimX). assert (Hy := Hc DimY). assert (Hzz := Hc DimZ).
    cbn [Aabb.min Aabb.max vget v0 v1 v2] in Hx, Hy, Hzz.
    unfold GLOBE_MIN, GLOBE_MAX in *.
    destruct (Rle_dec (v0 p) 0) as [X|X]; destruct (Rle_dec (v1 p) 0) as [Y|Y].
    + exists 0%Z, 0%Z. eexists. split; [auto|]. split; [auto|].
      split; [reflexivity|]. intros d; destruct d;
        cbn [Aabb.min Aabb.max vget v0 v1 v2]; unfold GLOBE_MIN, GLOBE_MAX; lra.
    + exists 0%Z, 1%Z. eexists. split; [auto|]. split; [auto|].
      split; [reflexivity|]. intros d; destruct d;
        cbn [Aabb.min Aabb.max vget v0 v1 v2]; unfold GLOBE_MIN, GLOBE_MAX; lra.
    + exists 1%Z, 0%Z. eexists. split; [auto|]. split; [auto|].
      split; [reflexivity|]. intros d; destruct d;
        cbn [Aabb.min Aabb.max vget v0 v1 v2]; unfold GLOBE_MIN, GLOBE_MAX; lra.
    + exists 1%Z, 1%Z. eexists. split; [auto|]. split; [auto|].
      split; [reflexivity|]. intros d; destruct d;
        cbn [Aabb.min Aabb.max vget v0 v1 v2]; unfold GLOBE_MIN, GLOBE_MAX; lra.
  - intros (x & y & box1 & Hx & Hy & E1 & Hc).
    eexists. split; [reflexivity|].
    assert (Cx := Hc DimX). assert (Cy := Hc DimY). assert (Cz := Hc DimZ).
    destruct Hx as [-> | ->]; destruct Hy as [-> | ->];
      unfold globeTileBounds, lookupZ in E1; cbn in E1; injection E1 as <-;
      cbn [Aabb.min Aabb.max vget v0 v1 v2] in Cx, Cy, Cz;
      unfold GLOBE_MIN, GLOBE_MAX in *;
      intros d; destruct d; cbn [Aabb.min Aabb.max vget v0 v1 v2];
      unfold GLOBE_MIN, GLOBE_MAX; lra.
Qed.

(** X9: [aabbForTileOnGlobe] throws exactly for an identifier with [z <= 1]
    whose index [z + 2 y + x] is outside the table of the five low-zoom
    boxes; the error is the [TypeError] of reading the missing box. *)
Theorem aabbForTileOnGlobe_throws_iff (tr : Transform.t) (numTiles : R)
    (id : CanonicalTileID.t) (e : error) :
  aabbForTileOnGlobe tr numTiles id = Throw e <->
  e = TypeError /\
  (CanonicalTileID.z id <= 1)%Z /\
  let i := (CanonicalTileID.z id + CanonicalTileID.y id * 2 + CanonicalTileID.x id)%Z in
  (i < 0 \/ 5 <= i)%Z.
Proof.
  unfold aabbForTileOnGlobe.
  destruct (CanonicalTileID.z id <=? 1)%Z eqn:Ez.
  - apply Z.leb_le in Ez. unfold globeTileBounds.
    rewrite (proj2 (Z.leb_le _ _) Ez).
    set (i := (CanonicalTileID.z id + CanonicalTileID.y id * 2
               + CanonicalTileID.x id)%Z).
    unfold lookupZ.
    destruct (i <? 0)%Z eqn:Ei.
    + apply Z.ltb_lt in Ei. split.
      * intros E. injection E as <-. repeat split; auto.
      * intros (-> & _). reflexivity.
    + apply Z.ltb_ge in Ei.
      destruct (nth_error GLOBE_LOW_ZOOM_TILE_AABBS (Z.to_nat i)) as [b|] eqn:En.
      * split; [discriminate|].
        intros (_ & _ & [Hi|Hi]); [lia|].
        exfalso. assert (Hn : nth_error GLOBE_LOW_ZOOM_TILE_AABBS (Z.to_nat i) <> None)
          by (rewrite En; discriminate).
        apply nth_error_Some in Hn. cbn [List.length GLOBE_LOW_ZOOM_TILE_AABBS] in Hn.
        lia.
      * split.
        -- intros E. injection E as <-. repeat split; auto.
           right. apply nth_error_None in En.
           cbn [List.length GLOBE_LOW_ZOOM_TILE_AABBS] in En. lia.
        -- intros (-> & _). reflexivity.
  - apply Z.leb_gt in Ez.
    destruct (LngLatBounds.contains _ _); (split; [discriminate|]);
      intros (_ & Hz & _); lia.
Qed.

End MoreProperties.

Lemma latLngToECEF_on_sphere_witness :
  exists p : Vec3,
    @latLngToECEF WebMercator.imports 45 10 (Some 2) = Ok p /\
    v0 p * v0 p + v1 p * v1 p + v2 p * v2 p = 2 * 2.
Proof.
  apply (@latLngToECEF_on_sphere WebMercator.imports 45 10 (Some 2)). lra.
Defined.

Lemma globeTileBounds_above_zoom1_witness :
  exists box : Aabb.t,
    @globeTileBounds WebMercator.imports tile_2_3_1 = Some box /\
    (forall corner,
       In corner (@boundsToECEF WebMercator.imports
                    (@tileCornersToBounds WebMercator.imports tile_2_3_1)) ->
       Aabb.contains box corner) /\
    (forall d, - @GLOBE_RADIUS WebMercator.imports <= (Aabb.min box).[d]
               /\ (Aabb.min box).[d] <= (Aabb.max box).[d]
               /\ (Aabb.max box).[d] <= @GLOBE_RADIUS WebMercator.imports).
Proof.
  apply (@globeTileBounds_above_zoom1 WebMercator.imports tile_2_3_1).
  - reflexivity.
  - cbn [EXTENT WebMercator.imports]. lra.
Defined.

Lemma globeTileBounds_zoom1_cover_witness :
  (exists box0, @globeTileBounds WebMercator.imports (CanonicalTileID.mk 0 0 0)
                = Some box0 /\ Aabb.contains box0 (mkVec3 1 (-1) 0))
  <->
  (exists x y box1, (x = 0 \/ x = 1)%Z /\ (y = 0 \/ y = 1)%Z /\
                    @globeTileBounds WebMercator.imports (CanonicalTileID.mk 1 x y)
                    = Some box1 /\
                    Aabb.contains box1 (mkVec3 1 (-1) 0)).
Proof.
  apply (@globeTileBounds_zoom1_cover WebMercator.imports (mkVec3 1 (-1) 0)).
  cbn [EXTENT WebMercator.imports]. lra.
Defined.

(** * Further properties of the world-space bounding box *)

Section BoxProperties.

Context `{Imports}.

(** X10: [updateCorners] only grows the box: the new minimum is below the old
    one and the new maximum above it, the grown box contains every
    transformed and scaled corner, and the corners are handed back
    transformed, in their order. *)
Theorem updateCorners_grows (cornerMin cornerMax : Vec3) (corners : list Vec3)
    (globeMatrix : Mat4) (scale : R) (d : Dim) :
  let updated := updateCorners cornerMin cornerMax corners globeMatrix scale in
  (fst (fst updated)).[d] <= cornerMin.[d] /\
  cornerMax.[d] <= (snd (fst updated)).[d] /\
  snd updated
  = map (fun c => vec3.scale (vec3.transformMat4 c globeMatrix) scale) corners /\
  forall corner, In corner (snd updated) ->
    (fst (fst updated)).[d] <= corner.[d] <= (snd (fst updated)).[d].
Proof.
  intros updated.
  destruct (updateCorners_bounds corners globeMatrix scale cornerMin cornerMax d)
    as (Hmn & Hmx & Hin).
  fold updated in Hmn, Hmx, Hin.
  assert (Ec := updateCorners_corners corners globeMatrix scale cornerMin cornerMax).
  fold updated in Ec.
  split; [exact Hmn|]. split; [exact Hmx|]. split; [exact Ec|].
  intros corner Hc. rewrite Ec in Hc. apply in_map_iff in Hc.
  destruct Hc as (c & <- & Hc). apply Hin. exact Hc.
Qed.

Lemma transitionFrame_keeps (tr : Transform.t) (numTiles : R)
    (id : CanonicalTileID.t) (f : Frame.t) :
  let f' := transitionFrame tr numTiles id f in
  Frame.cornerMin f' = Frame.cornerMin f /\
  Frame.cornerMax f' = Frame.cornerMax f /\
  Frame.arcA f' = Frame.arcA f /\
  Frame.arcB f' = Frame.arcB f.
Proof.
  unfold transitionFrame.
  destruct (Rgt_dec _ 0); [destruct (Rlt_dec _ 1)|]; repeat split; reflexivity.
Qed.

(** X11: for a tile with [z > 1] the box of [aabbForTileOnGlobe] is never
    inverted: [min <= max] on every axis, for every transform with a
    positive world size. *)
Theorem aabbForTileOnGlobe_min_le_max (tr : Transform.t) (numTiles : R)
    (id : CanonicalTileID.t) :
  (1 < CanonicalTileID.z id)%Z ->
  0 < Transform.worldSize tr ->
  exists box : Aabb.t,
    aabbForTileOnGlobe tr numTiles id = Ok box /\
    forall d, (Aabb.min box).[d] <= (Aabb.max box).[d].
Proof.
  intros Hz _. unfold aabbForTileOnGlobe.
  destruct (CanonicalTileID.z id <=? 1)%Z eqn:Ez; [apply Z.leb_le in Ez; lia|].
  cbv zeta.
  destruct (LngLatBounds.contains _ _).
  - eexists. split; [reflexivity|].
    intros d; destruct d; cbn [Aabb.min Aabb.max vec3.min vec3.max vget v0 v1 v2];
      (eapply Rle_trans; [apply Rmin_r | apply Rmax_r]).
  - eexists. split; [reflexivity|].
    unfold returnFrame, finishFrame.
    intros d; destruct d;
      cbn [Aabb.min Aabb.max Frame.cornerMin Frame.cornerMax
           vec3.min vec3.max vget v0 v1 v2];
      (eapply Rle_trans; [apply Rmin_r | apply Rmax_r]).
Qed.

(** X12: for a tile with [z > 1] that does not contain the center, the box of
    [aabbForTileOnGlobe] contains the bound of the closest arc; it
    contains the four transformed corners on the first two axes and from
    above on the third, whose lower bound is that of the closest arc: the
    lower of its two endpoints and of its bound. *)
Theorem aabbForTileOnGlobe_off_center (tr : Transform.t) (numTiles : R)
    (id : CanonicalTileID.t) :
  (1 < CanonicalTileID.z id)%Z ->
  0 < Transform.worldSize tr ->
  LngLatBounds.contains (tileCornersToBounds id) (Transform.center tr) = false ->
  let f := returnFrame tr numTiles id in
  let box := Aabb.mk (Frame.cornerMin f) (Frame.cornerMax f) in
  aabbForTileOnGlobe tr numTiles id = Ok box /\
  Aabb.contains box (Frame.arcBounds f) /\
  (forall corner, In corner (boundsToECEF (tileCornersToBounds id)) ->
     let c := vec3.scale (vec3.transformMat4 corner (Transform.globeMatrix tr))
                         (numTiles / Transform.worldSize tr) in
     v0 (Aabb.min box) <= v0 c <= v0 (Aabb.max box) /\
     v1 (Aabb.min box) <= v1 c <= v1 (Aabb.max box) /\
     v2 c <= v2 (Aabb.max box)) /\
  v2 (Aabb.min box)
  = Rmin (Rmin (v2 (Frame.arcA f)) (v2 (Frame.arcB f))) (v2 (Frame.arcBounds f)).
Proof.
  intros Hz _ Hc f box.
  split.
  { unfold aabbForTileOnGlobe.
    destruct (CanonicalTileID.z id <=? 1)%Z eqn:Ez; [apply Z.leb_le in Ez; lia|].
    cbv zeta. rewrite Hc. reflexivity. }
  set (f0 := closestArcFrame tr numTiles id).
  set (f1 := transitionFrame tr numTiles id f0).
  destruct (transitionFrame_keeps tr numTiles id f0) as (Kmin & Kmax & KA & KB).
  fold f1 in Kmin, Kmax, KA, KB.
  assert (Ef : f = finishFrame f1) by reflexivity.
  assert (Emin : Frame.cornerMin f
                 = vec3.min (mkVec3 (v0 (Frame.cornerMin f0)) (v1 (Frame.cornerMin f0))
                                    (Rmin (v2 (Frame.arcA f)) (v2 (Frame.arcB f))))
                            (Frame.arcBounds f)).
  { rewrite Ef. unfold finishFrame.
    cbn [Frame.cornerMin Frame.arcA Frame.arcB Frame.arcBounds].
    rewrite Kmin. reflexivity. }
  assert (Emax : Frame.cornerMax f = vec3.max (Frame.cornerMax f0) (Frame.arcBounds f)).
  { rewrite Ef. unfold finishFrame. cbn [Frame.cornerMax Frame.arcBounds].
    rewrite Kmax. reflexivity. }
  unfold box. cbn [Aabb.min Aabb.max]. rewrite Emin, Emax.
  split; [|split].
  - intros d; destruct d; cbn [Aabb.min Aabb.max vec3.min vec3.max vget v0 v1 v2];
      split; first [apply Rmin_r | apply Rmax_r].
  - intros corner Hin.
    set (c := vec3.scale (vec3.transformMat4 corner (Transform.globeMatrix tr))
                         (numTiles / Transform.worldSize tr)).
    assert (Hb := fun d =>
              proj2 (proj2 (updateCorners_bounds (boundsToECEF (tileCornersToBounds id))
                              (Transform.globeMatrix tr)
                              (numTiles / Transform.worldSize tr)
                              (mkVec3 MAX_VALUE MAX_VALUE MAX_VALUE)
                              (mkVec3 (- MAX_VALUE) (- MAX_VALUE) (- MAX_VALUE)) d))
                    corner Hin).
    assert (Hx := Hb DimX). assert (Hy := Hb DimY). assert (Hzz := Hb DimZ).
    change (fst (fst (updateCorners (mkVec3 MAX_VALUE MAX_VALUE MAX_VALUE)
                        (mkVec3 (- MAX_VALUE) (- MAX_VALUE) (- MAX_VALUE))
                        (boundsToECEF (tileCornersToBounds id))
                        (Transform.globeMatrix tr)
                        (numTiles / Transform.worldSize tr))))
      with (Frame.cornerMin f0) in Hx, Hy, Hzz.
    change (snd (fst (updateCorners (mkVec3 MAX_VALUE MAX_VALUE MAX_VALUE)
                        (mkVec3 (- MAX_VALUE) (- MAX_VALUE) (- MAX_VALUE))
                        (boundsToECEF (tileCornersToBounds id))
                        (Transform.globeMatrix tr)
                        (numTiles / Transform.worldSize tr))))
      with (Frame.cornerMax f0) in Hx, Hy, Hzz.
    fold c in Hx, Hy, Hzz. cbn [vget] in Hx, Hy, Hzz.
    cbn [vec3.min vec3.max v0 v1 v2].
    assert (L0 := Rmin_l (v0 (Frame.cornerMin f0)) (v0 (Frame.arcBounds f))).
    assert (L1 := Rmin_l (v1 (Frame.cornerMin f0)) (v1 (Frame.arcBounds f))).
    assert (U0 := Rmax_l (v0 (Frame.cornerMax f0)) (v0 (Frame.arcBounds f))).
    assert (U1 := Rmax_l (v1 (Frame.cornerMax f0)) (v1 (Frame.arcBounds f))).
    assert (U2 := Rmax_l (v2 (Frame.cornerMax f0)) (v2 (Frame.arcBounds f))).
    repeat split; lra.
  - reflexivity.
Qed.

(** X13: for a tile with [z <= 1] that has a box in the table, the box of
    [aabbForTileOnGlobe] contains the eight transformed and scaled corners
    of that box. *)
Theorem aabbForTileOnGlobe_low_zoom (tr : Transform.t) (numTiles : R)
    (id : CanonicalTileID.t) (aabb : Aabb.t) :
  (CanonicalTileID.z id <= 1)%Z ->
  0 < Transform.worldSize tr ->
  globeTileBounds id = Some aabb ->
  exists box : Aabb.t,
    aabbForTileOnGlobe tr numTiles id = Ok box /\
    forall corner, In corner (Aabb.getCorners aabb) ->
      Aabb.contains box
        (vec3.scale (vec3.transformMat4 corner (Transform.globeMatrix tr))
                    (numTiles / Transform.worldSize tr)).
Proof.
  intros Hz _ Hb. unfold aabbForTileOnGlobe.
  rewrite (proj2 (Z.leb_le _ _) Hz), Hb. cbv zeta.
  eexists. split; [reflexivity|].
  intros corner Hin d. cbn [Aabb.min Aabb.max].
  apply (updateCorners_bounds (Aabb.getCorners aabb)). exact Hin.
Qed.

(** X14: the block that interpolates toward Mercator runs exactly for a zoom
    strictly between 5 and 6; at any other zoom the frame is left as it
    is. *)
Theorem transition_band (tr : Transform.t) (numTiles : R)
    (id : CanonicalTileID.t) (f : Frame.t) :
  let phase := globeToMercatorTransition (Transform.zoom tr) in
  (0 < phase < 1 <-> 5 < Transform.zoom tr < 6) /\
  (Transform.zoom tr <= 5 \/ 6 <= Transform.zoom tr ->
   transitionFrame tr numTiles id f = f).
Proof.
  intros phase.
  assert (Hband : 0 < phase < 1 <-> 5 < Transform.zoom tr < 6).
  { unfold phase.
    destruct (globeToMercatorTransition_cases (Transform.zoom tr))
      as [[Hz E]|[[Hz E]|[Hz E]]]; rewrite E.
    - split; intros; lra.
    - set (t := Transform.zoom tr - 5).
      assert (Ht : 0 <= t <= 1) by (unfold t; lra).
      split.
      + intros [P1 P2].
        destruct (Req_dec t 0) as [E0|E0]; [rewrite E0 in P1; lra|].
        destruct (Req_dec t 1) as [E1|E1]; [rewrite E1 in P2; lra|].
        unfold t in *. lra.
      + intros Hin. assert (Ht' : 0 < t < 1) by (unfold t; lra).
        assert (0 < t * t) by nra.
        assert (Hq : 1 - t * t * (3 - 2 * t) = (1 - t) * (1 - t) * (1 + 2 * t)) by ring.
        assert (0 < (1 - t) * (1 - t)) by nra.
        split; nra.
    - split; intros; lra. }
  split; [exact Hband|].
  intros Hout. unfold transitionFrame. fold phase.
  destruct (Rgt_dec phase 0) as [G|G]; [|reflexivity].
  destruct (Rlt_dec phase 1) as [L|L]; [|reflexivity].
  exfalso. assert (Hin : 5 < Transform.zoom tr < 6) by (apply Hband; lra). lra.
Qed.

End BoxProperties.

(** * Further properties of the matrices *)

Section MatrixProperties.

Context `{Imports}.

(** X15: a normalized position stays in the quantization range: every point of
    the box is sent to coordinates between 0 and
    [GLOBE_NORMALIZATION_MASK], which is 16383. *)
Theorem globeNormalizeECEF_range (bounds : Aabb.t) (P : Vec3) (st : Store) :
  Aabb.contains bounds P ->
  (exists d, (Aabb.min bounds).[d] < (Aabb.max bounds).[d]) ->
  let (n, st1) := globeNormalizeECEF bounds st in
  IZR GLOBE_NORMALIZATION_MASK = 16383 /\
  forall d, 0 <= (vec3.transformMat4 P (deref st1 n)).[d] <= 16383.
Proof.
  intros Hin Hext.
  assert (Hs := normalizationScale_pos bounds Hext).
  unfold globeNormalizeECEF, deref.
  split; [rewrite GLOBE_NORMALIZATION_MASK_value; reflexivity|].
  assert (Hm : globeECEFNormalizationScale bounds
               * Rmax (Rmax (v0 (Aabb.max bounds) - v0 (Aabb.min bounds))
                            (v1 (Aabb.max bounds) - v1 (Aabb.min bounds)))
                      (v2 (Aabb.max bounds) - v2 (Aabb.min bounds))
               = 16383).
  { unfold globeECEFNormalizationScale in *.
    rewrite GLOBE_NORMALIZATION_MASK_value in *.
    set (e := Rmax _ _) in *.
    assert (He : e <> 0).
    { intros E0. rewrite E0 in Hs. unfold Rdiv in Hs. rewrite Rinv_0 in Hs. lra. }
    field. exact He. }
  set (s := globeECEFNormalizationScale bounds) in *.
  set (e0 := v0 (Aabb.max bounds) - v0 (Aabb.min bounds)) in *.
  set (e1 := v1 (Aabb.max bounds) - v1 (Aabb.min bounds)) in *.
  set (e2 := v2 (Aabb.max bounds) - v2 (Aabb.min bounds)) in *.
  assert (M0 := Rmax_l e0 e1). assert (M1 := Rmax_r e0 e1).
  assert (M2 := Rmax_l (Rmax e0 e1) e2). assert (M3 := Rmax_r (Rmax e0 e1) e2).
  rewrite transformMat4_affine by (simpl; ring).
  intros d. specialize (Hin d).
  destruct d;
    cbn [vget v0 v1 v2 mat4.translate mat4.fromScaling vec3.negate
         m0 m1 m2 m4 m5 m6 m8 m9 m10 m12 m13 m14] in *;
    unfold e0, e1, e2 in *.
  - replace (s * v0 P + 0 * v1 P + 0 * v2 P
             + (s * - v0 (Aabb.min bounds) + 0 * - v1 (Aabb.min bounds)
                + 0 * - v2 (Aabb.min bounds) + 0))
      with (s * (v0 P - v0 (Aabb.min bounds))) by ring.
    split; [apply Rmult_le_pos; lra|]. rewrite <- Hm.
    apply Rmult_le_compat_l; lra.
  - replace (0 * v0 P + s * v1 P + 0 * v2 P
             + (0 * - v0 (Aabb.min bounds) + s * - v1 (Aabb.min bounds)
                + 0 * - v2 (Aabb.min bounds) + 0))
      with (s * (v1 P - v1 (Aabb.min bounds))) by ring.
    split; [apply Rmult_le_pos; lra|]. rewrite <- Hm.
    apply Rmult_le_compat_l; lra.
  - replace (0 * v0 P + 0 * v1 P + s * v2 P
             + (0 * - v0 (Aabb.min bounds) + 0 * - v1 (Aabb.min bounds)
                + s * - v2 (Aabb.min bounds) + 0))
      with (s * (v2 P - v2 (Aabb.min bounds))) by ring.
    split; [apply Rmult_le_pos; lra|]. rewrite <- Hm.
    apply Rmult_le_compat_l; lra.
Qed.

(** X16: the matrix of [globeMatrixForTile] decodes and places in one step:
    applied to the normalized position of a point it gives what the globe
    matrix gives on the point itself, for an affine globe matrix and a tile
    whose box has a positive extent. *)
Theorem globeMatrixForTile_decodes (id : CanonicalTileID.t) (globeMatrix : Mat4)
    (bounds : Aabb.t) (P : Vec3) (st : Store) :
  globeTileBounds id = Some bounds ->
  (exists d, (Aabb.min bounds).[d] < (Aabb.max bounds).[d]) ->
  m3 globeMatrix = 0 -> m7 globeMatrix = 0 -> m11 globeMatrix = 0 ->
  m15 globeMatrix = 1 ->
  let (n, st1) := globeNormalizeECEF bounds st in
  let Q := vec3.transformMat4 P (deref st1 n) in
  exists (tileMatrix : Mat4) (st2 : Store),
    globeMatrixForTile id globeMatrix st1 = Ok (tileMatrix, st2) /\
    vec3.transformMat4 Q tileMatrix = vec3.transformMat4 P globeMatrix.
Proof.
  intros Hb Hext E3 E7 E11 E15.
  assert (Hs := normalizationScale_pos bounds Hext).
  unfold globeNormalizeECEF, globeMatrixForTile. rewrite Hb.
  unfold globeDenormalizeECEF, deref.
  eexists. eexists. split; [reflexivity|].
  set (s := globeECEFNormalizationScale bounds) in *.
  destruct globeMatrix as [g0 g1 g2 g3 g4 g5 g6 g7 g8 g9 g10 g11 g12 g13 g14 g15].
  cbn [m3 m7 m11 m15] in E3, E7, E11, E15. subst g3 g7 g11 g15.
  destruct P as [x y z]. destruct (Aabb.min bounds) as [a b c].
  rewrite (transformMat4_affine (mkVec3 x y z)) by (simpl; ring).
  rewrite (transformMat4_affine (mkVec3 x y z)) by reflexivity.
  rewrite transformMat4_affine by (simpl; ring).
  unfold mat4.mul, mat4.multiply, mat4.scale, mat4.fromTranslation,
    mat4.translate, mat4.fromScaling, vec3.negate.
  cbn [v0 v1 v2 m0 m1 m2 m3 m4 m5 m6 m7 m8 m9 m10 m11 m12 m13 m14 m15].
  f_equal; field; lra.
Qed.

Lemma calculateGlobePosMatrix_entries (x y worldSize lng lat : R) :
  let S := globeECEFUnitsToPixelScale worldSize in
  let sa := sin (degToRad (- lat)) in
  let ca := cos (degToRad (- lat)) in
  let sb := sin (degToRad (- lng)) in
  let cb := cos (degToRad (- lng)) in
  calculateGlobePosMatrix x y worldSize lng lat
  = mkMat4 (S * cb) (S * sa * sb) (- (S * ca * sb)) 0
           0 (S * ca) (S * sa) 0
           (S * sb) (- (S * sa * cb)) (S * ca * cb) 0
           x y (- worldSize / (2 * PI)) 1.
Proof.
  intros S sa ca sb cb.
  unfold calculateGlobePosMatrix. fold S sa ca sb cb.
  unfold mat4.rotateY, mat4.rotateX, mat4.scale, mat4.translate, mat4.identity.
  cbn [m0 m1 m2 m3 m4 m5 m6 m7 m8 m9 m10 m11 m12 m13 m14 m15 v0 v1 v2].
  fold sa ca sb cb.
  apply mkMat4_eq; ring.
Qed.

(** X17: the globe matrix puts the point of the sphere under the center of the
    map at the pixel position of the center, at height 0, and no point of
    the sphere above that height: the center is the highest point. *)
Theorem calculateGlobeMatrix_center_highest (tr : Transform.t) :
  0 < EXTENT -> 0 < Transform.worldSize tr ->
  -90 <= LngLat.lat (Transform._center tr) <= 90 ->
  (exists pivot : Vec3,
     latLngToECEF (LngLat.lat (Transform._center tr))
                  (LngLat.lng (Transform._center tr)) None = Ok pivot /\
     vec3.transformMat4 pivot (calculateGlobeMatrix tr)
     = mkVec3 (Point.x (Transform.point tr)) (Point.y (Transform.point tr)) 0) /\
  (forall lat lng p,
     latLngToECEF lat lng None = Ok p ->
     v2 (vec3.transformMat4 p (calculateGlobeMatrix tr)) <= 0).
Proof.
  intros HE Hw Hlat. assert (Hpi := PI_RGT_0).
  split.
  - eexists. split; [apply latLngToECEF_in_range; exact Hlat|].
    unfold csLatLngToECEF.
    unfold calculateGlobeMatrix.
    set (lat := LngLat.lat (Transform._center tr)) in *.
    set (lng := LngLat.lng (Transform._center tr)) in *.
    set (x := Point.x (Transform.point tr)).
    set (y := Point.y (Transform.point tr)).
    set (ws := Transform.worldSize tr) in *.
    rewrite calculateGlobePosMatrix_entries.
    rewrite transformMat4_affine by reflexivity.
    cbn [v0 v1 v2 m0 m1 m2 m4 m5 m6 m8 m9 m10 m12 m13 m14].
    replace (degToRad (- lat)) with (- degToRad lat) by (unfold degToRad; field).
    replace (degToRad (- lng)) with (- degToRad lng) by (unfold degToRad; field).
    rewrite !sin_neg, !cos_neg.
    assert (HS := globeScale_radius ws HE).
    set (S := globeECEFUnitsToPixelScale ws) in *.
    generalize (sqr_sin_cos (degToRad lat)) (sqr_sin_cos (degToRad lng)).
    set (sl := sin (degToRad lat)). set (cl := cos (degToRad lat)).
    set (sg := sin (degToRad lng)). set (cg := cos (degToRad lng)).
    intros Ha Hb.
    f_equal.
    + ring.
    + transitivity (S * GLOBE_RADIUS * sl * cl * (sg * sg + cg * cg - 1) + y); [ring|].
      rewrite Hb. ring.
    + transitivity (S * GLOBE_RADIUS
                    * (cl * cl * (sg * sg + cg * cg) + sl * sl)
                    + - ws / (2 * PI)); [ring|].
      rewrite Hb. replace (cl * cl * 1 + sl * sl) with 1 by lra.
      rewrite Rmult_1_r, HS. field. lra.
  - intros lat lng p Hp.
    assert (Hn : v0 p * v0 p + v1 p * v1 p + v2 p * v2 p = GLOBE_RADIUS * GLOBE_RADIUS).
    { unfold latLngToECEF in Hp.
      destruct (assert _ _) as [[]|e]; cbn [bind] in Hp; [|discriminate].
      injection Hp as <-. apply csLatLngToECEF_norm. }
    assert (Hz := globe_point_below_zero
                    (Point.x (Transform.point tr)) (Point.y (Transform.point tr))
                    (Transform.worldSize tr)
                    (LngLat.lng (Transform._center tr))
                    (LngLat.lat (Transform._center tr)) 1 p HE Hw ltac:(lra) Hn).
    unfold vec3.scale in Hz. cbn [v2] in Hz.
    unfold calculateGlobeMatrix. lra.
Qed.

(** X18: the origin of the tile-local coordinates is the north-western corner
    of the tile on the sphere, and [(EXTENT, EXTENT)] is its south-eastern
    corner, when those latitudes are within range. *)
Theorem tileCoordToECEF_corners (id : CanonicalTileID.t) :
  EXTENT <> 0 ->
  -90 <= LngLatBounds.getNorth (tileCornersToBounds id) <= 90 ->
  -90 <= LngLatBounds.getSouth (tileCornersToBounds id) <= 90 ->
  tileCoordToECEF 0 0 id None
  = Ok (at_index (boundsToECEF (tileCornersToBounds id)) 3) /\
  tileCoordToECEF EXTENT EXTENT id None
  = Ok (at_index (boundsToECEF (tileCornersToBounds id)) 1).
Proof.
  intros HE HN HS.
  unfold tileCornersToBounds, LngLatBounds.getNorth, LngLatBounds.getSouth in HN, HS.
  cbn [LngLatBounds._sw LngLatBounds._ne LngLat.lat] in HN, HS.
  unfold tileCoordToECEF, tileCornersToBounds, boundsToECEF, at_index.
  cbn [nth LngLatBounds.getNorth LngLatBounds.getSouth LngLatBounds.getWest
       LngLatBounds.getEast LngLatBounds._sw LngLatBounds._ne LngLat.lng LngLat.lat].
  set (tc := IZR (shl1 (CanonicalTileID.z id))) in *.
  set (x := IZR (CanonicalTileID.x id)) in *.
  set (y := IZR (CanonicalTileID.y id)) in *.
  replace ((0 / EXTENT + x) / tc) with (x * (1 / tc)) by (unfold Rdiv; ring).
  replace ((0 / EXTENT + y) / tc) with (y * (1 / tc)) by (unfold Rdiv; ring).
  replace ((EXTENT / EXTENT + x) / tc) with ((x + 1) * (1 / tc))
    by (unfold Rdiv; rewrite Rinv_r by exact HE; ring).
  replace ((EXTENT / EXTENT + y) / tc) with ((y + 1) * (1 / tc))
    by (unfold Rdiv; rewrite Rinv_r by exact HE; ring).
  split.
  - rewrite latLngToECEF_in_range by exact HN. reflexivity.
  - rewrite latLngToECEF_in_range by exact HS. reflexivity.
Qed.

End MatrixProperties.

(** * Further properties of the levels of detail and the Mercator corners *)

Section LodProperties.

Context `{Imports}.

Lemma getLatitudinalLod_eq (lat : R) :
  getLatitudinalLod lat
  = Zfloor (Rabs (sin (degToRad
                         (clamp lat (- (MAX_MERCATOR_LATITUDE - 5))
                                (MAX_MERCATOR_LATITUDE - 5)
                          / (MAX_MERCATOR_LATITUDE - 5) * 90))) ^ 3 * 2 + 1 / 2).
Proof.
  unfold getLatitudinalLod, Math_round, GLOBE_LATITUDINAL_GRID_LOD_TABLE.
  cbn [List.length]. do 2 f_equal.
  replace (INR 3 - 1) with 2 by (simpl; ring). reflexivity.
Qed.

Lemma abs_sin_cubed_range (x : R) : 0 <= Rabs (sin x) ^ 3 <= 1.
Proof.
  assert (Ha := Rabs_pos (sin x)).
  assert (Hb : Rabs (sin x) <= 1) by (apply Rabs_le; apply SIN_bound).
  split.
  - apply pow_le. exact Ha.
  - rewrite <- (pow1 3). apply pow_incr. lra.
Qed.

Lemma getLatitudinalLod_bounds (lat : R) :
  (0 <= getLatitudinalLod lat <= 2)%Z.
Proof.
  rewrite getLatitudinalLod_eq.
  set (x := degToRad _).
  destruct (abs_sin_cubed_range x) as [T0 T1].
  split.
  - apply Zfloor_lub. simpl. lra.
  - assert (Hb := Zfloor_bound (Rabs (sin x) ^ 3 * 2 + 1 / 2)).
    assert (Hlt : IZR (Zfloor (Rabs (sin x) ^ 3 * 2 + 1 / 2)) < IZR 3) by lra.
    apply lt_IZR in Hlt. lia.
Qed.

(** X19: the level of detail is one of 0, 1 and 2: the finest, 0, on the
    equator and the coarsest, 2, from five degrees below the maximum
    Mercator latitude on, north and south. *)
Theorem getLatitudinalLod_range (lat : R) :
  5 < MAX_MERCATOR_LATITUDE ->
  (0 <= getLatitudinalLod lat <= 2)%Z /\
  getLatitudinalLod 0 = 0%Z /\
  (MAX_MERCATOR_LATITUDE - 5 <= Rabs lat -> getLatitudinalLod lat = 2%Z).
Proof.
  intros HU. assert (Hpi := PI_RGT_0).
  set (U := MAX_MERCATOR_LATITUDE - 5) in *.
  assert (HU0 : 0 < U) by (unfold U; lra).
  split; [|split].
  - rewrite getLatitudinalLod_eq. fold U.
    set (x := degToRad (clamp lat (- U) U / U * 90)).
    destruct (abs_sin_cubed_range x) as [T0 T1].
    split.
    + apply Zfloor_lub. simpl. lra.
    + assert (Hb := Zfloor_bound (Rabs (sin x) ^ 3 * 2 + 1 / 2)).
      assert (Hlt : IZR (Zfloor (Rabs (sin x) ^ 3 * 2 + 1 / 2)) < IZR 3) by lra.
      apply lt_IZR in Hlt. lia.
  - rewrite getLatitudinalLod_eq. fold U.
    replace (clamp 0 (- U) U) with 0.
    2:{ unfold clamp. rewrite (Rmax_right (- U) 0) by lra.
        rewrite (Rmin_right U 0) by lra. reflexivity. }
    replace (degToRad (0 / U * 90)) with 0 by (unfold degToRad; field; lra).
    rewrite sin_0, Rabs_R0. apply Zfloor_eq. simpl. lra.
  - intros Habs. rewrite getLatitudinalLod_eq. fold U.
    assert (E : Rabs (sin (degToRad (clamp lat (- U) U / U * 90))) = 1).
    { destruct (Rle_dec 0 lat) as [Hp|Hn].
      - rewrite (Rabs_right lat) in Habs by lra.
        replace (clamp lat (- U) U) with U.
        2:{ unfold clamp. rewrite (Rmax_right (- U) lat) by lra.
            rewrite (Rmin_left U lat) by lra. reflexivity. }
        replace (degToRad (U / U * 90)) with (PI / 2)
          by (unfold degToRad; field; lra).
        rewrite sin_PI2. apply Rabs_R1.
      - rewrite (Rabs_left lat) in Habs by lra.
        replace (clamp lat (- U) U) with (- U).
        2:{ unfold clamp. rewrite (Rmax_left (- U) lat) by lra.
            rewrite (Rmin_right U (- U)) by lra. reflexivity. }
        replace (degToRad (- U / U * 90)) with (- (PI / 2))
          by (unfold degToRad; field; lra).
        rewrite sin_neg, sin_PI2, Rabs_Ropp. apply Rabs_R1. }
    rewrite E. apply Zfloor_eq. simpl. lra.
Qed.

(** X20: the level of detail depends on the distance from the equator only and
    does not decrease with it. *)
Theorem getLatitudinalLod_monotone (lat1 lat2 : R) :
  5 < MAX_MERCATOR_LATITUDE ->
  getLatitudinalLod (- lat1) = getLatitudinalLod lat1 /\
  (Rabs lat1 <= Rabs lat2 ->
   (getLatitudinalLod lat1 <= getLatitudinalLod lat2)%Z).
Proof.
  intros HU. assert (Hpi := PI_RGT_0).
  set (U := MAX_MERCATOR_LATITUDE - 5) in *.
  assert (HU0 : 0 < U) by (unfold U; lra).
  assert (Hclamp_opp : forall l, clamp (- l) (- U) U = - clamp l (- U) U).
  { intros l. unfold clamp, Rmin, Rmax.
    repeat (destruct (Rle_dec _ _)); lra. }
  assert (Hsym : forall l, getLatitudinalLod (- l) = getLatitudinalLod l).
  { intros l. rewrite !getLatitudinalLod_eq. fold U. rewrite Hclamp_opp.
    replace (degToRad (- clamp l (- U) U / U * 90))
      with (- degToRad (clamp l (- U) U / U * 90))
      by (unfold degToRad; field; lra).
    rewrite sin_neg, Rabs_Ropp. reflexivity. }
  split; [apply Hsym|].
  assert (Hmono : forall a b, 0 <= a <= b ->
                    (getLatitudinalLod a <= getLatitudinalLod b)%Z).
  { intros a b Hab. rewrite !getLatitudinalLod_eq. fold U.
    set (ca := clamp a (- U) U). set (cb := clamp b (- U) U).
    assert (Hc : 0 <= ca <= cb /\ cb <= U).
    { unfold ca, cb, clamp, Rmin, Rmax.
      repeat (destruct (Rle_dec _ _)); lra. }
    set (ra := degToRad (ca / U * 90)). set (rb := degToRad (cb / U * 90)).
    assert (Hk : 0 < PI / (2 * U)).
    { apply Rdiv_lt_0_compat; lra. }
    assert (Era : ra = ca * (PI / (2 * U))) by (unfold ra, degToRad; field; lra).
    assert (Erb : rb = cb * (PI / (2 * U))) by (unfold rb, degToRad; field; lra).
    assert (EU : U * (PI / (2 * U)) = PI / 2) by (field; lra).
    assert (Hr : 0 <= ra <= rb /\ rb <= PI / 2).
    { rewrite Era, Erb, <- EU. repeat split.
      - apply Rmult_le_pos; lra.
      - apply Rmult_le_compat_r; lra.
      - apply Rmult_le_compat_r; lra. }
    assert (Hsa : 0 <= sin ra) by (apply sin_ge_0; lra).
    assert (Hsb : 0 <= sin rb) by (apply sin_ge_0; lra).
    assert (Hs : sin ra <= sin rb) by (apply sin_incr_1; lra).
    rewrite (Rabs_right (sin ra)) by lra. rewrite (Rabs_right (sin rb)) by lra.
    apply Zfloor_le.
    assert (Hp : sin ra ^ 3 <= sin rb ^ 3) by (apply pow_incr; lra).
    lra. }
  intros Hle.
  destruct (Rle_dec 0 lat1) as [H1|H1]; destruct (Rle_dec 0 lat2) as [H2|H2].
  - rewrite (Rabs_right lat1), (Rabs_right lat2) in Hle by lra.
    apply Hmono; lra.
  - rewrite (Rabs_right lat1), (Rabs_left lat2) in Hle by lra.
    rewrite <- (Hsym lat2). apply Hmono; lra.
  - rewrite (Rabs_left lat1), (Rabs_right lat2) in Hle by lra.
    rewrite <- (Hsym lat1). apply Hmono; lra.
  - rewrite (Rabs_left lat1), (Rabs_left lat2) in Hle by lra.
    rewrite <- (Hsym lat1), <- (Hsym lat2). apply Hmono; lra.
Qed.

(** X21: the corners that [mercatorTileCornersInCameraSpace] returns lie at
    height 0 in the order south-west, south-east, north-west, north-east,
    and span a square whose side is the tile's share of [numTiles] scaled
    by [mercatorScale].  The tile is moved by a whole world, one way or the
    other or not at all, and when its center is within one and a half
    worlds of the camera the moved center is within half a world of it:
    the copy of the tile that is used is the nearest one. *)
Theorem mercatorTileCornersInCameraSpace_square (id : CanonicalTileID.t)
    (numTiles mercatorScale camX camY : R) :
  let tileScale := 1 / IZR (shl1 (CanonicalTileID.z id)) in
  let center := (IZR (CanonicalTileID.x id) + 1 / 2) * tileScale in
  exists wrap w e n s : R,
    mercatorTileCornersInCameraSpace id numTiles mercatorScale camX camY
    = [mkVec3 w s 0; mkVec3 e s 0; mkVec3 w n 0; mkVec3 e n 0] /\
    (wrap = -1 \/ wrap = 0 \/ wrap = 1) /\
    (w + e) / 2
    = ((center + wrap) * numTiles - camX * mercatorScale) * mercatorScale
      + camX * mercatorScale /\
    e - w = tileScale * numTiles * mercatorScale /\
    s - n = tileScale * numTiles * mercatorScale /\
    (Rabs (center - camX) <= 3 / 2 -> Rabs (center + wrap - camX) <= 1 / 2).
Proof.
  intros tileScale center.
  unfold mercatorTileCornersInCameraSpace.
  fold tileScale.
  set (x := IZR (CanonicalTileID.x id)) in *.
  replace ((x * tileScale + (x * tileScale + tileScale)) / 2 - camX)
    with (center - camX) by (unfold center; field).
  destruct (Rgt_dec (center - camX) (1 / 2)) as [Hgt|Hgt];
    [exists (-1)
    |destruct (Rlt_dec (center - camX) (- (1 / 2))) as [Hlt|Hlt];
     [exists 1|exists 0]];
    do 4 eexists;
    (split; [reflexivity|]);
    (split; [lra|]);
    (split; [unfold center; field|]);
    (split; [ring|]);
    (split; [ring|]);
    intros Hfar; unfold Rabs in *;
    repeat match goal with |- context [Rcase_abs ?u] => destruct (Rcase_abs u) end;
    repeat match goal with H : context [Rcase_abs ?u] |- _ => destruct (Rcase_abs u) end;
    lra.
Qed.

(** X22: for an identifier that has a box, [globePixelsToTileUnits] returns a
    number at every zoom and one zoom level further halves it; for an
    identifier that has no box it throws at every zoom, the [TypeError] of
    reading the missing box. *)
Theorem globePixelsToTileUnits_next_zoom (id : CanonicalTileID.t) :
  (forall bounds : Aabb.t,
     globeTileBounds id = Some bounds ->
     forall zoom : R,
       let units := EXTENT / (TILE_SIZE * Rpower 2 zoom)
                    * globeECEFNormalizationScale bounds in
       globePixelsToTileUnits zoom id = Ok units /\
       globePixelsToTileUnits (zoom + 1) id = Ok (units / 2)) /\
  (globeTileBounds id = None ->
   forall zoom : R, globePixelsToTileUnits zoom id = Throw TypeError).
Proof.
  split.
  - intros bounds Hb zoom units. unfold globePixelsToTileUnits. rewrite Hb.
    split; [reflexivity|]. f_equal. unfold units.
    rewrite Rpower_plus, Rpower_1 by lra.
    assert (Hp : 0 < Rpower 2 zoom) by (unfold Rpower; apply exp_pos).
    unfold TILE_SIZE. field. lra.
  - intros Hb zoom. unfold globePixelsToTileUnits. rewrite Hb. reflexivity.
Qed.

End LodProperties.

(** * Further properties of the camera position *)

Lemma fromRotation_on_sphere (rad r : R) (axis : Vec3) :
  mat4.EPSILON <= r ->
  v0 axis * v0 axis + v1 axis * v1 axis + v2 axis * v2 axis = r * r ->
  let x := v0 axis * (1 / r) in
  let y := v1 axis * (1 / r) in
  let z := v2 axis * (1 / r) in
  let s := sin rad in let c := cos rad in let t := 1 - c in
  mat4.fromRotation rad axis
  = Some (mkMat4 (x * x * t + c) (y * x * t + z * s) (z * x * t - y * s) 0
                 (x * y * t - z * s) (y * y * t + c) (z * y * t + x * s) 0
                 (x * z * t + y * s) (y * z * t - x * s) (z * z * t + c) 0
                 0 0 0 1).
Proof.
  intros Hr Hn. unfold mat4.fromRotation. rewrite Hn.
  assert (He : 0 < mat4.EPSILON) by (unfold mat4.EPSILON; lra).
  rewrite sqrt_of_square by lra.
  destruct (Rlt_dec r mat4.EPSILON) as [L|_]; [lra|]. reflexivity.
Qed.

(** A rotation about an axis leaves the points of the axis in place. *)
Lemma rotation_fixes_axis (rad r k : R) (axis : Vec3) (m : Mat4) :
  mat4.EPSILON <= r ->
  v0 axis * v0 axis + v1 axis * v1 axis + v2 axis * v2 axis = r * r ->
  mat4.fromRotation rad axis = Some m ->
  vec3.transformMat4 (vec3.scale axis k) m = vec3.scale axis k.
Proof.
  intros Hr Hn Hm.
  assert (He : 0 < mat4.EPSILON) by (unfold mat4.EPSILON; lra).
  rewrite (fromRotation_on_sphere rad r axis Hr Hn) in Hm.
  injection Hm as <-.
  rewrite transformMat4_affine by reflexivity.
  destruct axis as [x y z]. unfold vec3.scale.
  cbn [v0 v1 v2 m0 m1 m2 m4 m5 m6 m8 m9 m10 m12 m13 m14] in *.
  assert (Hu : x * (1 / r) * (x * (1 / r)) + y * (1 / r) * (y * (1 / r))
               + z * (1 / r) * (z * (1 / r)) = 1).
  { transitivity ((x * x + y * y + z * z) / (r * r)); [field; lra|].
    rewrite Hn. field. lra. }
  set (u := x * (1 / r)) in *. set (v := y * (1 / r)) in *.
  set (w := z * (1 / r)) in *.
  assert (Ex : x = u * r) by (unfold u; field; lra).
  assert (Ey : y = v * r) by (unfold v; field; lra).
  assert (Ez : z = w * r) by (unfold w; field; lra).
  rewrite Ex, Ey, Ez.
  set (c := cos rad). set (s := sin rad).
  f_equal.
  - transitivity (r * k * (u * (u * u + v * v + w * w) * (1 - c) + c * u)); [ring|].
    rewrite Hu. ring.
  - transitivity (r * k * (v * (u * u + v * v + w * w) * (1 - c) + c * v)); [ring|].
    rewrite Hu. ring.
  - transitivity (r * k * (w * (u * u + v * v + w * w) * (1 - c) + c * w)); [ring|].
    rewrite Hu. ring.
Qed.

(** A rotation by the angle 0 is the identity. *)
Lemma rotation_by_zero (axis v : Vec3) (m : Mat4) :
  mat4.fromRotation 0 axis = Some m -> vec3.transformMat4 v m = v.
Proof.
  unfold mat4.fromRotation. destruct (Rlt_dec _ _); [discriminate|].
  intros Hm. injection Hm as <-.
  rewrite transformMat4_affine by reflexivity.
  cbn [m0 m1 m2 m4 m5 m6 m8 m9 m10 m12 m13 m14].
  rewrite sin_0, cos_0. destruct v as [x y z]. cbn [v0 v1 v2].
  f_equal; ring.
Qed.

Lemma normalize_on_sphere (p : Vec3) (r : R) :
  0 < r -> v0 p * v0 p + v1 p * v1 p + v2 p * v2 p = r * r ->
  vec3.normalize p = vec3.scale p (1 / r).
Proof.
  intros Hr Hn. unfold vec3.normalize. rewrite Hn.
  destruct (Rgt_dec (r * r) 0) as [_|G]; [|exfalso; apply G; nra].
  rewrite sqrt_of_square by lra. reflexivity.
Qed.

Lemma rotation_unit_axis (axis : Vec3) (r : R) :
  0 < r ->
  v0 axis * v0 axis + v1 axis * v1 axis + v2 axis * v2 axis = r * r ->
  v0 axis * (1 / r) * (v0 axis * (1 / r))
  + v1 axis * (1 / r) * (v1 axis * (1 / r))
  + v2 axis * (1 / r) * (v2 axis * (1 / r)) = 1.
Proof.
  intros Hr Hn.
  transitivity ((v0 axis * v0 axis + v1 axis * v1 axis + v2 axis * v2 axis)
                / (r * r)); [field; lra|].
  rewrite Hn. field. lra.
Qed.

(** A rotation keeps lengths, keeps the component along its axis, and
    turns a vector at a right angle to the axis by its angle. *)
Lemma rotation_isometry (rad r : R) (axis v : Vec3) (m : Mat4) :
  mat4.EPSILON <= r ->
  v0 axis * v0 axis + v1 axis * v1 axis + v2 axis * v2 axis = r * r ->
  mat4.fromRotation rad axis = Some m ->
  vec3.dot (vec3.transformMat4 v m) (vec3.transformMat4 v m) = vec3.dot v v /\
  vec3.dot (vec3.transformMat4 v m) axis = vec3.dot v axis /\
  (vec3.dot axis v = 0 ->
   vec3.dot (vec3.transformMat4 v m) v = cos rad * vec3.dot v v).
Proof.
  intros Hr Hn Hm.
  assert (He : 0 < mat4.EPSILON) by (unfold mat4.EPSILON; lra).
  rewrite (fromRotation_on_sphere rad r axis Hr Hn) in Hm.
  injection Hm as <-.
  rewrite transformMat4_affine by reflexivity.
  assert (Hu := rotation_unit_axis axis r ltac:(lra) Hn).
  destruct axis as [x y z]. destruct v as [a b d]. unfold vec3.dot.
  cbn [v0 v1 v2 m0 m1 m2 m4 m5 m6 m8 m9 m10 m12 m13 m14] in *.
  set (ux := x * (1 / r)) in *. set (uy := y * (1 / r)) in *.
  set (uz := z * (1 / r)) in *.
  assert (Ex : x = ux * r) by (unfold ux; field; lra).
  assert (Ey : y = uy * r) by (unfold uy; field; lra).
  assert (Ez : z = uz * r) by (unfold uz; field; lra).
  assert (Hsc := sqr_sin_cos rad).
  set (c := cos rad) in *. set (s := sin rad) in *.
  split; [|split].
  - nsatz.
  - rewrite Ex, Ey, Ez. nsatz.
  - intros Hperp. rewrite Ex, Ey, Ez in Hperp.
    assert (Hperp' : ux * a + uy * b + uz * d = 0).
    { apply Rmult_eq_reg_l with r; [|lra]. rewrite Rmult_0_r, <- Hperp. ring. }
    nsatz.
Qed.

(** Two vectors that point in opposite directions are at the angle [PI]. *)
Lemma angle_opposite (q r : R) :
  0 < q -> 0 < r -> vec3.angle (mkVec3 0 0 q) (mkVec3 0 0 (- r)) = PI.
Proof.
  intros Hq Hr. unfold vec3.angle, vec3.dot. cbn [v0 v1 v2].
  replace (0 * 0 + 0 * 0 + q * q) with (q * q) by ring.
  replace (0 * 0 + 0 * 0 + - r * - r) with (r * r) by ring.
  rewrite !sqrt_of_square by lra.
  destruct (Req_dec_T (q * r) 0) as [E|_]; [nra|].
  replace ((0 * 0 + 0 * 0 + q * - r) / (q * r)) with (-1) by (field; lra).
  rewrite (Rmax_left (-1) (-1)) by lra. rewrite (Rmin_left (-1) 1) by lra.
  replace (acos (-1)) with (acos (Ropp 1)) by (f_equal; lra).
  rewrite acos_opp, acos_1. ring.
Qed.

Section CameraProperties.

Context `{Imports}.

Lemma pole_axis_null (tr : Transform.t) (p : Vec3) (rotation : Mat4) (rad : R) :
  Rabs (LngLat.lat (Transform._center tr)) = 90 ->
  p = csLatLngToECEF (cos (degToRad (LngLat.lat (Transform._center tr))))
                     (sin (degToRad (LngLat.lat (Transform._center tr))))
                     (LngLat.lng (Transform._center tr)) None ->
  mat4.EPSILON <= GLOBE_RADIUS ->
  mat4.fromRotation (- Transform.angle tr) p = Some rotation ->
  mat4.fromRotation rad
    (vec3.transformMat4 (vec3.cross (vec3.fromValues 0 1 0) p) rotation) = None.
Proof.
  intros Hpole Ep HR Erot.
  assert (He : 0 < mat4.EPSILON) by (unfold mat4.EPSILON; lra).
  assert (Hn : v0 p * v0 p + v1 p * v1 p + v2 p * v2 p = GLOBE_RADIUS * GLOBE_RADIUS)
    by (rewrite Ep; apply csLatLngToECEF_norm).
  assert (Hc : cos (degToRad (LngLat.lat (Transform._center tr))) = 0).
  { unfold Rabs in Hpole. destruct (Rcase_abs _) as [N|N].
    - replace (LngLat.lat (Transform._center tr)) with (-90) by lra.
      replace (degToRad (-90)) with (- (PI / 2)) by (unfold degToRad; field).
      rewrite cos_neg. apply cos_PI2.
    - rewrite Hpole.
      replace (degToRad 90) with (PI / 2) by (unfold degToRad; field).
      apply cos_PI2. }
  set (axis := vec3.cross (vec3.fromValues 0 1 0) p).
  assert (Ha : vec3.dot axis axis = 0).
  { unfold axis, vec3.cross, vec3.fromValues, vec3.dot. rewrite Ep.
    unfold csLatLngToECEF. cbn [v0 v1 v2]. rewrite Hc. ring. }
  destruct (rotation_isometry _ GLOBE_RADIUS p axis rotation HR Hn Erot) as (Hiso & _).
  rewrite Ha in Hiso. unfold vec3.dot in Hiso.
  unfold mat4.fromRotation. rewrite Hiso, sqrt_0.
  destruct (Rlt_dec 0 mat4.EPSILON) as [_|G]; [reflexivity | exfalso; apply G; exact He].
Qed.

(** The camera without pitch, or over a pole: the pivot moved outward. *)
Lemma cameraPositionInECEF_above (tr : Transform.t) :
  -90 <= LngLat.lat (Transform._center tr) <= 90 ->
  Transform._pitch tr = 0 \/ Rabs (LngLat.lat (Transform._center tr)) = 90 ->
  mat4.EPSILON <= GLOBE_RADIUS ->
  cameraPositionInECEF tr
  = Ok (vec3.scale
          (csLatLngToECEF (cos (degToRad (LngLat.lat (Transform._center tr))))
                          (sin (degToRad (LngLat.lat (Transform._center tr))))
                          (LngLat.lng (Transform._center tr)) None)
          (1 + Transform.cameraToCenterDistance tr / Transform.pixelsPerMeter tr
               * GLOBE_METERS_TO_ECEF / GLOBE_RADIUS)).
Proof.
  intros Hlat Hcase HR.
  set (distance := Transform.cameraToCenterDistance tr / Transform.pixelsPerMeter tr
                   * GLOBE_METERS_TO_ECEF).
  assert (He : 0 < mat4.EPSILON) by (unfold mat4.EPSILON; lra).
  assert (HR0 : 0 < GLOBE_RADIUS) by lra.
  set (lat := LngLat.lat (Transform._center tr)) in *.
  set (lng := LngLat.lng (Transform._center tr)) in *.
  set (p := csLatLngToECEF (cos (degToRad lat)) (sin (degToRad lat)) lng None).
  assert (Hp : latLngToECEF lat lng None = Ok p)
    by (apply latLngToECEF_in_range; exact Hlat).
  assert (Hn : v0 p * v0 p + v1 p * v1 p + v2 p * v2 p = GLOBE_RADIUS * GLOBE_RADIUS)
    by (apply csLatLngToECEF_norm).
  unfold cameraPositionInECEF. fold lat lng. rewrite Hp. cbn [bind].
    destruct (mat4.fromRotation (- Transform.angle tr) p) as [rotation|] eqn:Erot.
    2:{ rewrite (fromRotation_on_sphere _ GLOBE_RADIUS p HR Hn) in Erot.
        discriminate. }
    rewrite (normalize_on_sphere p GLOBE_RADIUS HR0 Hn).
    fold distance.
    assert (Escale : vec3.scale (vec3.scale p (1 / GLOBE_RADIUS)) distance
                     = vec3.scale p (1 / GLOBE_RADIUS * distance)).
    { unfold vec3.scale. cbn [v0 v1 v2]. f_equal; ring. }
    rewrite Escale.
    assert (Efix : forall m,
               vec3.transformMat4 (vec3.scale p (1 / GLOBE_RADIUS * distance)) m
               = vec3.scale p (1 / GLOBE_RADIUS * distance) ->
               vec3.add p (vec3.transformMat4
                             (vec3.scale p (1 / GLOBE_RADIUS * distance)) m)
               = vec3.scale p (1 + distance / GLOBE_RADIUS)).
    { intros m ->. unfold vec3.add, vec3.scale. cbn [v0 v1 v2].
      f_equal; field; lra. }
    destruct (mat4.fromRotation (- Transform._pitch tr) _) as [tilted|] eqn:Etilt.
    - destruct Hcase as [Hpitch|Hpole].
      + rewrite Hpitch, Ropp_0 in Etilt.
        f_equal. apply Efix. apply (rotation_by_zero _ _ _ Etilt).
      + rewrite (pole_axis_null tr p rotation _ Hpole eq_refl HR Erot) in Etilt.
        discriminate.
    - f_equal. apply Efix.
      apply (rotation_fixes_axis _ GLOBE_RADIUS _ p rotation HR Hn Erot).
Qed.

(** X23: without pitch, and at the poles whatever the pitch, the camera is
    straight above the center of the map at the camera distance from the
    surface, whatever the bearing; when that distance is positive the tilt
    at the center is 0 and the center is not behind the globe. *)
Theorem cameraPositionInECEF_straight_above (tr : Transform.t) :
  -90 <= LngLat.lat (Transform._center tr) <= 90 ->
  Transform._pitch tr = 0 \/ Rabs (LngLat.lat (Transform._center tr)) = 90 ->
  mat4.EPSILON <= GLOBE_RADIUS ->
  0 < Transform.pixelsPerMeter tr ->
  let distance := Transform.cameraToCenterDistance tr / Transform.pixelsPerMeter tr
                  * GLOBE_METERS_TO_ECEF in
  exists pivot : Vec3,
    latLngToECEF (LngLat.lat (Transform._center tr))
                 (LngLat.lng (Transform._center tr)) None = Ok pivot /\
    cameraPositionInECEF tr = Ok (vec3.scale pivot (1 + distance / GLOBE_RADIUS)) /\
    (0 < distance ->
     globeTiltAtLngLat tr (Transform.center tr) = Ok 0 /\
     isLngLatBehindGlobe tr (Transform.center tr) = Ok false).
Proof.
  intros Hlat Hcase HR _ distance.
  assert (He : 0 < mat4.EPSILON) by (unfold mat4.EPSILON; lra).
  assert (HR0 : 0 < GLOBE_RADIUS) by lra.
  set (lat := LngLat.lat (Transform._center tr)) in *.
  set (lng := LngLat.lng (Transform._center tr)) in *.
  set (p := csLatLngToECEF (cos (degToRad lat)) (sin (degToRad lat)) lng None).
  assert (Hp : latLngToECEF lat lng None = Ok p)
    by (apply latLngToECEF_in_range; exact Hlat).
  assert (Hn : v0 p * v0 p + v1 p * v1 p + v2 p * v2 p = GLOBE_RADIUS * GLOBE_RADIUS)
    by (apply csLatLngToECEF_norm).
  assert (Hcam : cameraPositionInECEF tr
                 = Ok (vec3.scale p (1 + distance / GLOBE_RADIUS)))
    by (apply cameraPositionInECEF_above; assumption).
  exists p. split; [exact Hp|]. split; [exact Hcam|].
  intros Hd.
  assert (Htilt : globeTiltAtLngLat tr (Transform.center tr) = Ok 0).
  { unfold globeTiltAtLngLat, Transform.center. fold lat lng.
    rewrite Hp, Hcam. cbn [bind]. f_equal.
    unfold vec3.angle, vec3.subtract, vec3.sub, vec3.scale, vec3.dot.
    destruct p as [x y z]. cbn [v0 v1 v2] in *.
    set (q := 1 + distance / GLOBE_RADIUS).
    replace ((x * q - x) * (x * q - x) + (y * q - y) * (y * q - y)
             + (z * q - z) * (z * q - z)) with (distance * distance).
    2:{ transitivity ((x * x + y * y + z * z) * ((q - 1) * (q - 1))); [|ring].
        rewrite Hn. unfold q. field. lra. }
    rewrite Hn. rewrite !sqrt_of_square by lra.
    destruct (Req_dec_T (distance * GLOBE_RADIUS) 0) as [E0|_]; [nra|].
    replace (((x * q - x) * x + (y * q - y) * y + (z * q - z) * z)
             / (distance * GLOBE_RADIUS)) with 1.
    2:{ transitivity ((x * x + y * y + z * z) * (q - 1) / (distance * GLOBE_RADIUS));
          [|unfold Rdiv; ring].
        rewrite Hn. unfold q. field. lra. }
    rewrite (Rmax_left 1 (-1)) by lra. rewrite (Rmin_left 1 1) by lra.
    apply acos_1. }
  split; [exact Htilt|].
  unfold isLngLatBehindGlobe. rewrite Htilt. cbn [bind].
  assert (Hpi := PI_RGT_0).
  destruct (Rgt_dec 0 (PI / 2 * (101 / 100))) as [G|_]; [lra|]. reflexivity.
Qed.

(** X24: away from the poles the tilt at the center of the map is the pitch of
    the camera, whatever the bearing, so the center is reported behind the
    globe exactly when the pitch exceeds [PI / 2 * 1.01]. *)
Theorem globeTiltAtLngLat_center_pitch (tr : Transform.t) :
  -90 <= LngLat.lat (Transform._center tr) <= 90 ->
  0 <= Transform._pitch tr <= PI ->
  mat4.EPSILON
  <= GLOBE_RADIUS * cos (degToRad (LngLat.lat (Transform._center tr))) ->
  0 < Transform.cameraToCenterDistance tr / Transform.pixelsPerMeter tr
      * GLOBE_METERS_TO_ECEF ->
  globeTiltAtLngLat tr (Transform.center tr) = Ok (Transform._pitch tr) /\
  isLngLatBehindGlobe tr (Transform.center tr)
  = Ok (if Rgt_dec (Transform._pitch tr) (PI / 2 * (101 / 100)) then true else false).
Proof.
  intros Hlat Hpitch Haxis Hd.
  assert (He : 0 < mat4.EPSILON) by (unfold mat4.EPSILON; lra).
  assert (Hpi := PI_RGT_0).
  set (lat := LngLat.lat (Transform._center tr)) in *.
  set (lng := LngLat.lng (Transform._center tr)) in *.
  set (distance := Transform.cameraToCenterDistance tr / Transform.pixelsPerMeter tr
                   * GLOBE_METERS_TO_ECEF) in *.
  assert (Hcl : 0 <= cos (degToRad lat) <= 1).
  { split; [|apply COS_bound].
    apply cos_ge_0; unfold degToRad; nra. }
  assert (HR0 : 0 < GLOBE_RADIUS) by nra.
  assert (HR : mat4.EPSILON <= GLOBE_RADIUS) by nra.
  set (p := csLatLngToECEF (cos (degToRad lat)) (sin (degToRad lat)) lng None).
  assert (Hp : latLngToECEF lat lng None = Ok p)
    by (apply latLngToECEF_in_range; exact Hlat).
  assert (Hn : v0 p * v0 p + v1 p * v1 p + v2 p * v2 p = GLOBE_RADIUS * GLOBE_RADIUS)
    by (apply csLatLngToECEF_norm).
  assert (Htilt : globeTiltAtLngLat tr (Transform.center tr) = Ok (Transform._pitch tr)).
  { unfold globeTiltAtLngLat, Transform.center. fold lat lng. rewrite Hp. cbn [bind].
    unfold cameraPositionInECEF. fold lat lng. rewrite Hp. cbn [bind].
    destruct (mat4.fromRotation (- Transform.angle tr) p) as [rotation|] eqn:Erot.
    2:{ rewrite (fromRotation_on_sphere _ GLOBE_RADIUS p HR Hn) in Erot.
        discriminate. }
    set (axis0 := vec3.cross (vec3.fromValues 0 1 0) p).
    set (axis := vec3.transformMat4 axis0 rotation).
    destruct (rotation_isometry _ GLOBE_RADIUS p axis0 rotation HR Hn Erot)
      as (Hiso & Hdot & _).
    fold axis in Hiso, Hdot.
    assert (Ha0 : vec3.dot axis0 axis0
                  = GLOBE_RADIUS * cos (degToRad lat)
                    * (GLOBE_RADIUS * cos (degToRad lat))).
    { unfold axis0, vec3.cross, vec3.fromValues, vec3.dot, p, csLatLngToECEF.
      cbn [v0 v1 v2]. generalize (sqr_sin_cos (degToRad lng)). intros Hg.
      transitivity (GLOBE_RADIUS * cos (degToRad lat)
                    * (GLOBE_RADIUS * cos (degToRad lat))
                    * (sin (degToRad lng) * sin (degToRad lng)
                       + cos (degToRad lng) * cos (degToRad lng))); [ring|].
      rewrite Hg. ring. }
    assert (Ha0p : vec3.dot axis0 p = 0).
    { unfold axis0, vec3.cross, vec3.fromValues, vec3.dot. cbn [v0 v1 v2]. ring. }
    rewrite Ha0 in Hiso. rewrite Ha0p in Hdot.
    destruct (mat4.fromRotation (- Transform._pitch tr) axis) as [tilted|] eqn:Etilt.
    2:{ rewrite (fromRotation_on_sphere _ (GLOBE_RADIUS * cos (degToRad lat))
                   axis Haxis Hiso) in Etilt. discriminate. }
    cbn [bind]. f_equal.
    rewrite (normalize_on_sphere p GLOBE_RADIUS HR0 Hn). fold distance.
    set (w := vec3.scale (vec3.scale p (1 / GLOBE_RADIUS)) distance).
    assert (Ew : w = vec3.scale p (distance / GLOBE_RADIUS)).
    { unfold w, vec3.scale. cbn [v0 v1 v2]. f_equal; field; lra. }
    assert (Hww : vec3.dot w w = distance * distance).
    { rewrite Ew. unfold vec3.dot, vec3.scale. cbn [v0 v1 v2].
      transitivity ((v0 p * v0 p + v1 p * v1 p + v2 p * v2 p)
                    * (distance / GLOBE_RADIUS * (distance / GLOBE_RADIUS))); [ring|].
      rewrite Hn. field. lra. }
    assert (Haw : vec3.dot axis w = 0).
    { rewrite Ew. unfold vec3.dot, vec3.scale in *. cbn [v0 v1 v2].
      transitivity ((v0 axis * v0 p + v1 axis * v1 p + v2 axis * v2 p)
                    * (distance / GLOBE_RADIUS)); [ring|].
      rewrite Hdot. ring. }
    destruct (rotation_isometry _ (GLOBE_RADIUS * cos (degToRad lat)) axis w tilted
                Haxis Hiso Etilt) as (Hee & _ & Hew).
    specialize (Hew Haw). rewrite Hww in Hee, Hew. rewrite cos_neg in Hew.
    set (e := vec3.transformMat4 w tilted) in *.
    assert (Hep : vec3.dot e p = cos (Transform._pitch tr) * distance * GLOBE_RADIUS).
    { assert (Epw : p = vec3.scale w (GLOBE_RADIUS / distance)).
      { rewrite Ew. unfold vec3.scale. cbn [v0 v1 v2]. destruct p as [x y z].
        cbn [v0 v1 v2]. f_equal; field; lra. }
      rewrite Epw at 1. unfold vec3.dot, vec3.scale in *. cbn [v0 v1 v2].
      transitivity ((v0 e * v0 w + v1 e * v1 w + v2 e * v2 w)
                    * (GLOBE_RADIUS / distance)); [ring|].
      rewrite Hew. field. lra. }
    unfold vec3.angle, vec3.subtract.
    assert (Esub : vec3.sub (vec3.add p e) p = e).
    { unfold vec3.sub, vec3.add. destruct e as [e0 e1 e2], p as [x y z].
      cbn [v0 v1 v2]. f_equal; ring. }
    rewrite Esub.
    change (v0 e * v0 e + v1 e * v1 e + v2 e * v2 e) with (vec3.dot e e).
    rewrite Hee, Hn, Hep. rewrite !sqrt_of_square by lra.
    destruct (Req_dec_T (distance * GLOBE_RADIUS) 0) as [E0|_]; [nra|].
    replace (cos (Transform._pitch tr) * distance * GLOBE_RADIUS
             / (distance * GLOBE_RADIUS)) with (cos (Transform._pitch tr))
      by (field; lra).
    assert (Hcb := COS_bound (Transform._pitch tr)).
    rewrite (Rmax_left _ (-1)) by lra. rewrite (Rmin_left _ 1) by lra.
    apply acos_cos. exact Hpitch. }
  split; [exact Htilt|].
  unfold isLngLatBehindGlobe. rewrite Htilt. reflexivity.
Qed.

End CameraProperties.

(** * Properties of the shared buffers *)

Lemma Zceil_IZR (z : Z) : Zceil (IZR z) = z.
Proof. apply Zceil_eq. lra. Qed.

Lemma Zfloor_IZR (z : Z) : Zfloor (IZR z) = z.
Proof. apply Zfloor_eq. lra. Qed.

Lemma In_counter (n : nat) (i : Z) :
  In i (map Z.of_nat (seq 0 n)) <-> (0 <= i < Z.of_nat n)%Z.
Proof.
  rewrite in_map_iff. split.
  - intros (k & Ek & Hk). apply in_seq in Hk. lia.
  - intros Hi. exists (Z.to_nat i). split; [lia|]. apply in_seq. lia.
Qed.

Lemma In_countBelow (z i : Z) :
  In i (countBelow (IZR z)) <-> (0 <= i < z)%Z.
Proof.
  unfold countBelow. rewrite Zceil_IZR, In_counter. lia.
Qed.

Lemma In_countThrough (z i : Z) :
  In i (countThrough (IZR z)) <-> (0 <= i <= z)%Z.
Proof.
  unfold countThrough. rewrite Zfloor_IZR, In_counter. lia.
Qed.

Lemma length_countBelow (z : Z) :
  (0 <= z)%Z -> Z.of_nat (List.length (countBelow (IZR z))) = z.
Proof.
  intros Hz. unfold countBelow.
  rewrite Zceil_IZR, length_map, length_seq. lia.
Qed.

Lemma length_countThrough (z : Z) :
  (0 <= z)%Z -> Z.of_nat (List.length (countThrough (IZR z))) = (z + 1)%Z.
Proof.
  intros Hz. unfold countThrough.
  rewrite Zfloor_IZR, length_map, length_seq. lia.
Qed.

(** A loop that only appends to its array appends the pieces in order. *)
Lemma fold_left_append {A B : Type} (g : list B -> A -> list B)
    (f : A -> list B) :
  (forall arr x, g arr x = arr ++ f x) ->
  forall l acc, fold_left g l acc = acc ++ flat_map f l.
Proof.
  intros Hg l. induction l as [|x l IH]; intros acc; cbn [fold_left flat_map].
  - symmetry. apply app_nil_r.
  - rewrite IH, Hg, app_assoc. reflexivity.
Qed.

Lemma length_flat_map_Z {A B : Type} (f : A -> list B) (l : list A) (c : Z) :
  (forall x, In x l -> Z.of_nat (List.length (f x)) = c) ->
  Z.of_nat (List.length (flat_map f l)) = (Z.of_nat (List.length l) * c)%Z.
Proof.
  induction l as [|x l IH]; intros Hc; cbn [flat_map List.length].
  - lia.
  - rewrite length_app, Nat2Z.inj_add, IH, (Hc x).
    + lia.
    + left. reflexivity.
    + intros y Hy. apply Hc. right. exact Hy.
Qed.

Lemma INR_length {A : Type} (l : list A) :
  INR (List.length l) = IZR (Z.of_nat (List.length l)).
Proof. apply INR_IZR_INZ. Qed.

(** The triangles that the loops of [_createGrid] append for one level of
    detail. *)
Lemma gridIndices_loop (quadExt vertexExt latitudinalLod : R)
    (gridIndices : StructArray) :
  fold_left (fun gridIndices j =>
    fold_left (fun gridIndices i =>
      let index := IZR j * vertexExt + IZR i in
      let gridIndices :=
        emplaceBack gridIndices [index + 1; index; index + vertexExt] in
      emplaceBack gridIndices
                  [index + vertexExt; index + vertexExt + 1; index + 1])
      (countBelow quadExt) gridIndices)
    (countBelow latitudinalLod) gridIndices
  = gridIndices
    ++ flat_map (fun j =>
         flat_map (fun i =>
           [ [IZR j * vertexExt + IZR i + 1;
              IZR j * vertexExt + IZR i;
              IZR j * vertexExt + IZR i + vertexExt];
             [IZR j * vertexExt + IZR i + vertexExt;
              IZR j * vertexExt + IZR i + vertexExt + 1;
              IZR j * vertexExt + IZR i + 1] ])
           (countBelow quadExt))
         (countBelow latitudinalLod).
Proof.
  apply fold_left_append. intros arr j.
  apply fold_left_append. intros arr' i.
  cbv zeta. unfold emplaceBack. rewrite <- app_assoc. reflexivity.
Qed.

Lemma gridVertices_loop (vertexExt : R) :
  fold_left (fun gridVertices j =>
    fold_left (fun gridVertices i => emplaceBack gridVertices [IZR i; IZR j])
              (countBelow vertexExt) gridVertices)
    (countBelow vertexExt) []
  = flat_map (fun j => flat_map (fun i => [[IZR i; IZR j]]) (countBelow vertexExt))
             (countBelow vertexExt).
Proof.
  rewrite (fold_left_append _
             (fun j => flat_map (fun i => [[IZR i; IZR j]]) (countBelow vertexExt))).
  - reflexivity.
  - intros arr j. apply fold_left_append. intros arr' i. reflexivity.
Qed.

(** The indices of the triangles of [rows] rows of the grid are whole
    numbers below the number of vertices of [rows + 1] rows. *)
Lemma grid_triangle_indices (rows : Z) (triangle : list R) (index : R) :
  In triangle
     (flat_map (fun j =>
        flat_map (fun i =>
          [ [IZR j * (64 + 1) + IZR i + 1;
             IZR j * (64 + 1) + IZR i;
             IZR j * (64 + 1) + IZR i + (64 + 1)];
            [IZR j * (64 + 1) + IZR i + (64 + 1);
             IZR j * (64 + 1) + IZR i + (64 + 1) + 1;
             IZR j * (64 + 1) + IZR i + 1] ])
          (countBelow 64))
        (countBelow (IZR rows))) ->
  In index triangle ->
  exists n : Z, (0 <= n)%Z /\ index = IZR n /\ IZR n < (IZR rows + 1) * (64 + 1).
Proof.
  intros Hin Hidx.
  apply in_flat_map in Hin. destruct Hin as (j & Hj & Hin).
  apply in_flat_map in Hin. destruct Hin as (i & Hi & Hin).
  apply In_countBelow in Hj. apply In_countBelow in Hi.
  assert (Hj0 : 0 <= IZR j) by (apply IZR_le; lia).
  assert (Hj1 : IZR j <= IZR rows - 1)
    by (rewrite <- minus_IZR; apply IZR_le; lia).
  assert (Hi0 : 0 <= IZR i) by (apply IZR_le; lia).
  assert (Hi1 : IZR i <= 63) by (apply IZR_le; lia).
  assert (Hn : forall k : Z, (0 <= k <= 66)%Z ->
            index = IZR j * (64 + 1) + IZR i + IZR k ->
            exists n : Z, (0 <= n)%Z /\ index = IZR n
                          /\ IZR n < (IZR rows + 1) * (64 + 1)).
  { intros k Hk E. exists (j * 65 + i + k)%Z.
    assert (Hk1 : IZR k <= 66) by (apply IZR_le; lia).
    split; [lia|].
    rewrite !plus_IZR, mult_IZR. split; [rewrite E; lra|]. lra. }
  destruct Hin as [E|[E|[]]]; subst triangle;
    destruct Hidx as [E|[E|[E|[]]]]; subst index.
  - apply (Hn 1%Z); [lia|ring].
  - apply (Hn 0%Z); [lia|ring].
  - apply (Hn 65%Z); [lia|ring].
  - apply (Hn 65%Z); [lia|ring].
  - apply (Hn 66%Z); [lia|ring].
  - apply (Hn 1%Z); [lia|ring].
Qed.

Section MeshProperties.

Context `{Imports}.

Lemma createGrid_parts :
  let quads := fun rows : R =>
    flat_map (fun j =>
      flat_map (fun i =>
        [ [IZR j * (64 + 1) + IZR i + 1;
           IZR j * (64 + 1) + IZR i;
           IZR j * (64 + 1) + IZR i + (64 + 1)];
          [IZR j * (64 + 1) + IZR i + (64 + 1);
           IZR j * (64 + 1) + IZR i + (64 + 1) + 1;
           IZR j * (64 + 1) + IZR i + 1] ])
        (countBelow 64))
      (countBelow rows) in
  _createGrid
  = (flat_map (fun j => flat_map (fun i => [[IZR i; IZR j]]) (countBelow (64 + 1)))
              (countBelow (64 + 1)),
     (([] ++ quads 64) ++ quads (64 / 2)) ++ quads (64 / 4),
     [ SegmentVector.simpleSegment 0 0 ((64 + 1) * (64 + 1)) (64 * 64 * 2);
       SegmentVector.simpleSegment 0 (0 + 64 * 64 * 2)
                                   ((64 / 2 + 1) * (64 + 1)) (64 / 2 * 64 * 2);
       SegmentVector.simpleSegment 0 (0 + 64 * 64 * 2 + 64 / 2 * 64 * 2)
                                   ((64 / 4 + 1) * (64 + 1)) (64 / 4 * 64 * 2) ]).
Proof.
  intros quads. unfold _createGrid, GLOBE_LATITUDINAL_GRID_LOD_TABLE,
    GLOBE_VERTEX_GRID_SIZE.
  cbv zeta. cbn [fold_left fst snd app].
  rewrite gridVertices_loop, !gridIndices_loop. reflexivity.
Qed.

Lemma length_grid_quads (rows : Z) :
  (0 <= rows)%Z ->
  Z.of_nat (List.length
    (flat_map (fun j =>
       flat_map (fun i =>
         [ [IZR j * (64 + 1) + IZR i + 1;
            IZR j * (64 + 1) + IZR i;
            IZR j * (64 + 1) + IZR i + (64 + 1)];
           [IZR j * (64 + 1) + IZR i + (64 + 1);
            IZR j * (64 + 1) + IZR i + (64 + 1) + 1;
            IZR j * (64 + 1) + IZR i + 1] ])
         (countBelow 64))
       (countBelow (IZR rows))))
  = (rows * 128)%Z.
Proof.
  intros Hr.
  rewrite (length_flat_map_Z _ _ 128), length_countBelow by
    (try lia; intros j _;
     rewrite (length_flat_map_Z _ _ 2), length_countBelow by
       (try lia; intros i _; reflexivity);
     reflexivity).
  reflexivity.
Qed.

Lemma length_grid_vertices :
  Z.of_nat (List.length
    (flat_map (fun j => flat_map (fun i => [[IZR i; IZR j]]) (countBelow (64 + 1)))
              (countBelow (64 + 1))))
  = 4225%Z.
Proof.
  replace (64 + 1) with 65 by lra.
  rewrite (length_flat_map_Z _ _ 65), length_countBelow by
    (try lia; intros j _;
     rewrite (length_flat_map_Z _ _ 1), length_countBelow by
       (try lia; intros i _; reflexivity);
     reflexivity).
  reflexivity.
Qed.

(** X25: the grid has a segment for the levels of detail 0, 1 and 2 and for no
    other.  The triangles of a segment are in the index buffer, from the
    primitive offset of the segment on; there are two of them for every
    cell of the rows of that level, and each of their indices is a whole
    number below the vertex count of the segment, which the vertex buffer
    holds. *)
Theorem gridBuffers_segments (latitudinalLod : Z) :
  let this := newGlobeSharedBuffers in
  let segment := snd (getGridBuffers this latitudinalLod) in
  (segment = None <-> (latitudinalLod < 0 \/ 3 <= latitudinalLod)%Z) /\
  forall seg, segment = Some seg ->
    exists (rows : R) (before triangles after : StructArray),
      lookupZ GLOBE_LATITUDINAL_GRID_LOD_TABLE latitudinalLod = Some rows /\
      GlobeSharedBuffers._gridIndexBuffer this = before ++ triangles ++ after /\
      INR (List.length before) = SegmentVector.primitiveOffset seg /\
      INR (List.length triangles) = SegmentVector.primitiveLength seg /\
      SegmentVector.primitiveLength seg = rows * GLOBE_VERTEX_GRID_SIZE * 2 /\
      SegmentVector.vertexOffset seg = 0 /\
      SegmentVector.vertexLength seg = (rows + 1) * (GLOBE_VERTEX_GRID_SIZE + 1) /\
      SegmentVector.vertexLength seg
      <= INR (List.length (GlobeSharedBuffers._gridBuffer this)) /\
      forall triangle index, In triangle triangles -> In index triangle ->
        exists n : Z, (0 <= n)%Z /\ index = IZR n
                      /\ IZR n < SegmentVector.vertexLength seg.
Proof.
  intros this segment.
  unfold segment, getGridBuffers, this, newGlobeSharedBuffers.
  cbv zeta.
  cbn [GlobeSharedBuffers._gridSegments GlobeSharedBuffers._gridIndexBuffer
       GlobeSharedBuffers._gridBuffer snd].
  rewrite createGrid_parts. cbv zeta. cbn [fst snd].
  unfold lookupZ, GLOBE_LATITUDINAL_GRID_LOD_TABLE, GLOBE_VERTEX_GRID_SIZE.
  assert (L64 := length_grid_quads 64 ltac:(lia)).
  assert (L32 := length_grid_quads 32 ltac:(lia)).
  assert (L16 := length_grid_quads 16 ltac:(lia)).
  change (64 * 128)%Z with 8192%Z in L64.
  change (32 * 128)%Z with 4096%Z in L32.
  change (16 * 128)%Z with 2048%Z in L16.
  assert (LV := length_grid_vertices).
  assert (I64 := grid_triangle_indices 64).
  assert (I32 := grid_triangle_indices 32).
  assert (I16 := grid_triangle_indices 16).
  replace (64 / 2) with 32 by lra. replace (64 / 4) with 16 by lra.
  set (q64 := flat_map _ (countBelow 64)) in *.
  set (q32 := flat_map _ (countBelow 32)) in *.
  set (q16 := flat_map _ (countBelow 16)) in *.
  set (vs := flat_map _ (countBelow (64 + 1))) in *.
  destruct (Z.ltb_spec latitudinalLod 0) as [Hneg|Hpos].
  { split; [split; [intros _; lia | reflexivity] | intros seg E; discriminate E]. }
  destruct (Z.to_nat latitudinalLod) as [|[|[|n]]] eqn:En; cbn [nth_error].
  - split; [split; [intros E; discriminate E | lia]|].
    intros seg E. injection E as <-. cbn [SegmentVector.primitiveOffset
      SegmentVector.primitiveLength SegmentVector.vertexOffset
      SegmentVector.vertexLength].
    exists 64, [], q64, (q32 ++ q16).
    split; [reflexivity|].
    split; [cbn [app]; rewrite <- app_assoc; reflexivity|].
    split; [reflexivity|].
    split; [rewrite INR_length, L64; lra|].
    split; [reflexivity|]. split; [reflexivity|]. split; [reflexivity|].
    split; [rewrite INR_length, LV; lra|].
    intros triangle index Ht Hi.
    destruct (I64 triangle index Ht Hi) as (k & Hk & Ek & Hlt).
    exists k. split; [exact Hk|]. split; [exact Ek|]. lra.
  - split; [split; [intros E; discriminate E | lia]|].
    intros seg E. injection E as <-. cbn [SegmentVector.primitiveOffset
      SegmentVector.primitiveLength SegmentVector.vertexOffset
      SegmentVector.vertexLength].
    exists 32, q64, q32, q16.
    split; [reflexivity|].
    split; [cbn [app]; rewrite <- app_assoc; reflexivity|].
    split; [rewrite INR_length, L64; lra|].
    split; [rewrite INR_length, L32; lra|].
    split; [reflexivity|]. split; [reflexivity|]. split; [reflexivity|].
    split; [rewrite INR_length, LV; lra|].
    intros triangle index Ht Hi.
    destruct (I32 triangle index Ht Hi) as (k & Hk & Ek & Hlt).
    exists k. split; [exact Hk|]. split; [exact Ek|]. lra.
  - split; [split; [intros E; discriminate E | lia]|].
    intros seg E. injection E as <-. cbn [SegmentVector.primitiveOffset
      SegmentVector.primitiveLength SegmentVector.vertexOffset
      SegmentVector.vertexLength].
    exists 16, (q64 ++ q32), q16, [].
    split; [reflexivity|].
    split; [cbn [app]; rewrite app_nil_r; reflexivity|].
    split; [rewrite INR_length, length_app, Nat2Z.inj_add, L64, L32, plus_IZR; lra|].
    split; [rewrite INR_length, L16; lra|].
    split; [reflexivity|]. split; [reflexivity|]. split; [reflexivity|].
    split; [rewrite INR_length, LV; lra|].
    intros triangle index Ht Hi.
    destruct (I16 triangle index Ht Hi) as (k & Hk & Ek & Hlt).
    exists k. split; [exact Hk|]. split; [exact Ek|]. lra.
  - split; [split; [intros _; lia | intros _]|].
    + destruct n; reflexivity.
    + intros seg E. destruct n; discriminate E.
Qed.

(** The vertices that the inner loop of [_createPoles] appends. *)
Lemma poleVertices_loop (endAngle radius : R) (counter : list Z)
    (northVertices southVertices : StructArray) :
  fold_left (fun (vertices : StructArray * StructArray) i =>
    let uvX := IZR i / GLOBE_VERTEX_GRID_SIZE in
    let angle := interpolate 0 endAngle uvX in
    let g := csLatLngToECEF POLE_COS POLE_SIN angle (Some radius) in
    (emplaceBack (fst vertices) [v0 g; v1 g; v2 g; 0; 0; uvX; 0],
     emplaceBack (snd vertices) [v0 g; v1 g; v2 g; 0; 0; uvX; 1]))
    counter (northVertices, southVertices)
  = (northVertices
     ++ map (fun i =>
          let uvX := IZR i / GLOBE_VERTEX_GRID_SIZE in
          let g := csLatLngToECEF POLE_COS POLE_SIN (interpolate 0 endAngle uvX)
                                  (Some radius) in
          [v0 g; v1 g; v2 g; 0; 0; uvX; 0]) counter,
     southVertices
     ++ map (fun i =>
          let uvX := IZR i / GLOBE_VERTEX_GRID_SIZE in
          let g := csLatLngToECEF POLE_COS POLE_SIN (interpolate 0 endAngle uvX)
                                  (Some radius) in
          [v0 g; v1 g; v2 g; 0; 0; uvX; 1]) counter).
Proof.
  revert northVertices southVertices.
  induction counter as [|i counter IH]; intros northVertices southVertices;
    cbn [fold_left map].
  - rewrite !app_nil_r. reflexivity.
  - cbv zeta. cbn [fst snd]. rewrite IH. unfold emplaceBack.
    rewrite <- !app_assoc. reflexivity.
Qed.

(** The loop of [_createPoles] over the zoom levels appends one fan of
    vertices and one segment for every level. *)
Lemma createPoles_loop (zooms : list Z) :
  forall (northVertices southVertices : StructArray)
         (segments : list SegmentVector.t) (offset : R),
  let fan := fun (side : R) (zoom : Z) =>
    let radius := IZR (shl1 zoom) * TILE_SIZE / PI / 2 in
    [0; - radius; 0; 0; 0; 1 / 2; side]
    :: map (fun i =>
         let uvX := IZR i / GLOBE_VERTEX_GRID_SIZE in
         let g := csLatLngToECEF POLE_COS POLE_SIN
                    (interpolate 0 (360 / IZR (shl1 zoom)) uvX) (Some radius) in
         [v0 g; v1 g; v2 g; 0; 0; uvX; side])
         (countThrough GLOBE_VERTEX_GRID_SIZE) in
  fold_left (fun (state : StructArray * StructArray * list SegmentVector.t * R) zoom =>
      let northVertices := fst (fst (fst state)) in
      let southVertices := snd (fst (fst state)) in
      let _poleSegments := snd (fst state) in
      let offset := snd state in
      let tiles := IZR (shl1 zoom) in
      let radius := tiles * TILE_SIZE / PI / 2 in
      let endAngle := 360 / tiles in
      let northVertices := emplaceBack northVertices [0; - radius; 0; 0; 0; 1 / 2; 0] in
      let southVertices := emplaceBack southVertices [0; - radius; 0; 0; 0; 1 / 2; 1] in
      let ring :=
        fold_left (fun (vertices : StructArray * StructArray) i =>
          let uvX := IZR i / GLOBE_VERTEX_GRID_SIZE in
          let angle := interpolate 0 endAngle uvX in
          let g := csLatLngToECEF POLE_COS POLE_SIN angle (Some radius) in
          (emplaceBack (fst vertices) [v0 g; v1 g; v2 g; 0; 0; uvX; 0],
           emplaceBack (snd vertices) [v0 g; v1 g; v2 g; 0; 0; uvX; 1]))
          (countThrough GLOBE_VERTEX_GRID_SIZE) (northVertices, southVertices) in
      (fst ring, snd ring,
       _poleSegments
         ++ [SegmentVector.simpleSegment offset 0 (GLOBE_VERTEX_GRID_SIZE + 2)
                                         GLOBE_VERTEX_GRID_SIZE],
       offset + (GLOBE_VERTEX_GRID_SIZE + 2)))
    zooms (northVertices, southVertices, segments, offset)
  = (northVertices ++ flat_map (fan 0) zooms,
     southVertices ++ flat_map (fan 1) zooms,
     segments
     ++ map (fun k =>
          SegmentVector.simpleSegment
            (offset + (GLOBE_VERTEX_GRID_SIZE + 2) * IZR (Z.of_nat k)) 0
            (GLOBE_VERTEX_GRID_SIZE + 2) GLOBE_VERTEX_GRID_SIZE)
          (seq 0 (List.length zooms)),
     offset + (GLOBE_VERTEX_GRID_SIZE + 2) * IZR (Z.of_nat (List.length zooms))).
Proof.
  induction zooms as [|zoom zooms IH]; intros northVertices southVertices
    segments offset fan.
  - cbn [fold_left flat_map List.length seq map]. rewrite !app_nil_r.
    f_equal. change (Z.of_nat 0) with 0%Z. ring.
  - cbn [fold_left]. cbv zeta. cbn [fst snd].
    rewrite poleVertices_loop. cbn [fst snd].
    specialize (IH (emplaceBack northVertices
                      [0; - (IZR (shl1 zoom) * TILE_SIZE / PI / 2); 0; 0; 0; 1 / 2; 0]
                    ++ map (fun i =>
                         let uvX := IZR i / GLOBE_VERTEX_GRID_SIZE in
                         let g := csLatLngToECEF POLE_COS POLE_SIN
                                    (interpolate 0 (360 / IZR (shl1 zoom)) uvX)
                                    (Some (IZR (shl1 zoom) * TILE_SIZE / PI / 2)) in
                         [v0 g; v1 g; v2 g; 0; 0; uvX; 0])
                         (countThrough GLOBE_VERTEX_GRID_SIZE))).
    cbv zeta in IH. cbv zeta. rewrite IH. clear IH.
    unfold fan, emplaceBack. cbn [flat_map List.length seq map].
    rewrite <- seq_shift, map_map.
    f_equal; [f_equal; [f_equal|]|].
    + rewrite <- !app_assoc. reflexivity.
    + rewrite <- !app_assoc. reflexivity.
    + rewrite <- app_assoc. cbn [app]. f_equal. f_equal.
      * f_equal. change (Z.of_nat 0) with 0%Z. ring.
      * apply map_ext. intros k. f_equal.
        rewrite Nat2Z.inj_succ, succ_IZR. ring.
    + rewrite Nat2Z.inj_succ, succ_IZR. ring.
Qed.

Lemma fold_left_emplaceBack {A : Type} (f : A -> list R) (l : list A)
    (arr : StructArray) :
  fold_left (fun arr x => emplaceBack arr (f x)) l arr = arr ++ map f l.
Proof.
  revert arr. induction l as [|x l IH]; intros arr; cbn [fold_left map].
  - symmetry. apply app_nil_r.
  - rewrite IH. unfold emplaceBack. rewrite <- app_assoc. reflexivity.
Qed.

Lemma createPoles_parts :
  let fan := fun (side : R) (zoom : Z) =>
    let radius := IZR (shl1 zoom) * TILE_SIZE / PI / 2 in
    [0; - radius; 0; 0; 0; 1 / 2; side]
    :: map (fun i =>
         let uvX := IZR i / GLOBE_VERTEX_GRID_SIZE in
         let g := csLatLngToECEF POLE_COS POLE_SIN
                    (interpolate 0 (360 / IZR (shl1 zoom)) uvX) (Some radius) in
         [v0 g; v1 g; v2 g; 0; 0; uvX; side])
         (countThrough GLOBE_VERTEX_GRID_SIZE) in
  _createPoles
  = (map (fun i => [0; IZR i + 1; IZR i + 2]) (countThrough GLOBE_VERTEX_GRID_SIZE),
     flat_map (fan 0) [0; 1; 2; 3; 4]%Z,
     flat_map (fan 1) [0; 1; 2; 3; 4]%Z,
     map (fun k =>
            SegmentVector.simpleSegment
              (0 + (GLOBE_VERTEX_GRID_SIZE + 2) * IZR (Z.of_nat k)) 0
              (GLOBE_VERTEX_GRID_SIZE + 2) GLOBE_VERTEX_GRID_SIZE)
         (seq 0 5)).
Proof.
  intros fan. unfold _createPoles. cbv zeta.
  rewrite (fold_left_emplaceBack (fun i => [0; IZR i + 1; IZR i + 2])).
  assert (E5 : countBelow GLOBE_ZOOM_THRESHOLD_MIN = [0; 1; 2; 3; 4]%Z).
  { unfold countBelow, GLOBE_ZOOM_THRESHOLD_MIN. rewrite Zceil_IZR. reflexivity. }
  rewrite E5.
  assert (L := createPoles_loop [0; 1; 2; 3; 4]%Z [] [] [] 0).
  cbv zeta in L.
  match goal with
  | |- context [fold_left ?step [0%Z; 1%Z; 2%Z; 3%Z; 4%Z] ?start] =>
      set (loop := fold_left step [0%Z; 1%Z; 2%Z; 3%Z; 4%Z] start)
  end.
  match type of L with
  | _ = ?closed => assert (EL : loop = closed) by exact L
  end.
  rewrite EL. cbn [fst snd app]. reflexivity.
Qed.

Lemma lookupZ_map_seq {A : Type} (g : nat -> A) (n : nat) (z : Z) :
  lookupZ (map g (seq 0 n)) z
  = if ((0 <=? z) && (z <? Z.of_nat n))%Z then Some (g (Z.to_nat z)) else None.
Proof.
  unfold lookupZ.
  destruct (Z.ltb_spec z 0) as [Hneg|Hpos].
  - destruct (Z.leb_spec 0 z); [lia|]. reflexivity.
  - destruct (Z.leb_spec 0 z); [|lia]. cbn [andb].
    rewrite nth_error_map, nth_error_seq.
    destruct (Z.ltb_spec z (Z.of_nat n)) as [Hlt|Hge];
      destruct (Nat.ltb_spec (Z.to_nat z) n); try lia; reflexivity.
Qed.

(** A list of blocks of one length, up to the block of [z]. *)
Lemma flat_map_split {B : Type} (f : Z -> list B) (c : Z) (n : nat) (z : Z) :
  (forall x, Z.of_nat (List.length (f x)) = c) ->
  (0 <= z < Z.of_nat n)%Z ->
  exists before after : list B,
    flat_map f (map Z.of_nat (seq 0 n)) = before ++ f z ++ after /\
    Z.of_nat (List.length before) = (z * c)%Z /\
    Z.of_nat (List.length (flat_map f (map Z.of_nat (seq 0 n))))
    = (Z.of_nat n * c)%Z.
Proof.
  intros Hc Hz.
  exists (flat_map f (map Z.of_nat (seq 0 (Z.to_nat z)))),
         (flat_map f (map Z.of_nat (seq (S (Z.to_nat z)) (n - S (Z.to_nat z))))).
  split; [|split].
  - replace n with (Z.to_nat z + S (n - S (Z.to_nat z)))%nat at 1 by lia.
    rewrite seq_app, map_app, flat_map_app. cbn [seq map flat_map Nat.add].
    rewrite ?Nat.add_0_l, Z2Nat.id by lia. reflexivity.
  - rewrite (length_flat_map_Z _ _ c) by (intros x _; apply Hc).
    rewrite length_map, length_seq, Z2Nat.id by lia. reflexivity.
  - rewrite (length_flat_map_Z _ _ c) by (intros x _; apply Hc).
    rewrite length_map, length_seq. reflexivity.
Qed.

(** X26: the poles have a segment for the zoom levels 0 to 4 and for no
    other.  A segment draws 64 triangles from the start of the index
    buffer, on the 66 vertices from its vertex offset on, which both
    vertex buffers hold; every index of those triangles is a whole number
    below 66.  The index buffer holds one triangle more, which no segment
    draws and whose last index is 66. *)
Theorem poleBuffers_segments (z : Z) :
  let this := newGlobeSharedBuffers in
  let segment := snd (getPoleBuffers this z) in
  let poleIndices := GlobeSharedBuffers._poleIndexBuffer this in
  (segment = None <-> (z < 0 \/ 5 <= z)%Z) /\
  List.length poleIndices = 65%nat /\
  nth_error poleIndices 64 = Some [0; 65; 66] /\
  forall seg, segment = Some seg ->
    SegmentVector.primitiveOffset seg = 0 /\
    SegmentVector.primitiveLength seg = 64 /\
    SegmentVector.vertexLength seg = 66 /\
    SegmentVector.vertexOffset seg = 66 * IZR z /\
    SegmentVector.vertexOffset seg + SegmentVector.vertexLength seg
    <= INR (List.length (GlobeSharedBuffers._poleNorthVertexBuffer this)) /\
    List.length (GlobeSharedBuffers._poleSouthVertexBuffer this)
    = List.length (GlobeSharedBuffers._poleNorthVertexBuffer this) /\
    forall triangle index,
      In triangle (firstn 64 poleIndices) -> In index triangle ->
      exists n : Z, (0 <= n)%Z /\ index = IZR n
                    /\ IZR n < SegmentVector.vertexLength seg.
Proof.
  intros this segment poleIndices.
  unfold segment, poleIndices, getPoleBuffers, this, newGlobeSharedBuffers.
  cbv zeta.
  cbn [GlobeSharedBuffers._poleSegments GlobeSharedBuffers._poleIndexBuffer
       GlobeSharedBuffers._poleNorthVertexBuffer
       GlobeSharedBuffers._poleSouthVertexBuffer snd].
  rewrite createPoles_parts. cbv zeta. cbn [fst snd].
  unfold GLOBE_VERTEX_GRID_SIZE.
  assert (E65 : countThrough 64 = map Z.of_nat (seq 0 65)).
  { unfold countThrough. rewrite Zfloor_IZR. reflexivity. }
  rewrite lookupZ_map_seq.
  assert (Hfan : forall (tip : list R) (vertex : Z -> list R),
            Z.of_nat (List.length (tip :: map vertex (countThrough 64))) = 66%Z).
  { intros tip vertex. cbn [List.length].
    rewrite length_map, E65, length_map, length_seq. reflexivity. }
  split; [|split; [|split]].
  - destruct (Z.leb_spec 0 z); destruct (Z.ltb_spec z (Z.of_nat 5)); cbn [andb];
      split; intros E; try discriminate E; try reflexivity; lia.
  - rewrite length_map, E65, length_map, length_seq. reflexivity.
  - rewrite nth_error_map, E65, nth_error_map, nth_error_seq.
    cbn [Nat.ltb Nat.leb option_map Nat.add].
    change (Z.of_nat 64) with 64%Z.
    f_equal. f_equal. f_equal; [lra|]. f_equal. lra.
  - intros seg E.
    destruct (Z.leb_spec 0 z) as [Hz0|]; [|discriminate E].
    destruct (Z.ltb_spec z (Z.of_nat 5)) as [Hz5|]; [|discriminate E].
    cbn [andb] in E. injection E as <-.
    cbn [SegmentVector.primitiveOffset SegmentVector.primitiveLength
         SegmentVector.vertexOffset SegmentVector.vertexLength].
    rewrite Z2Nat.id by lia.
    assert (Hzr : 0 <= IZR z <= 4)
      by (split; apply IZR_le; lia).
    split; [reflexivity|]. split; [reflexivity|].
    split; [lra|]. split; [lra|].
    split.
    { rewrite INR_length, (length_flat_map_Z _ _ 66) by (intros x _; apply Hfan).
      cbn [List.length]. change (Z.of_nat 5 * 66)%Z with 330%Z. lra. }
    split.
    { apply Nat2Z.inj.
      rewrite !(length_flat_map_Z _ _ 66) by (intros x _; apply Hfan).
      reflexivity. }
    intros triangle index Ht Hi.
    rewrite firstn_map, E65, firstn_map in Ht.
    change (firstn 64 (seq 0 65)) with (seq 0 64) in Ht.
    apply in_map_iff in Ht. destruct Ht as (i & <- & Hin).
    apply In_counter in Hin.
    assert (Hi0 : 0 <= IZR i) by (apply IZR_le; lia).
    assert (Hi1 : IZR i <= 63) by (apply IZR_le; lia).
    destruct Hi as [E|[E|[E|[]]]]; subst index.
    + exists 0%Z. split; [lia|]. split; [reflexivity|]. lra.
    + exists (i + 1)%Z. split; [lia|]. rewrite plus_IZR. split; [reflexivity|]. lra.
    + exists (i + 2)%Z. split; [lia|]. rewrite plus_IZR. split; [reflexivity|]. lra.
Qed.

(** X27: for a zoom level from 0 to 4, both pole buffers hold the fan of that
    level from the vertex offset of its segment on, as many vertices as
    the segment counts.  The fan starts with the tip, which is the pole of
    the sphere whose circumference is the world of that zoom level, and
    goes on with 65 vertices on the circle of latitude 85 of that
    sphere, evenly spread over the longitudes of one tile, from 0 to
    [360 / 2^z]; at zoom 0 the circle closes.  The two buffers differ in
    the last entry of a vertex only. *)
Theorem poleBuffers_fans (z : Z) :
  (0 <= z < 5)%Z ->
  let this := newGlobeSharedBuffers in
  let tiles := IZR (shl1 z) in
  let radius := tiles * TILE_SIZE / PI / 2 in
  let ring := fun i : Z =>
    csLatLngToECEF (cos (degToRad 85)) (sin (degToRad 85))
                   (360 / tiles * (IZR i / 64)) (Some radius) in
  let fan := fun side : R =>
    [0; - radius; 0; 0; 0; 1 / 2; side]
    :: map (fun i => [v0 (ring i); v1 (ring i); v2 (ring i); 0; 0; IZR i / 64; side])
           (countThrough 64) in
  exists (seg : SegmentVector.t) (beforeN afterN beforeS afterS : StructArray),
    snd (getPoleBuffers this z) = Some seg /\
    GlobeSharedBuffers._poleNorthVertexBuffer this = beforeN ++ fan 0 ++ afterN /\
    GlobeSharedBuffers._poleSouthVertexBuffer this = beforeS ++ fan 1 ++ afterS /\
    INR (List.length beforeN) = SegmentVector.vertexOffset seg /\
    INR (List.length beforeS) = SegmentVector.vertexOffset seg /\
    INR (List.length (fan 0)) = SegmentVector.vertexLength seg /\
    INR (List.length (fan 1)) = SegmentVector.vertexLength seg /\
    latLngToECEF 90 0 (Some radius) = Ok (mkVec3 0 (- radius) 0) /\
    (forall i : Z,
       latLngToECEF 85 (360 / tiles * (IZR i / 64)) (Some radius) = Ok (ring i)) /\
    (z = 0%Z -> ring 64%Z = ring 0%Z).
Proof.
  intros Hz this tiles radius ring fan.
  assert (Hpi := PI_RGT_0).
  unfold getPoleBuffers, this, newGlobeSharedBuffers.
  cbv zeta.
  cbn [GlobeSharedBuffers._poleSegments GlobeSharedBuffers._poleIndexBuffer
       GlobeSharedBuffers._poleNorthVertexBuffer
       GlobeSharedBuffers._poleSouthVertexBuffer snd].
  rewrite createPoles_parts. cbv zeta. cbn [fst snd].
  unfold GLOBE_VERTEX_GRID_SIZE.
  assert (E65 : countThrough 64 = map Z.of_nat (seq 0 65)).
  { unfold countThrough. rewrite Zfloor_IZR. reflexivity. }
  assert (Hlen : forall (tip : list R) (vertex : Z -> list R),
            Z.of_nat (List.length (tip :: map vertex (countThrough 64))) = 66%Z).
  { intros tip vertex. cbn [List.length].
    rewrite length_map, E65, length_map, length_seq. reflexivity. }
  assert (Hring : forall (side : R) (i : Z),
            (let g := csLatLngToECEF POLE_COS POLE_SIN
                        (interpolate 0 (360 / IZR (shl1 z)) (IZR i / 64))
                        (Some (IZR (shl1 z) * TILE_SIZE / PI / 2)) in
             [v0 g; v1 g; v2 g; 0; 0; IZR i / 64; side])
            = [v0 (ring i); v1 (ring i); v2 (ring i); 0; 0; IZR i / 64; side]).
  { intros side i. cbv zeta. unfold ring, radius, tiles, POLE_COS, POLE_SIN, POLE_RAD.
    replace (interpolate 0 (360 / IZR (shl1 z)) (IZR i / 64))
      with (360 / IZR (shl1 z) * (IZR i / 64)) by (unfold interpolate; ring).
    reflexivity. }
  change [0; 1; 2; 3; 4]%Z with (map Z.of_nat (seq 0 5)).
  rewrite lookupZ_map_seq.
  destruct (Z.leb_spec 0 z) as [_|]; [|lia].
  destruct (Z.ltb_spec z (Z.of_nat 5)) as [_|]; [|lia]. cbn [andb].
  match goal with
  | |- context [flat_map ?fanN (map Z.of_nat (seq 0 5)) = _ ++ fan 0 ++ _] =>
      destruct (flat_map_split fanN 66 5 z (fun x => Hlen _ _) Hz)
        as (beforeN & afterN & EN & LN & _);
      assert (FN : fanN z = fan 0)
        by (unfold fan; cbv beta; f_equal; apply map_ext; intros i; apply Hring)
  end.
  match goal with
  | |- context [flat_map ?fanS (map Z.of_nat (seq 0 5)) = _ ++ fan 1 ++ _] =>
      destruct (flat_map_split fanS 66 5 z (fun x => Hlen _ _) Hz)
        as (beforeS & afterS & ES & LS & _);
      assert (FS : fanS z = fan 1)
        by (unfold fan; cbv beta; f_equal; apply map_ext; intros i; apply Hring)
  end.
  rewrite FN in EN. rewrite FS in ES.
  eexists. exists beforeN, afterN, beforeS, afterS.
  split; [reflexivity|].
  cbn [SegmentVector.vertexOffset SegmentVector.vertexLength].
  rewrite Z2Nat.id by lia.
  split; [exact EN|]. split; [exact ES|].
  split; [rewrite INR_length, LN, mult_IZR; lra|].
  split; [rewrite INR_length, LS, mult_IZR; lra|].
  split; [rewrite INR_length; unfold fan; rewrite Hlen; lra|].
  split; [rewrite INR_length; unfold fan; rewrite Hlen; lra|].
  split; [|split].
  - rewrite latLngToECEF_in_range by lra. unfold csLatLngToECEF.
    replace (degToRad 90) with (PI / 2) by (unfold degToRad; field).
    rewrite sin_PI2, cos_PI2. do 2 f_equal; ring.
  - intros i. rewrite latLngToECEF_in_range by lra. reflexivity.
  - intros ->. unfold ring, tiles.
    change (shl1 0) with 1%Z. unfold csLatLngToECEF.
    replace (degToRad (360 / 1 * (64 / 64))) with (2 * PI)
      by (unfold degToRad; field; lra).
    replace (degToRad (360 / 1 * (0 / 64))) with 0
      by (unfold degToRad; field; lra).
    rewrite sin_2PI, cos_2PI, sin_0, cos_0. reflexivity.
Qed.

(** The lines that the loops of [getWirefameBuffers] append for one level of
    detail. *)
Lemma wireframeIndices_loop (quadExt vertexExt latitudinalLod : R)
    (wireframeIndices : StructArray) :
  fold_left (fun wireframeIndices j =>
    fold_left (fun wireframeIndices i =>
      let index := IZR j * vertexExt + IZR i in
      let wireframeIndices := emplaceBack wireframeIndices [index; index + 1] in
      let wireframeIndices :=
        emplaceBack wireframeIndices [index; index + vertexExt] in
      emplaceBack wireframeIndices [index; index + vertexExt + 1])
      (countBelow quadExt) wireframeIndices)
    (countBelow latitudinalLod) wireframeIndices
  = wireframeIndices
    ++ flat_map (fun j =>
         flat_map (fun i =>
           [ [IZR j * vertexExt + IZR i; IZR j * vertexExt + IZR i + 1];
             [IZR j * vertexExt + IZR i; IZR j * vertexExt + IZR i + vertexExt];
             [IZR j * vertexExt + IZR i; IZR j * vertexExt + IZR i + vertexExt + 1] ])
           (countBelow quadExt))
         (countBelow latitudinalLod).
Proof.
  apply fold_left_append. intros arr j.
  apply fold_left_append. intros arr' i.
  cbv zeta. unfold emplaceBack. rewrite <- !app_assoc. reflexivity.
Qed.

Lemma wireframe_parts :
  let lines := fun rows : R =>
    flat_map (fun j =>
      flat_map (fun i =>
        [ [IZR j * (64 + 1) + IZR i; IZR j * (64 + 1) + IZR i + 1];
          [IZR j * (64 + 1) + IZR i; IZR j * (64 + 1) + IZR i + (64 + 1)];
          [IZR j * (64 + 1) + IZR i; IZR j * (64 + 1) + IZR i + (64 + 1) + 1] ])
        (countBelow 64))
      (countBelow rows) in
  wireframe
  = ((([] ++ lines 64) ++ lines (64 / 2)) ++ lines (64 / 4),
     [ SegmentVector.simpleSegment 0 0 ((64 + 1) * (64 + 1)) (64 * 64 * 3);
       SegmentVector.simpleSegment 0 (0 + 64 * 64 * 3)
                                   ((64 / 2 + 1) * (64 + 1)) (64 / 2 * 64 * 3);
       SegmentVector.simpleSegment 0 (0 + 64 * 64 * 3 + 64 / 2 * 64 * 3)
                                   ((64 / 4 + 1) * (64 + 1)) (64 / 4 * 64 * 3) ]).
Proof.
  intros lines. unfold wireframe, GLOBE_LATITUDINAL_GRID_LOD_TABLE,
    GLOBE_VERTEX_GRID_SIZE.
  cbv zeta. cbn [fold_left fst snd app].
  rewrite !wireframeIndices_loop. reflexivity.
Qed.

Lemma wireframe_line_indices (rows : Z) (line : list R) (index : R) :
  In line
     (flat_map (fun j =>
        flat_map (fun i =>
          [ [IZR j * (64 + 1) + IZR i; IZR j * (64 + 1) + IZR i + 1];
            [IZR j * (64 + 1) + IZR i; IZR j * (64 + 1) + IZR i + (64 + 1)];
            [IZR j * (64 + 1) + IZR i; IZR j * (64 + 1) + IZR i + (64 + 1) + 1] ])
          (countBelow 64))
        (countBelow (IZR rows))) ->
  In index line ->
  exists n : Z, (0 <= n)%Z /\ index = IZR n /\ IZR n < (IZR rows + 1) * (64 + 1).
Proof.
  intros Hin Hidx.
  apply in_flat_map in Hin. destruct Hin as (j & Hj & Hin).
  apply in_flat_map in Hin. destruct Hin as (i & Hi & Hin).
  apply In_countBelow in Hj. apply In_countBelow in Hi.
  assert (Hj0 : 0 <= IZR j) by (apply IZR_le; lia).
  assert (Hj1 : IZR j <= IZR rows - 1)
    by (rewrite <- minus_IZR; apply IZR_le; lia).
  assert (Hi0 : 0 <= IZR i) by (apply IZR_le; lia).
  assert (Hi1 : IZR i <= 63) by (apply IZR_le; lia).
  assert (Hn : forall k : Z, (0 <= k <= 66)%Z ->
            index = IZR j * (64 + 1) + IZR i + IZR k ->
            exists n : Z, (0 <= n)%Z /\ index = IZR n
                          /\ IZR n < (IZR rows + 1) * (64 + 1)).
  { intros k Hk E. exists (j * 65 + i + k)%Z.
    assert (Hk1 : IZR k <= 66) by (apply IZR_le; lia).
    split; [lia|].
    rewrite !plus_IZR, mult_IZR. split; [rewrite E; lra|]. lra. }
  destruct Hin as [E|[E|[E|[]]]]; subst line;
    destruct Hidx as [E|[E|[]]]; subst index.
  - apply (Hn 0%Z); [lia|ring].
  - apply (Hn 1%Z); [lia|ring].
  - apply (Hn 0%Z); [lia|ring].
  - apply (Hn 65%Z); [lia|ring].
  - apply (Hn 0%Z); [lia|ring].
  - apply (Hn 66%Z); [lia|ring].
Qed.

Lemma length_wireframe_lines (rows : Z) :
  (0 <= rows)%Z ->
  Z.of_nat (List.length
    (flat_map (fun j =>
       flat_map (fun i =>
         [ [IZR j * (64 + 1) + IZR i; IZR j * (64 + 1) + IZR i + 1];
           [IZR j * (64 + 1) + IZR i; IZR j * (64 + 1) + IZR i + (64 + 1)];
           [IZR j * (64 + 1) + IZR i; IZR j * (64 + 1) + IZR i + (64 + 1) + 1] ])
         (countBelow 64))
       (countBelow (IZR rows))))
  = (rows * 192)%Z.
Proof.
  intros Hr.
  rewrite (length_flat_map_Z _ _ 192), length_countBelow by
    (try lia; intros j _;
     rewrite (length_flat_map_Z _ _ 3), length_countBelow by
       (try lia; intros i _; reflexivity);
     reflexivity).
  reflexivity.
Qed.

(** X28: the wireframe is built by the first call of [getWirefameBuffers] and
    kept: a second call changes no field of the object, a call on an
    object that has its wireframe changes nothing, and no call changes
    any of the three grid fields or of the four pole fields.  On a new
    object the call hands back the vertex buffer of the grid and, for the
    levels of detail 0, 1 and 2 and for no other, a segment whose lines
    are in the index buffer from its primitive offset on, three for every
    cell of the rows of that level, each index a whole number below the
    vertex count of the segment, which the vertex buffer holds. *)
Theorem wireframeBuffers_segments (lod : Z) :
  (forall (this : GlobeSharedBuffers.t) (lod1 lod2 : Z),
     let first := getWirefameBuffers this lod1 in
     snd (getWirefameBuffers (snd first) lod2) = snd first /\
     GlobeSharedBuffers._gridBuffer (snd first) = GlobeSharedBuffers._gridBuffer this /\
     GlobeSharedBuffers._gridIndexBuffer (snd first)
     = GlobeSharedBuffers._gridIndexBuffer this /\
     GlobeSharedBuffers._gridSegments (snd first)
     = GlobeSharedBuffers._gridSegments this /\
     GlobeSharedBuffers._poleNorthVertexBuffer (snd first)
     = GlobeSharedBuffers._poleNorthVertexBuffer this /\
     GlobeSharedBuffers._poleSouthVertexBuffer (snd first)
     = GlobeSharedBuffers._poleSouthVertexBuffer this /\
     GlobeSharedBuffers._poleIndexBuffer (snd first)
     = GlobeSharedBuffers._poleIndexBuffer this /\
     GlobeSharedBuffers._poleSegments (snd first)
     = GlobeSharedBuffers._poleSegments this /\
     (GlobeSharedBuffers._wireframeSegments this <> None ->
      snd first = this)) /\
  let this := newGlobeSharedBuffers in
  let buffers := fst (getWirefameBuffers this lod) in
  fst (fst buffers) = GlobeSharedBuffers._gridBuffer this /\
  (snd buffers = None <-> (lod < 0 \/ 3 <= lod)%Z) /\
  forall seg, snd buffers = Some seg ->
    exists (rows : R) (before lines after : StructArray),
      lookupZ GLOBE_LATITUDINAL_GRID_LOD_TABLE lod = Some rows /\
      snd (fst buffers) = Some (before ++ lines ++ after) /\
      INR (List.length before) = SegmentVector.primitiveOffset seg /\
      INR (List.length lines) = SegmentVector.primitiveLength seg /\
      SegmentVector.primitiveLength seg = rows * GLOBE_VERTEX_GRID_SIZE * 3 /\
      SegmentVector.vertexOffset seg = 0 /\
      SegmentVector.vertexLength seg = (rows + 1) * (GLOBE_VERTEX_GRID_SIZE + 1) /\
      SegmentVector.vertexLength seg
      <= INR (List.length (GlobeSharedBuffers._gridBuffer this)) /\
      forall line index, In line lines -> In index line ->
        exists n : Z, (0 <= n)%Z /\ index = IZR n
                      /\ IZR n < SegmentVector.vertexLength seg.
Proof.
  split.
  { intros this lod1 lod2 first. unfold first, getWirefameBuffers.
    destruct this as [pn ps pi pseg gb gi gs wi ws].
    cbn [GlobeSharedBuffers._wireframeSegments]. cbv zeta.
    destruct ws as [segments|];
      cbn [snd GlobeSharedBuffers._wireframeSegments
           GlobeSharedBuffers._gridBuffer GlobeSharedBuffers._gridIndexBuffer
           GlobeSharedBuffers._gridSegments GlobeSharedBuffers._poleIndexBuffer
           GlobeSharedBuffers._poleSegments
           GlobeSharedBuffers._poleNorthVertexBuffer
           GlobeSharedBuffers._poleSouthVertexBuffer];
      (do 8 (split; [reflexivity|]));
      intros Hset; [reflexivity | exfalso; apply Hset; reflexivity]. }
  intros this buffers.
  unfold buffers, getWirefameBuffers, this, newGlobeSharedBuffers.
  cbv zeta.
  cbn [GlobeSharedBuffers._wireframeSegments GlobeSharedBuffers._wireframeIndexBuffer
       GlobeSharedBuffers._gridBuffer fst snd].
  rewrite wireframe_parts, createGrid_parts. cbv zeta. cbn [fst snd].
  unfold lookupZ, GLOBE_LATITUDINAL_GRID_LOD_TABLE, GLOBE_VERTEX_GRID_SIZE.
  assert (L64 := length_wireframe_lines 64 ltac:(lia)).
  assert (L32 := length_wireframe_lines 32 ltac:(lia)).
  assert (L16 := length_wireframe_lines 16 ltac:(lia)).
  change (64 * 192)%Z with 12288%Z in L64.
  change (32 * 192)%Z with 6144%Z in L32.
  change (16 * 192)%Z with 3072%Z in L16.
  assert (LV := length_grid_vertices).
  assert (I64 := wireframe_line_indices 64).
  assert (I32 := wireframe_line_indices 32).
  assert (I16 := wireframe_line_indices 16).
  replace (64 / 2) with 32 by lra. replace (64 / 4) with 16 by lra.
  set (q64 := flat_map _ (countBelow 64)) in *.
  set (q32 := flat_map _ (countBelow 32)) in *.
  set (q16 := flat_map _ (countBelow 16)) in *.
  set (vs := flat_map _ (countBelow (64 + 1))) in *.
  split; [reflexivity|].
  destruct (Z.ltb_spec lod 0) as [Hneg|Hpos].
  { split; [split; [intros _; lia | reflexivity] | intros seg E; discriminate E]. }
  destruct (Z.to_nat lod) as [|[|[|n]]] eqn:En; cbn [nth_error].
  - split; [split; [intros E; discriminate E | lia]|].
    intros seg E. injection E as <-. cbn [SegmentVector.primitiveOffset
      SegmentVector.primitiveLength SegmentVector.vertexOffset
      SegmentVector.vertexLength].
    exists 64, [], q64, (q32 ++ q16).
    split; [reflexivity|].
    split; [cbn [app]; rewrite <- app_assoc; reflexivity|].
    split; [reflexivity|].
    split; [rewrite INR_length, L64; lra|].
    split; [reflexivity|]. split; [reflexivity|]. split; [reflexivity|].
    split; [rewrite INR_length, LV; lra|].
    intros line index Ht Hi.
    destruct (I64 line index Ht Hi) as (k & Hk & Ek & Hlt).
    exists k. split; [exact Hk|]. split; [exact Ek|]. lra.
  - split; [split; [intros E; discriminate E | lia]|].
    intros seg E. injection E as <-. cbn [SegmentVector.primitiveOffset
      SegmentVector.primitiveLength SegmentVector.vertexOffset
      SegmentVector.vertexLength].
    exists 32, q64, q32, q16.
    split; [reflexivity|].
    split; [cbn [app]; rewrite <- app_assoc; reflexivity|].
    split; [rewrite INR_length, L64; lra|].
    split; [rewrite INR_length, L32; lra|].
    split; [reflexivity|]. split; [reflexivity|]. split; [reflexivity|].
    split; [rewrite INR_length, LV; lra|].
    intros line index Ht Hi.
    destruct (I32 line index Ht Hi) as (k & Hk & Ek & Hlt).
    exists k. split; [exact Hk|]. split; [exact Ek|]. lra.
  - split; [split; [intros E; discriminate E | lia]|].
    intros seg E. injection E as <-. cbn [SegmentVector.primitiveOffset
      SegmentVector.primitiveLength SegmentVector.vertexOffset
      SegmentVector.vertexLength].
    exists 16, (q64 ++ q32), q16, [].
    split; [reflexivity|].
    split; [cbn [app]; rewrite app_nil_r; reflexivity|].
    split; [rewrite INR_length, length_app, Nat2Z.inj_add, L64, L32, plus_IZR; lra|].
    split; [rewrite INR_length, L16; lra|].
    split; [reflexivity|]. split; [reflexivity|]. split; [reflexivity|].
    split; [rewrite INR_length, LV; lra|].
    intros line index Ht Hi.
    destruct (I16 line index Ht Hi) as (k & Hk & Ek & Hlt).
    exists k. split; [exact Hk|]. split; [exact Ek|]. lra.
  - split; [split; [intros _; lia | intros _]|].
    + destruct n; reflexivity.
    + intros seg E. destruct n; discriminate E.
Qed.

End MeshProperties.

(** * Properties of the tile origin and of the grid matrix *)

Section OriginProperties.

Context `{Imports}.

(** X29: the origin of a tile matrix that [globeMatrixForTile] built from an
    affine globe matrix is the translation of that globe matrix, the
    center of the globe in world space, whatever the wrap of the tile and
    whatever the shared temporary matrix held before, for a tile whose
    box has a positive extent.  For an identifier without a box
    [globeECEFOrigin] throws. *)
Theorem globeECEFOrigin_globe_center (id : UnwrappedTileID.t) (globeMatrix : Mat4)
    (bounds : Aabb.t) (st : Store) :
  globeTileBounds (UnwrappedTileID.canonical id) = Some bounds ->
  (exists d, (Aabb.min bounds).[d] < (Aabb.max bounds).[d]) ->
  m3 globeMatrix = 0 -> m7 globeMatrix = 0 -> m11 globeMatrix = 0 ->
  m15 globeMatrix = 1 ->
  (exists (tileMatrix : Mat4) (st1 st2 : Store),
     globeMatrixForTile (UnwrappedTileID.canonical id) globeMatrix st
     = Ok (tileMatrix, st1) /\
     globeECEFOrigin tileMatrix id st1
     = Ok (mkVec3 (m12 globeMatrix) (m13 globeMatrix) (m14 globeMatrix), st2)) /\
  (forall (other : UnwrappedTileID.t) (tileMatrix : Mat4) (st0 : Store),
     globeTileBounds (UnwrappedTileID.canonical other) = None ->
     globeECEFOrigin tileMatrix other st0 = Throw TypeError).
Proof.
  intros Hb Hext E3 E7 E11 E15. split.
  - assert (Hs := normalizationScale_pos bounds Hext).
    unfold globeMatrixForTile, globeECEFOrigin. rewrite Hb.
    unfold globeDenormalizeECEF, globeNormalizeECEF, deref.
    set (s := globeECEFNormalizationScale bounds) in *.
    exists (mat4.mul globeMatrix
              (mat4.scale (mat4.fromTranslation (Aabb.min bounds))
                          (mkVec3 (1 / s) (1 / s) (1 / s)))),
           (mat4.scale (mat4.fromTranslation (Aabb.min bounds))
                       (mkVec3 (1 / s) (1 / s) (1 / s))),
           (mat4.translate (mat4.fromScaling (mkVec3 s s s))
                           (vec3.negate (Aabb.min bounds))).
    split; [reflexivity|].
    destruct globeMatrix as [g0 g1 g2 g3 g4 g5 g6 g7 g8 g9 g10 g11 g12 g13 g14 g15].
    cbn [m3 m7 m11 m15 m12 m13 m14] in *. subst g3 g7 g11 g15.
    destruct (Aabb.min bounds) as [a b c].
    rewrite (transformMat4_affine (mkVec3 0 0 0)) by (simpl; ring).
    rewrite transformMat4_affine by (simpl; ring).
    unfold mat4.mul, mat4.multiply, mat4.scale, mat4.fromTranslation,
      mat4.translate, mat4.fromScaling, vec3.negate.
    cbn [v0 v1 v2 m0 m1 m2 m3 m4 m5 m6 m7 m8 m9 m10 m11 m12 m13 m14 m15].
    f_equal. apply f_equal2; [|reflexivity]. f_equal; field; lra.
  - intros other tileMatrix st0 Hnone. unfold globeECEFOrigin. rewrite Hnone.
    reflexivity.
Qed.

(** X30: for every latitude the level of detail of [getLatitudinalLod] has a
    row count in the table, so [getGridMatrix] returns nine numbers; its
    steps span the bounds: [GLOBE_VERTEX_GRID_SIZE] steps from the west
    reach the east and as many steps as the level has rows reach the south
    from the north.  For a level outside the table the step in latitude
    is not a number. *)
Theorem getGridMatrix_spans (id : CanonicalTileID.t) (bounds : LngLatBounds.t)
    (lat : R) :
  5 < MAX_MERCATOR_LATITUDE ->
  (exists x y rows : R,
     lookupZ GLOBE_LATITUDINAL_GRID_LOD_TABLE (getLatitudinalLod lat) = Some rows /\
     getGridMatrix id bounds (getLatitudinalLod lat)
     = [ Some 0; Some x; Some (IZR (shl1 (CanonicalTileID.z id))); Some y; Some 0;
         Some (IZR (CanonicalTileID.y id)); Some (LngLatBounds.getNorth bounds);
         Some (LngLatBounds.getWest bounds); Some (1 / GLOBE_VERTEX_GRID_SIZE) ] /\
     LngLatBounds.getWest bounds + GLOBE_VERTEX_GRID_SIZE * x
     = LngLatBounds.getEast bounds /\
     LngLatBounds.getNorth bounds + rows * y = LngLatBounds.getSouth bounds) /\
  (forall lod : Z, (lod < 0 \/ 3 <= lod)%Z ->
     nth_error (getGridMatrix id bounds lod) 3 = Some None).
Proof.
  intros _. split.
  - assert (Hl := getLatitudinalLod_bounds lat).
    unfold getGridMatrix.
    set (lod := getLatitudinalLod lat) in *.
    assert (Hrows : exists rows, lookupZ GLOBE_LATITUDINAL_GRID_LOD_TABLE lod = Some rows
                                 /\ rows <> 0).
    { unfold lookupZ, GLOBE_LATITUDINAL_GRID_LOD_TABLE, GLOBE_VERTEX_GRID_SIZE.
      destruct (Z.ltb_spec lod 0); [lia|].
      destruct (Z.to_nat lod) as [|[|[|n]]] eqn:En; [| | |lia];
        cbn [nth_error]; eexists; (split; [reflexivity|lra]). }
    destruct Hrows as (rows & Er & Hr). rewrite Er.
    do 3 eexists. split; [reflexivity|]. split; [reflexivity|].
    unfold GLOBE_VERTEX_GRID_SIZE. split; field. exact Hr.
  - intros lod Hlod. unfold getGridMatrix, lookupZ, GLOBE_LATITUDINAL_GRID_LOD_TABLE.
    destruct (Z.ltb_spec lod 0); [reflexivity|].
    destruct (Z.to_nat lod) as [|[|[|n]]] eqn:En; try lia.
    cbn [nth_error]. destruct n; reflexivity.
Qed.

End OriginProperties.

(** * Witnesses of the further properties *)

Lemma webMercator_radius : 64 <= @GLOBE_RADIUS WebMercator.imports.
Proof.
  unfold GLOBE_RADIUS. cbn [EXTENT WebMercator.imports].
  assert (Hpi := PI_RGT_0). assert (H4 := PI_4).
  apply Rmult_le_reg_r with (2 * PI); [lra|].
  replace (512 / PI / 2 * (2 * PI)) with 512 by (field; lra). lra.
Qed.

Lemma webMercator_meters_pos : 0 < @GLOBE_METERS_TO_ECEF WebMercator.imports.
Proof.
  assert (Hpi := PI_RGT_0). assert (HR := webMercator_radius).
  unfold GLOBE_METERS_TO_ECEF.
  cbn [mercatorZfromAltitude WebMercator.imports].
  unfold WebMercator.mercatorZfromAltitude, WebMercator.earthRadius.
  replace (0 * PI / 180) with 0 by field. rewrite cos_0.
  assert (Hz : 0 < 1 / (2 * PI * (63710088 / 10) * 1)).
  { apply Rdiv_lt_0_compat; [lra|]. nra. }
  apply Rmult_lt_0_compat; [|lra].
  apply Rmult_lt_0_compat; [|lra].
  apply Rmult_lt_0_compat; lra.
Qed.

Lemma aabbForTileOnGlobe_min_le_max_witness :
  exists box : Aabb.t,
    @aabbForTileOnGlobe WebMercator.imports
      (@equatorTransform WebMercator.imports) 4 tile_2_3_1 = Ok box /\
    forall d, (Aabb.min box).[d] <= (Aabb.max box).[d].
Proof.
  apply (@aabbForTileOnGlobe_min_le_max WebMercator.imports).
  - reflexivity.
  - exact (@equator_worldSize_pos WebMercator.imports).
Defined.

Lemma aabbForTileOnGlobe_off_center_witness :
  let tr := @equatorTransform WebMercator.imports in
  let f := @returnFrame WebMercator.imports tr 4 tile_2_3_1 in
  let box := Aabb.mk (Frame.cornerMin f) (Frame.cornerMax f) in
  @aabbForTileOnGlobe WebMercator.imports tr 4 tile_2_3_1 = Ok box /\
  Aabb.contains box (Frame.arcBounds f) /\
  (forall corner,
     In corner (@boundsToECEF WebMercator.imports
                  (@tileCornersToBounds WebMercator.imports tile_2_3_1)) ->
     let c := vec3.scale (vec3.transformMat4 corner (Transform.globeMatrix tr))
                         (4 / Transform.worldSize tr) in
     v0 (Aabb.min box) <= v0 c <= v0 (Aabb.max box) /\
     v1 (Aabb.min box) <= v1 c <= v1 (Aabb.max box) /\
     v2 c <= v2 (Aabb.max box)) /\
  v2 (Aabb.min box)
  = Rmin (Rmin (v2 (Frame.arcA f)) (v2 (Frame.arcB f))) (v2 (Frame.arcBounds f)).
Proof.
  apply (@aabbForTileOnGlobe_off_center WebMercator.imports
           (@equatorTransform WebMercator.imports) 4 tile_2_3_1).
  - reflexivity.
  - exact (@equator_worldSize_pos WebMercator.imports).
  - exact (@tile_2_3_1_off_center WebMercator.imports webMercator_planarFacts).
Defined.

Lemma aabbForTileOnGlobe_low_zoom_witness :
  let r := @GLOBE_RADIUS WebMercator.imports in
  let tr := @equatorTransform WebMercator.imports in
  exists box : Aabb.t,
    @aabbForTileOnGlobe WebMercator.imports tr 1 (CanonicalTileID.mk 0 0 0) = Ok box /\
    forall corner,
      In corner (Aabb.getCorners
                   (Aabb.mk (mkVec3 (- r) (- r) (- r)) (mkVec3 r r r))) ->
      Aabb.contains box
        (vec3.scale (vec3.transformMat4 corner (Transform.globeMatrix tr))
                    (1 / Transform.worldSize tr)).
Proof.
  apply (@aabbForTileOnGlobe_low_zoom WebMercator.imports
           (@equatorTransform WebMercator.imports) 1 (CanonicalTileID.mk 0 0 0)).
  - cbn [CanonicalTileID.z]. lia.
  - exact (@equator_worldSize_pos WebMercator.imports).
  - reflexivity.
Defined.

Lemma globeNormalizeECEF_range_witness :
  let bounds := Aabb.mk (mkVec3 0 0 0) (mkVec3 1 2 3) in
  let (n, st1) := globeNormalizeECEF bounds mat4.identity in
  IZR GLOBE_NORMALIZATION_MASK = 16383 /\
  forall d, 0 <= (vec3.transformMat4 (mkVec3 (1 / 2) 1 3) (deref st1 n)).[d] <= 16383.
Proof.
  apply (@globeNormalizeECEF_range
           (Aabb.mk (mkVec3 0 0 0) (mkVec3 1 2 3)) (mkVec3 (1 / 2) 1 3) mat4.identity).
  - intros d; destruct d; cbn [Aabb.min Aabb.max vget v0 v1 v2]; lra.
  - exists DimX; cbn [Aabb.min Aabb.max vget v0 v1 v2]; lra.
Defined.

Lemma globeMatrixForTile_decodes_witness :
  let r := @GLOBE_RADIUS WebMercator.imports in
  let bounds := Aabb.mk (mkVec3 (- r) (- r) (- r)) (mkVec3 r r r) in
  let (n, st1) := globeNormalizeECEF bounds mat4.identity in
  let Q := vec3.transformMat4 (mkVec3 1 2 3) (deref st1 n) in
  exists (tileMatrix : Mat4) (st2 : Store),
    @globeMatrixForTile WebMercator.imports (CanonicalTileID.mk 0 0 0)
      (mat4.fromTranslation (mkVec3 5 6 7)) st1 = Ok (tileMatrix, st2) /\
    vec3.transformMat4 Q tileMatrix
    = vec3.transformMat4 (mkVec3 1 2 3) (mat4.fromTranslation (mkVec3 5 6 7)).
Proof.
  apply (@globeMatrixForTile_decodes WebMercator.imports (CanonicalTileID.mk 0 0 0)
           (mat4.fromTranslation (mkVec3 5 6 7))
           (Aabb.mk (mkVec3 (- @GLOBE_RADIUS WebMercator.imports)
                            (- @GLOBE_RADIUS WebMercator.imports)
                            (- @GLOBE_RADIUS WebMercator.imports))
                    (mkVec3 (@GLOBE_RADIUS WebMercator.imports)
                            (@GLOBE_RADIUS WebMercator.imports)
                            (@GLOBE_RADIUS WebMercator.imports)))
           (mkVec3 1 2 3) mat4.identity).
  - reflexivity.
  - exists DimX. cbn [Aabb.min Aabb.max vget v0 v1 v2].
    generalize webMercator_radius. lra.
  - reflexivity.
  - reflexivity.
  - reflexivity.
  - reflexivity.
Defined.

Lemma calculateGlobeMatrix_center_highest_witness :
  let tr := @pitchedTransform WebMercator.imports in
  (exists pivot : Vec3,
     @latLngToECEF WebMercator.imports 20 10 None = Ok pivot /\
     vec3.transformMat4 pivot (@calculateGlobeMatrix WebMercator.imports tr)
     = mkVec3 (Point.x (Transform.point tr)) (Point.y (Transform.point tr)) 0) /\
  (forall lat lng p,
     @latLngToECEF WebMercator.imports lat lng None = Ok p ->
     v2 (vec3.transformMat4 p (@calculateGlobeMatrix WebMercator.imports tr)) <= 0).
Proof.
  apply (@calculateGlobeMatrix_center_highest WebMercator.imports
           (@pitchedTransform WebMercator.imports)).
  - cbn [EXTENT WebMercator.imports]. lra.
  - unfold pitchedTransform. cbn [Transform.worldSize]. lra.
  - unfold pitchedTransform. cbn [Transform._center LngLat.lat]. lra.
Defined.

Lemma tileCoordToECEF_corners_witness :
  @tileCoordToECEF WebMercator.imports 0 0 tile_2_3_1 None
  = Ok (at_index (@boundsToECEF WebMercator.imports
                    (@tileCornersToBounds WebMercator.imports tile_2_3_1)) 3) /\
  @tileCoordToECEF WebMercator.imports 512 512 tile_2_3_1 None
  = Ok (at_index (@boundsToECEF WebMercator.imports
                    (@tileCornersToBounds WebMercator.imports tile_2_3_1)) 1).
Proof.
  assert (HN := webMercator_northLat_range).
  apply (@tileCoordToECEF_corners WebMercator.imports tile_2_3_1).
  - cbn [EXTENT WebMercator.imports]. lra.
  - rewrite (@tile_2_3_1_bounds WebMercator.imports webMercator_planarFacts).
    cbn [LngLatBounds.getNorth LngLatBounds._ne LngLat.lat]. lra.
  - rewrite (@tile_2_3_1_bounds WebMercator.imports webMercator_planarFacts).
    cbn [LngLatBounds.getSouth LngLatBounds._sw LngLat.lat]. lra.
Defined.

Lemma getLatitudinalLod_range_witness :
  (0 <= @getLatitudinalLod WebMercator.imports 30 <= 2)%Z /\
  @getLatitudinalLod WebMercator.imports 0 = 0%Z /\
  (85051129 / 1000000 - 5 <= Rabs 30 ->
   @getLatitudinalLod WebMercator.imports 30 = 2%Z).
Proof.
  apply (@getLatitudinalLod_range WebMercator.imports 30).
  cbn [MAX_MERCATOR_LATITUDE WebMercator.imports]. lra.
Defined.

Lemma getLatitudinalLod_monotone_witness :
  @getLatitudinalLod WebMercator.imports (- 10) = @getLatitudinalLod WebMercator.imports 10 /\
  (Rabs 10 <= Rabs (-20) ->
   (@getLatitudinalLod WebMercator.imports 10
    <= @getLatitudinalLod WebMercator.imports (-20))%Z).
Proof.
  apply (@getLatitudinalLod_monotone WebMercator.imports 10 (-20)).
  cbn [MAX_MERCATOR_LATITUDE WebMercator.imports]. lra.
Defined.

Lemma cameraPositionInECEF_straight_above_witness :
  let tr := @equatorTransform WebMercator.imports in
  let distance := Transform.cameraToCenterDistance tr / Transform.pixelsPerMeter tr
                  * @GLOBE_METERS_TO_ECEF WebMercator.imports in
  exists pivot : Vec3,
    @latLngToECEF WebMercator.imports 0 0 None = Ok pivot /\
    @cameraPositionInECEF WebMercator.imports tr
    = Ok (vec3.scale pivot (1 + distance / @GLOBE_RADIUS WebMercator.imports)) /\
    (0 < distance ->
     @globeTiltAtLngLat WebMercator.imports tr (Transform.center tr) = Ok 0 /\
     @isLngLatBehindGlobe WebMercator.imports tr (Transform.center tr) = Ok false).
Proof.
  apply (@cameraPositionInECEF_straight_above WebMercator.imports
           (@equatorTransform WebMercator.imports)).
  - unfold equatorTransform. cbn [Transform._center LngLat.lat]. lra.
  - left. reflexivity.
  - generalize webMercator_radius. unfold mat4.EPSILON. lra.
  - unfold equatorTransform. cbn [Transform.pixelsPerMeter]. lra.
Defined.

Lemma globeTiltAtLngLat_center_pitch_witness :
  let tr := @pitchedTransform WebMercator.imports in
  @globeTiltAtLngLat WebMercator.imports tr (Transform.center tr) = Ok 1 /\
  @isLngLatBehindGlobe WebMercator.imports tr (Transform.center tr)
  = Ok (if Rgt_dec 1 (PI / 2 * (101 / 100)) then true else false).
Proof.
  apply (@globeTiltAtLngLat_center_pitch WebMercator.imports
           (@pitchedTransform WebMercator.imports)).
  - unfold pitchedTransform. cbn [Transform._center LngLat.lat]. lra.
  - unfold pitchedTransform. cbn [Transform._pitch].
    generalize PI2_1. lra.
  - unfold pitchedTransform. cbn [Transform._center LngLat.lat].
    assert (HR := webMercator_radius). assert (Hpi := PI_RGT_0).
    assert (Hc : 1 / 2 <= cos (degToRad 20)).
    { rewrite <- cos_PI3. apply cos_decr_1; unfold degToRad; lra. }
    unfold mat4.EPSILON. nra.
  - unfold pitchedTransform.
    cbn [Transform.cameraToCenterDistance Transform.pixelsPerMeter].
    generalize webMercator_meters_pos. lra.
Defined.

Lemma poleBuffers_fans_witness :
  let this := @newGlobeSharedBuffers WebMercator.imports in
  let tiles := IZR (shl1 2) in
  let radius := tiles * TILE_SIZE / PI / 2 in
  let ring := fun i : Z =>
    @csLatLngToECEF WebMercator.imports (cos (degToRad 85)) (sin (degToRad 85))
                    (360 / tiles * (IZR i / 64)) (Some radius) in
  let fan := fun side : R =>
    [0; - radius; 0; 0; 0; 1 / 2; side]
    :: map (fun i => [v0 (ring i); v1 (ring i); v2 (ring i); 0; 0; IZR i / 64; side])
           (countThrough 64) in
  exists (seg : SegmentVector.t) (beforeN afterN beforeS afterS : StructArray),
    snd (getPoleBuffers this 2) = Some seg /\
    GlobeSharedBuffers._poleNorthVertexBuffer this = beforeN ++ fan 0 ++ afterN /\
    GlobeSharedBuffers._poleSouthVertexBuffer this = beforeS ++ fan 1 ++ afterS /\
    INR (List.length beforeN) = SegmentVector.vertexOffset seg /\
    INR (List.length beforeS) = SegmentVector.vertexOffset seg /\
    INR (List.length (fan 0)) = SegmentVector.vertexLength seg /\
    INR (List.length (fan 1)) = SegmentVector.vertexLength seg /\
    @latLngToECEF WebMercator.imports 90 0 (Some radius) = Ok (mkVec3 0 (- radius) 0) /\
    (forall i : Z,
       @latLngToECEF WebMercator.imports 85 (360 / tiles * (IZR i / 64)) (Some radius)
       = Ok (ring i)) /\
    (2%Z = 0%Z -> ring 64%Z = ring 0%Z).
Proof.
  apply (@poleBuffers_fans WebMercator.imports 2). lia.
Defined.

Lemma globeECEFOrigin_globe_center_witness :
  let r := @GLOBE_RADIUS WebMercator.imports in
  let id := UnwrappedTileID.mk 1 (CanonicalTileID.mk 0 0 0) in
  let globeMatrix := mat4.fromTranslation (mkVec3 5 6 7) in
  (exists (tileMatrix : Mat4) (st1 st2 : Store),
     @globeMatrixForTile WebMercator.imports (UnwrappedTileID.canonical id)
       globeMatrix mat4.identity = Ok (tileMatrix, st1) /\
     @globeECEFOrigin WebMercator.imports tileMatrix id st1
     = Ok (mkVec3 (m12 globeMatrix) (m13 globeMatrix) (m14 globeMatrix), st2)) /\
  (forall (other : UnwrappedTileID.t) (tileMatrix : Mat4) (st0 : Store),
     @globeTileBounds WebMercator.imports (UnwrappedTileID.canonical other) = None ->
     @globeECEFOrigin WebMercator.imports tileMatrix other st0 = Throw TypeError).
Proof.
  apply (@globeECEFOrigin_globe_center WebMercator.imports
           (UnwrappedTileID.mk 1 (CanonicalTileID.mk 0 0 0))
           (mat4.fromTranslation (mkVec3 5 6 7))
           (Aabb.mk (mkVec3 (- @GLOBE_RADIUS WebMercator.imports)
                            (- @GLOBE_RADIUS WebMercator.imports)
                            (- @GLOBE_RADIUS WebMercator.imports))
                    (mkVec3 (@GLOBE_RADIUS WebMercator.imports)
                            (@GLOBE_RADIUS WebMercator.imports)
                            (@GLOBE_RADIUS WebMercator.imports)))
           mat4.identity).
  - reflexivity.
  - exists DimX. cbn [Aabb.min Aabb.max vget v0 v1 v2].
    generalize webMercator_radius. lra.
  - reflexivity.
  - reflexivity.
  - reflexivity.
  - reflexivity.
Defined.

Lemma getGridMatrix_spans_witness :
  let id := tile_2_3_1 in
  let bounds := LngLatBounds.mk (LngLat.mk 90 0) (LngLat.mk 180 66) in
  let lod := @getLatitudinalLod WebMercator.imports 33 in
  (exists x y rows : R,
     lookupZ GLOBE_LATITUDINAL_GRID_LOD_TABLE lod = Some rows /\
     getGridMatrix id bounds lod
     = [ Some 0; Some x; Some (IZR (shl1 (CanonicalTileID.z id))); Some y; Some 0;
         Some (IZR (CanonicalTileID.y id)); Some (LngLatBounds.getNorth bounds);
         Some (LngLatBounds.getWest bounds); Some (1 / GLOBE_VERTEX_GRID_SIZE) ] /\
     LngLatBounds.getWest bounds + GLOBE_VERTEX_GRID_SIZE * x
     = LngLatBounds.getEast bounds /\
     LngLatBounds.getNorth bounds + rows * y = LngLatBounds.getSouth bounds) /\
  (forall lod : Z, (lod < 0 \/ 3 <= lod)%Z ->
     nth_error (getGridMatrix id bounds lod) 3 = Some None).
Proof.
  apply (@getGridMatrix_spans WebMercator.imports tile_2_3_1
           (LngLatBounds.mk (LngLat.mk 90 0) (LngLat.mk 180 66)) 33).
  cbn [MAX_MERCATOR_LATITUDE WebMercator.imports]. lra.
Defined.

(** The point opposite the center of the map is behind the globe. *)
Lemma isLngLatBehindGlobe_iff_witness :
  @isLngLatBehindGlobe WebMercator.imports (@equatorTransform WebMercator.imports)
                       (LngLat.mk 180 0) = Ok true.
Proof.
  apply (proj2 (proj1 (@isLngLatBehindGlobe_iff WebMercator.imports
                         (@equatorTransform WebMercator.imports) (LngLat.mk 180 0)))).
  assert (HR := webMercator_radius). assert (HM := webMercator_meters_pos).
  assert (Hpi := PI_RGT_0).
  set (r := @GLOBE_RADIUS WebMercator.imports) in *.
  set (m := @GLOBE_METERS_TO_ECEF WebMercator.imports) in *.
  exists (mkVec3 0 0 (- r)), (mkVec3 0 0 (r + m)).
  split; [|split].
  - cbn [LngLat.lat LngLat.lng]. rewrite latLngToECEF_in_range by lra.
    f_equal. unfold csLatLngToECEF. fold r.
    replace (degToRad 180) with PI by (unfold degToRad; field).
    replace (degToRad 0) with 0 by (unfold degToRad; field).
    rewrite cos_0, sin_0, sin_PI, cos_PI. f_equal; ring.
  - rewrite cameraPositionInECEF_above.
    + unfold equatorTransform.
      cbn [Transform._center Transform.cameraToCenterDistance
           Transform.pixelsPerMeter LngLat.lat LngLat.lng].
      fold r m. f_equal. unfold csLatLngToECEF, vec3.scale. fold r.
      cbn [v0 v1 v2].
      replace (degToRad 0) with 0 by (unfold degToRad; field).
      rewrite cos_0, sin_0. f_equal; field; lra.
    + unfold equatorTransform. cbn [Transform._center LngLat.lat]. lra.
    + left. reflexivity.
    + fold r. unfold mat4.EPSILON. lra.
  - replace (vec3.subtract (mkVec3 0 0 (r + m)) (mkVec3 0 0 (- r)))
      with (mkVec3 0 0 (r + m + r))
      by (unfold vec3.subtract, vec3.sub; cbn [v0 v1 v2]; f_equal; ring).
    rewrite angle_opposite by lra. lra.
Defined.

Lemma globePixelsToTileUnits_next_zoom_witness :
  @globePixelsToTileUnits WebMercator.imports 3 (CanonicalTileID.mk 0 5 0)
  = Throw TypeError /\
  exists units : R,
    @globePixelsToTileUnits WebMercator.imports 2 tile_2_3_1 = Ok units /\
    @globePixelsToTileUnits WebMercator.imports (2 + 1) tile_2_3_1 = Ok (units / 2).
Proof.
  split.
  - apply (proj2 (@globePixelsToTileUnits_next_zoom WebMercator.imports
                    (CanonicalTileID.mk 0 5 0))).
    reflexivity.
  - eexists.
    apply (proj1 (@globePixelsToTileUnits_next_zoom WebMercator.imports tile_2_3_1)
                 _ eq_refl 2).
Defined.
